(** * RAiDER: ray sampling, delay integration, dispatch and weather-model
    preparation, embedded from [delay.py], [weatherModel.py] and [dem.py].

    Floating-point arrays are idealised: a float is a real number ([R]) in
    [delay.py] and [weatherModel.py], and a rational ([Q]) in [dem.py],
    where extents are only compared; a one-dimensional array is a [list].
    Python exceptions are values of [exn], carried by [result]. *)

From Stdlib Require Import String Ascii.
From Stdlib Require Import Reals Lra Lia List ZArith QArith Bool.
From Stdlib Require DecimalString.
From Stdlib Require Import Qminmax.
Import ListNotations.

(** ** Python exceptions *)

Inductive exn : Type :=
| IndexError
| ValueError
| TypeError
| AttributeError
| RuntimeError.

Inductive result (A : Type) : Type :=
| Ok (a : A)
| Raise (e : exn).

Arguments Ok {A} a.
Arguments Raise {A} e.

Definition bind {A B : Type} (m : result A) (k : A -> result B) : result B :=
  match m with
  | Ok a => k a
  | Raise e => Raise e
  end.

Notation "x <- m ;; k" := (bind m (fun x => k))
  (at level 61, m at next level, right associativity).

Definition is_ok {A : Type} (m : result A) : bool :=
  match m with Ok _ => true | Raise _ => false end.

(** ** The numpy primitives the sources call *)

Module Np.

Local Open Scope R_scope.

(** [np.ceil] followed by the cast to [int64]. *)
Definition ceil (x : R) : Z := (1 - up (- x))%Z.

Fixpoint sum (l : list R) : R :=
  match l with
  | [] => 0
  | x :: t => x + sum t
  end.

(** [np.diff]: consecutive differences, one element shorter. *)
Fixpoint diff (l : list R) : list R :=
  match l with
  | x0 :: (x1 :: _) as t => (x1 - x0) :: diff t
  | _ => []
  end.

Fixpoint map2 {A B C : Type} (f : A -> B -> C) (a : list A) (b : list B)
  : list C :=
  match a, b with
  | x :: a', y :: b' => f x y :: map2 f a' b'
  | _, _ => []
  end.

(** [np.trapz(y, x)]:
    [d = diff(x); (d * (y[1:] + y[:-1]) / 2.0).sum()]. *)
Definition trapz (y x : list R) : R :=
  sum (map2 (fun d s => d * s / 2) (diff x) (map2 Rplus (tl y) (removelast y))).

(** [np.linspace(start, stop, num)] with [endpoint=True]: a negative [num]
    raises; [num = 0] is the empty array; [num = 1] is [[start]]; otherwise
    [arange(num) * step + start] with [step = (stop - start) / (num - 1)]
    and the last element overwritten by [stop]. *)
Definition linspace_nat (start stop : R) (num : nat) : list R :=
  match num with
  | O => []
  | S O => [0 * (stop - start) + start]
  | S (S k as div) =>
      let step := (stop - start) / INR div in
      map (fun i => INR i * step + start) (seq 0 div) ++ [stop]
  end.

Definition linspace (start stop : R) (num : Z) : result (list R) :=
  if (num <? 0)%Z then Raise ValueError
  else Ok (linspace_nat start stop (Z.to_nat num)).

(** [np.cumsum] on an integer array. *)
Fixpoint cumsum_from (acc : Z) (l : list Z) : list Z :=
  match l with
  | [] => []
  | x :: t => (acc + x)%Z :: cumsum_from (acc + x) t
  end.

Definition cumsum (l : list Z) : list Z := cumsum_from 0 l.

(** [np.roll(a, 1)]: the last element moves to the front. *)
Definition roll1 {A : Type} (l : list A) : list A :=
  match rev l with
  | [] => []
  | x :: r => x :: rev r
  end.

(** [a[0] = v] on a one-dimensional array. *)
Definition set0 {A : Type} (v : A) (l : list A) : result (list A) :=
  match l with
  | [] => Raise IndexError
  | _ :: t => Ok (v :: t)
  end.

(** [a[n] = x] for an index inside the array. *)
Fixpoint set_nth {X : Type} (n : nat) (x : X) (l : list X) : list X :=
  match l, n with
  | [], _ => []
  | _ :: t, O => x :: t
  | y :: t, S n' => y :: set_nth n' x t
  end.

(** [a[start:start + length]] with non-negative bounds. *)
Definition slice {A : Type} (start len : Z) (l : list A) : list A :=
  firstn (Z.to_nat len) (skipn (Z.to_nat start) l).

End Np.

(** ** util.py *)

Module Util.

Local Open Scope R_scope.

(** Modelled from the spec: [util.zref] is not among the sources; the
    spec's scenario puts the reference height at 15000 m. Used for
    concrete runs only. *)
Definition zref : R := 15000.

(** Modelled from the spec: [util.cosd] and [util.sind] are not among the
    sources; the spec calls them the cosine and sine of degree-valued
    angles. Used for concrete runs only. *)
Definition cosd (x : R) : R := cos (x * PI / 180).

Definition sind (x : R) : R := sin (x * PI / 180).

End Util.

(** ** delay.py *)

Module Delay.

Local Open Scope R_scope.

Record vec3 : Type := V3 { c0 : R; c1 : R; c2 : R }.

Definition vscale (k : R) (v : vec3) : vec3 :=
  V3 (k * c0 v) (k * c1 v) (k * c2 v).

Definition vdiv (v : vec3) (k : R) : vec3 :=
  V3 (c0 v / k) (c1 v / k) (c2 v / k).

Definition vadd (a b : vec3) : vec3 :=
  V3 (c0 a + c0 b) (c1 a + c1 b) (c2 a + c2 b).

(** [np.linalg.norm(v, axis=-1)] *)
Definition norm (v : vec3) : R :=
  sqrt (c0 v * c0 v + c1 v * c1 v + c2 v * c2 v).

(** Step in meters to use when integrating. *)
Definition _step : R := 1.

(** The [look_vecs] argument: the [Zenith] class, an array of vectors
    (ray tracing) or an array of scalar incidence angles. *)
Inductive los_t : Type :=
| Zenith
| LosVecs (v : list vec3)
| LosAngles (a : list R).

Section CommonDelay.

(** [util.zref], [util.cosd], [util.sind] and [util.lla2ecef] live in a
    module that is not part of the sources; [delay] is the interpolator
    method of the weather object ([weather.wet_delay] or
    [weather.hydrostatic_delay]). *)
Variable _zref : R.
Variables cosd sind : R -> R.
Variable lla2ecef : R -> R -> R -> vec3.

(** The arrays [lats], [lons] and [heights] are the columns of one
    [llas] array: a point is a (lat, lon, height) triple. *)
Definition point : Type := (R * R * R)%type.

(** Zenith branch, one row of
    [np.array((cosd(lats)*cosd(lons), cosd(lats)*sind(lons), sind(lats))).T
       * (_zref - heights).reshape(-1,1)]. *)
Definition zenith_look_vec (p : point) : vec3 :=
  let '(lat, lon, h) := p in
  vscale (_zref - h) (V3 (cosd lat * cosd lon) (cosd lat * sind lon) (sind lat)).

(** Explicit branch, one row of
    [look_vecs /= look_vecs[...,2][...,np.newaxis] / _zref]. A row whose
    third component is 0 is divided by 0: its third component becomes
    0/0, which is not a number, and so does its norm; such a row has no
    value here. *)
Definition rescale_look_vec (v : vec3) : option vec3 :=
  if Req_dec_T (c2 v) 0 then None else Some (vdiv v (c2 v / _zref)).

Fixpoint rescale_rows (vs : list vec3) : option (list vec3) :=
  match vs with
  | [] => Some []
  | v :: t =>
      match rescale_look_vec v, rescale_rows t with
      | Some v', Some t' => Some (v' :: t')
      | _, _ => None
      end
  end.

(** Lines 36-40. With [raytrace] the correction is [None]; otherwise it
    is [1/cosd(look_vecs)], elementwise on whatever array was passed (the
    [Zenith] class itself is not a number). *)
Inductive correction_t : Type :=
| CorrNone
| CorrScalars (c : list R)
| CorrVecs (c : list vec3).

Definition correction_of (look_vecs : los_t) (raytrace : bool)
  : result correction_t :=
  if raytrace then Ok CorrNone
  else match look_vecs with
       | LosAngles a => Ok (CorrScalars (map (fun x => 1 / cosd x) a))
       | LosVecs v =>
           Ok (CorrVecs (map (fun x => V3 (1 / cosd (c0 x)) (1 / cosd (c1 x))
                                          (1 / cosd (c2 x))) v))
       | Zenith => Raise TypeError
       end.

(** Lines 41-48: the look vectors that are integrated. An array of
    scalars passed together with [raytrace] has no third column to divide
    by; that call is outside the documented inputs ("if raytrace, then
    it's vectors, otherwise scalars") and is given the error of the
    failed indexing. A row divided by 0 has a norm that is not a number;
    its entry of [steps] is the cast of that to [int64], a negative
    count, and [np.linspace] (line 63) raises [ValueError] for it. No
    statement in between raises for such an array, so the call is given
    that error here. *)
Definition look_vecs_of (pts : list point) (look_vecs : los_t) (raytrace : bool)
  : result (list vec3) :=
  if raytrace then
    match look_vecs with
    | Zenith => Ok (map zenith_look_vec pts)
    | LosVecs v =>
        match rescale_rows v with
        | Some lv => Ok lv
        | None => Raise ValueError
        end
    | LosAngles _ => Raise IndexError
    end
  else Ok (map zenith_look_vec pts).

(** [look_vecs /= ...] divides in place: after a call that went through,
    the caller's array holds the rescaled vectors [lv]. The other
    branches rebind the local name and leave the argument as it was. *)
Definition look_vecs_after (look_vecs : los_t) (raytrace : bool)
    (lv : list vec3) : los_t :=
  if raytrace then
    match look_vecs with
    | LosVecs _ => LosVecs lv
    | other => other
    end
  else look_vecs.

(** Lines 50-56. *)
Definition lengths_of (lv : list vec3) : list R := map norm lv.

Definition steps_of (lengths : list R) : list Z :=
  map (fun l => Np.ceil (l / _step)) lengths.

Definition indices_of (steps : list Z) : result (list Z) :=
  Np.set0 0%Z (Np.roll1 (Np.cumsum steps)).

(** Lines 58-69: one iteration of the sampling loop. *)
Definition thisspace (length : R) (step : Z) : result (list R) :=
  Np.linspace 0 length step.

Definition position (start : vec3) (scaled : vec3) (ts : list R) : list vec3 :=
  map (fun t => vadd start (vscale t scaled)) ts.

Fixpoint t_points_l (lengths : list R) (steps : list Z)
  : result (list (list R)) :=
  match lengths, steps with
  | l :: ls, s :: ss =>
      ts <- thisspace l s ;;
      rest <- t_points_l ls ss ;;
      Ok (ts :: rest)
  | _, _ => Ok []
  end.

Definition start_position (p : point) : vec3 :=
  let '(lat, lon, h) := p in lla2ecef lat lon h.

Fixpoint positions_l (pts : list point) (lv : list vec3) (tps : list (list R))
  : list (list vec3) :=
  match pts, lv, tps with
  | p :: pts', v :: lv', ts :: tps' =>
      position (start_position p) (vdiv v (norm v)) ts
        :: positions_l pts' lv' tps'
  | _, _, _ => []
  end.

(** Lines 75-81: the integration loop, ray by ray. *)
Fixpoint integrate (wet_delays : list R) (indices steps : list Z)
    (tps : list (list R)) : list R :=
  match indices, steps, tps with
  | start :: is', length :: ss', t_points :: tps' =>
      (1e-6 * Np.trapz (Np.slice start length wet_delays) t_points)
        :: integrate wet_delays is' ss' tps'
  | _, _, _ => []
  end.

(** Lines 84-85: [delays *= correction], in place on the length-N array
    [delays]; an N x 3 correction cannot be broadcast into it. *)
Definition apply_correction (correction : correction_t) (delays : list R)
  : result (list R) :=
  match correction with
  | CorrNone => Ok delays
  | CorrScalars c =>
      if Nat.eqb (length c) (length delays) || Nat.eqb (length c) 1
      then Ok (match c with
               | [k] => map (fun d => d * k) delays
               | _ => Np.map2 Rmult delays c
               end)
      else Raise ValueError
  | CorrVecs _ => Raise ValueError
  end.

(** The samples of every ray, as the loop of lines 62-69 leaves them
    (the arrays have one row per point, as [delay_from_grid] builds
    them). *)
Definition samples (pts : list point) (look_vecs : los_t) (raytrace : bool)
  : result (list (list R)) :=
  lv <- look_vecs_of pts look_vecs raytrace ;;
  t_points_l (lengths_of lv) (steps_of (lengths_of lv)).

(** [_common_delay]: the delays, and the [look_vecs] array as the call
    leaves it in memory. *)
Definition _common_delay (delay : list vec3 -> list R) (pts : list point)
    (look_vecs : los_t) (raytrace : bool) : result (list R * los_t) :=
  correction <- correction_of look_vecs raytrace ;;
  lv <- look_vecs_of pts look_vecs raytrace ;;
  let lengths := lengths_of lv in
  let steps := steps_of lengths in
  indices <- indices_of steps ;;
  tps <- t_points_l lengths steps ;;
  let positions_a := concat (positions_l pts lv tps) in
  let wet_delays := delay positions_a in
  let delays := integrate wet_delays indices steps tps in
  delays' <- apply_correction correction delays ;;
  Ok (delays', look_vecs_after look_vecs raytrace lv).

(** The weather object, as far as this file uses it: its two
    interpolators. *)
Record weather_t : Type := Weather {
  weather_wet_delay : list vec3 -> list R;
  weather_hydrostatic_delay : list vec3 -> list R
}.

Definition wet_delay (weather : weather_t) (pts : list point)
    (look_vecs : los_t) (raytrace : bool) : result (list R * los_t) :=
  _common_delay (weather_wet_delay weather) pts look_vecs raytrace.

Definition hydrostatic_delay (weather : weather_t) (pts : list point)
    (look_vecs : los_t) (raytrace : bool) : result (list R * los_t) :=
  _common_delay (weather_hydrostatic_delay weather) pts look_vecs raytrace.

End CommonDelay.

(** *** [_parmap]: a queue of jobs drained by a pool of threads

    A thread repeats: pop a job, run [f] on it, store the answer in the
    job's slot. [f] may read and write memory shared by all jobs (the
    store [S]); running [f] on one job is taken as one atomic step. An
    exception that escapes [f] ends the thread that ran it and leaves the
    slot at [None]. The interleaving is a parameter: [sched] names the
    thread that moves next; once [sched] is used up every thread still
    alive is run to its end, so that [join] returns. *)

Section Parmap.

Context {J A S : Type}.
Variable f : J -> S -> result (A * S).

Inductive thread : Type :=
| Idle
| Holding (i : nat) (elem : J)
| Finished.

Record pool : Type := Pool {
  q : list (nat * J);
  answers : list (option A);
  store : S;
  threads : list thread
}.

(** One move of thread [w]: [q.get_nowait()], or [answers[i] = f(elem)]. *)
Definition step (w : nat) (p : pool) : pool :=
  match nth_error (threads p) w with
  | Some Idle =>
      match q p with
      | [] => Pool [] (answers p) (store p) (Np.set_nth w Finished (threads p))
      | (i, elem) :: rest =>
          Pool rest (answers p) (store p) (Np.set_nth w (Holding i elem) (threads p))
      end
  | Some (Holding i elem) =>
      match f elem (store p) with
      | Ok (a, st) =>
          Pool (q p) (Np.set_nth i (Some a) (answers p)) st
               (Np.set_nth w Idle (threads p))
      | Raise _ =>
          Pool (q p) (answers p) (store p) (Np.set_nth w Finished (threads p))
      end
  | _ => p
  end.

Definition run (sched : list nat) (p : pool) : pool :=
  fold_left (fun p w => step w p) sched p.

Fixpoint run_thread (fuel : nat) (w : nat) (p : pool) : pool :=
  match fuel with
  | O => p
  | Datatypes.S fuel' => run_thread fuel' w (step w p)
  end.

(** [thread.join()] for every thread, in order. *)
Definition join_all (p : pool) : pool :=
  fold_left (fun p w => run_thread (2 * length (q p) + 2) w p)
            (seq 0 (length (threads p))) p.

(** Lines 116-121: [enumerate] pulls the jobs out of the generator one
    by one; a job whose construction raises stops the call there. *)
Fixpoint enumerate_from (idx : nat) (i : list (result J))
  : result (list (nat * J)) :=
  match i with
  | [] => Ok []
  | x :: t =>
      j <- x ;;
      rest <- enumerate_from (Datatypes.S idx) t ;;
      Ok ((idx, j) :: rest)
  end.

Definition _parmap (cpu_count : nat) (sched : list nat) (i : list (result J))
    (st : S) : result (list (option A) * S) :=
  jobs <- enumerate_from 0 i ;;
  let p := Pool jobs (map (fun _ => None) jobs) st (repeat Idle cpu_count) in
  let p' := join_all (run sched p) in
  Ok (answers p', store p').

(** The queue as [_parmap] fills it from a list of jobs. *)
Definition enumerated (jobs : list J) : list (nat * J) :=
  combine (seq 0 (length jobs)) jobs.

(** What a job leaves in its slot when it runs against the store [st]. *)
Definition outcome (st : S) (x : J) : option A :=
  match f x st with
  | Ok (a, _) => Some a
  | Raise _ => None
  end.

(** Jobs that hand the store back as they found it. *)
Definition keeps_store (st : S) (jobs : list J) : Prop :=
  forall x a st', In x jobs -> f x st = Ok (a, st') -> st' = st.

(** The number of jobs popped so far. *)
Definition taken (jobs : list J) (p : pool) : nat :=
  length jobs - length (q p).

(** What holds of a pool at every moment of a run: the store is the
    initial one, the queue is what is left of the job list, a thread
    holds a job it popped, and a filled slot holds the outcome of the job
    with that index. *)
Record pool_inv (jobs : list J) (st : S) (n_threads : nat) (p : pool)
  : Prop := PoolInv {
  inv_store : store p = st;
  inv_answers : length (answers p) = length jobs;
  inv_threads : length (threads p) = n_threads;
  inv_slot : forall i a,
      nth_error (answers p) i = Some (Some a) ->
      exists x, nth_error jobs i = Some x /\ outcome st x = Some a;
  inv_queue : (length (q p) <= length jobs)%nat /\
              q p = skipn (taken jobs p) (enumerated jobs);
  inv_holding : forall w i x,
      nth_error (threads p) w = Some (Holding i x) ->
      (i < taken jobs p)%nat /\ nth_error jobs i = Some x
}.

(** When no job raises: an empty slot belongs to a job still queued or
    held by a thread, and a thread has finished only if the queue is
    empty. *)
Record pool_live (jobs : list J) (p : pool) : Prop := PoolLive {
  live_pending : forall i,
      (i < length jobs)%nat ->
      nth_error (answers p) i = Some None ->
      (taken jobs p <= i)%nat \/
      exists w x, nth_error (threads p) w = Some (Holding i x);
  live_finished : forall w,
      nth_error (threads p) w = Some Finished -> q p = []
}.

(** Steps thread [w] still has to make, at most. *)
Definition weight (w : nat) (p : pool) : nat :=
  match nth_error (threads p) w with
  | Some Idle => 2 * length (q p) + 1
  | Some (Holding _ _) => 2 * length (q p) + 2
  | _ => 0
  end.

End Parmap.

(** *** [delay_from_grid] *)

Section DelayFromGrid.

Variable _zref : R.
Variables cosd sind : R -> R.
Variable lla2ecef : R -> R -> R -> vec3.

(** The cast of [np.linspace(..., dtype=int)]: truncation towards zero. *)
Definition astype_int (x : R) : Z :=
  if Rle_dec 0 x then (up x - 1)%Z else Np.ceil x.

Definition linspace_int (stop : nat) (num : nat) : list Z :=
  map astype_int (Np.linspace_nat 0 (INR stop) num).

(** [a[start:end]] for non-negative [start] and [end]. *)
Definition slice2 {X : Type} (start stop : Z) (l : list X) : list X :=
  firstn (Z.to_nat stop - Z.to_nat start) (skipn (Z.to_nat start) l).

(** Writing through the view [a[start:end]]. *)
Definition write_slice {X : Type} (start : Z) (v : list X) (l : list X)
  : list X :=
  firstn (Z.to_nat start) l ++ v ++ skipn (Z.to_nat start + length v) l.

Definition los_slice (los : los_t) (start stop : Z) : los_t :=
  match los with
  | Zenith => Zenith
  | LosVecs v => LosVecs (slice2 start stop v)
  | LosAngles a => LosAngles (slice2 start stop a)
  end.

Definition los_write (los : los_t) (start : Z) (my_los : los_t) : los_t :=
  match los, my_los with
  | LosVecs v, LosVecs v' => LosVecs (write_slice start v' v)
  | LosAngles a, LosAngles a' => LosAngles (write_slice start a' a)
  | _, _ => los
  end.

Definition job : Type := (String.string * Z * Z)%type.

(** [hindices[i]] *)
Definition index (l : list Z) (i : nat) : result Z :=
  match nth_error l i with
  | Some x => Ok x
  | None => Raise IndexError
  end.

(** Lines 176-180. Both generators read [hindices]. *)
Definition hjobs (hindices : list Z) (hydro_procs : nat) : list (result job) :=
  map (fun i => a <- index hindices i ;;
                b <- index hindices (i + 1) ;;
                Ok ("hydro"%string, a, b))
      (seq 0 hydro_procs).

Definition wjobs (hindices : list Z) (wet_procs : nat) : list (result job) :=
  map (fun i => a <- index hindices i ;;
                b <- index hindices (i + 1) ;;
                Ok ("wet"%string, a, b))
      (seq 0 wet_procs).

(** Lines 183-196: the worker. [los] is the shared array; [my_los] is a
    view of it, so what [_common_delay] does to [my_los] lands in [los]. *)
Definition go (weather : weather_t) (llas : list point) (raytrace : bool)
    (j : job) (los : los_t) : result (list R * los_t) :=
  let '(job_type, start, stop) := j in
  let my_los := los_slice los start stop in
  if String.eqb job_type "hydro" then
    r <- hydrostatic_delay _zref cosd sind lla2ecef weather
           (slice2 start stop llas) my_los raytrace ;;
    Ok (fst r, los_write los start (snd r))
  else if String.eqb job_type "wet" then
    r <- wet_delay _zref cosd sind lla2ecef weather
           (slice2 start stop llas) my_los raytrace ;;
    Ok (fst r, los_write los start (snd r))
  else Raise ValueError.

(** [np.concatenate] of the answers: it needs at least one array and no
    [None]. *)
Fixpoint concatenate (l : list (option (list R))) : result (list R) :=
  match l with
  | [] => Ok []
  | None :: _ => Raise ValueError
  | Some a :: t => rest <- concatenate t ;; Ok (a ++ rest)
  end.

Definition np_concatenate (l : list (option (list R))) : result (list R) :=
  match l with
  | [] => Raise ValueError
  | _ => concatenate l
  end.

(** [np.stack((hydro, wet)).reshape((2,) + real_shape)]: the two arrays
    must have the same length, and that length must be the number of
    points. *)
Definition stack (n : nat) (hydro wet : list R) : result (list R * list R) :=
  if Nat.eqb (length hydro) (length wet) && Nat.eqb (length hydro) n
  then Ok (hydro, wet)
  else Raise ValueError.

(** [delay_from_grid(weather, llas, los, parallel, raytrace)] on an
    already flat [llas]; [cpu_count] is [os.cpu_count()] and [sched] the
    interleaving of the threads. *)
Definition delay_from_grid (cpu_count : nat) (sched : list nat)
    (weather : weather_t) (llas : list point) (los : los_t)
    (parallel raytrace : bool) : result (list R * list R) :=
  if parallel then
    let num_procs := cpu_count in
    let hydro_procs := Nat.div num_procs 2 in
    let wet_procs := (num_procs - hydro_procs)%nat in
    let hindices := linspace_int (length llas) (hydro_procs + 1) in
    let jobs := hjobs hindices hydro_procs ++ wjobs hindices wet_procs in
    r <- _parmap (go weather llas raytrace) cpu_count sched jobs los ;;
    let result := fst r in
    hydro <- np_concatenate (firstn hydro_procs result) ;;
    wet <- np_concatenate (skipn hydro_procs result) ;;
    stack (length llas) hydro wet
  else
    h <- hydrostatic_delay _zref cosd sind lla2ecef weather llas los raytrace ;;
    w <- wet_delay _zref cosd sind lla2ecef weather llas (snd h) raytrace ;;
    stack (length llas) (fst h) (fst w).

End DelayFromGrid.

End Delay.

(** ** models/weatherModel.py *)

Module WeatherModel.

Local Open Scope R_scope.

Definition array3 : Type := list (list (list R)).

Definition map3 (f : R -> R) (a : array3) : array3 := map (map (map f)) a.

Definition zip3 (f : R -> R -> R) (a b : array3) : array3 :=
  Np.map2 (Np.map2 (Np.map2 f)) a b.

Definition Rltb (x y : R) : bool := if Rlt_dec x y then true else false.

(** *** [find_svp]

    One element of the array; the masks [ix_bound1] and [ix_bound2] are
    the two tests. The final cast to [float32] is the identity on reals. *)
Definition find_svp_at (t : R) : R :=
  let t1 := 273.15 in
  let t2 := 250.15 in
  let tref := t - t1 in
  let wgt := (t - t2) / (t1 - t2) in
  let svpw := 6.1121 * exp ((17.502 * tref) / (240.97 + tref)) in
  let svpi := 6.1121 * exp ((22.587 * tref) / (273.86 + tref)) in
  let svp := svpi + (svpw - svpi) * wgt ^ 2 in
  let svp := if Rltb t1 t then svpw else svp in
  let svp := if Rltb t t2 then svpi else svp in
  svp * 100.

Definition find_svp (t : array3) : array3 := map3 find_svp_at t.

(** The two formulas as the specification words them: the water-phase
    Buck-type value and the ice-phase value, in Pa. *)
Definition svp_water (T : R) : R :=
  100 * 6.1121 * exp (17.502 * (T - 273.15) / (240.97 + (T - 273.15))).

Definition svp_ice (T : R) : R :=
  100 * 6.1121 * exp (22.587 * (T - 273.15) / (273.86 + (T - 273.15))).

(** The weight of the water phase between the two reference temperatures. *)
Definition svp_weight (T : R) : R := (T - 250.15) / (273.15 - 250.15).

(** The column [a[i, j, :]]. *)
Definition col_at (a : array3) (i j : nat) : option (list R) :=
  match nth_error a i with
  | Some row => nth_error row j
  | None => None
  end.

(** The trapezoidal integral as the specification words it: over the
    stored levels [z], the sum of the trapezoids between consecutive
    levels, from level [k] up to the last stored level. *)
Fixpoint trapezoid_sum (f z : list R) (k n : nat) : R :=
  match n with
  | O => 0
  | S n' =>
      (nth (S k) z 0 - nth k z 0) * (nth k f 0 + nth (S k) f 0) / 2
      + trapezoid_sum f z (S k) n'
  end.

Definition integral_from (f z : list R) (k : nat) : R :=
  trapezoid_sum f z k (List.length z - 1 - k).

(** [a[i, j, k]] *)
Definition at3 (a : array3) (i j k : nat) : option R :=
  match nth_error a i with
  | Some row =>
      match nth_error row j with
      | Some col => nth_error col k
      | None => None
      end
  | None => None
  end.

(** *** The model object *)

Inductive bound : Type :=
| Date (t : Z)
| Present
| NoBound.

Record grid : Type := Grid {
  _zs : list R;
  _lats : option array3;
  _lons : option array3;
  _p : array3;
  _t : array3;
  _e : array3;
  _q : array3;
  _rh : array3;
  _wet_refractivity : array3;
  _hydrostatic_refractivity : array3;
  _wet_ztd : array3;
  _hydrostatic_ztd : array3
}.

Definition extent : Type := (R * R * R * R)%type.

(** A raw weather file that [self.files] names: its path, and what
    [rasterio] reads from it as the bounds of its first subdataset (or
    the exception of the failed read). *)
Definition raw_file : Type := (string * result extent)%type.

Record weather_model : Type := WM {
  _Name : string;
  _humidityType : string;
  _k1 : R;
  _k2 : R;
  _k3 : R;
  _R_v : R;
  _R_d : R;
  _zmax : R;
  _lat_res : R;
  _lon_res : R;
  _valid_range : list bound;
  _lag_time : Z;
  _time : option Z;
  _bbox : option extent;
  _out_name : option string;
  _ll_bounds : option extent;
  files : option (list raw_file);
  data : grid
}.

(** What a method call can see and change: the object, the files on
    disk, and (for the statements below) the record of the calls made. *)
Inductive call : Type :=
| CallFetch
| CallLoadWeather
| CallFindE
| CallUniformInZ
| CallCheckForNans
| CallGetWetRefractivity
| CallGetHydroRefractivity
| CallAdjustGrid
| CallGetZTD
| CallWrite.

Record world : Type := World {
  self : weather_model;
  disk : list string;
  calls : list call
}.

Definition M (A : Type) : Type := world -> result A * world.

Definition ret {A : Type} (a : A) : M A := fun w => (Ok a, w).

Definition raise {A : Type} (e : exn) : M A := fun w => (Raise e, w).

Definition bindM {A B : Type} (m : M A) (k : A -> M B) : M B :=
  fun w => match m w with
           | (Ok a, w') => k a w'
           | (Raise e, w') => (Raise e, w')
           end.

Notation "x <~ m ;; k" := (bindM m (fun x => k))
  (at level 61, m at next level, right associativity).

Definition lift {A : Type} (r : result A) : M A := fun w => (r, w).

Definition get_self : M weather_model := fun w => (Ok (self w), w).

Definition put_self (m : weather_model) : M unit :=
  fun w => (Ok tt, World m (disk w) (calls w)).

Definition record (c : call) : M unit :=
  fun w => (Ok tt, World (self w) (disk w) (calls w ++ [c])).

Definition set_time (time : Z) (m : weather_model) : weather_model :=
  WM (_Name m) (_humidityType m) (_k1 m) (_k2 m) (_k3 m) (_R_v m) (_R_d m)
     (_zmax m) (_lat_res m) (_lon_res m) (_valid_range m) (_lag_time m)
     (Some time) (_bbox m) (_out_name m) (_ll_bounds m) (files m) (data m).



Definition set_data (g : grid) (m : weather_model) : weather_model :=
  WM (_Name m) (_humidityType m) (_k1 m) (_k2 m) (_k3 m) (_R_v m) (_R_d m)
     (_zmax m) (_lat_res m) (_lon_res m) (_valid_range m) (_lag_time m)
     (_time m) (_bbox m) (_out_name m) (_ll_bounds m) (files m) g.

Definition set_bbox (b : extent) (m : weather_model) : weather_model :=
  WM (_Name m) (_humidityType m) (_k1 m) (_k2 m) (_k3 m) (_R_v m) (_R_d m)
     (_zmax m) (_lat_res m) (_lon_res m) (_valid_range m) (_lag_time m)
     (_time m) (Some b) (_out_name m) (_ll_bounds m) (files m) (data m).

Definition modify_data (f : grid -> result grid) : M unit :=
  m <~ get_self ;;
  g <~ lift (f (data m)) ;;
  put_self (set_data g m).

(** A computation that leaves the disk and the record of calls alone,
    and one that adds exactly the call [c] to the record. *)
Definition frames {A : Type} (m : M A) : Prop :=
  forall w, disk (snd (m w)) = disk w /\ calls (snd (m w)) = calls w.





(** *** [checkTime], [checkLL], [fetch] *)

Definition index {X : Type} (l : list X) (i : nat) : result X :=
  match nth_error l i with
  | Some x => Ok x
  | None => Raise IndexError
  end.

(** [now] is [datetime.datetime.utcnow()]. The [logger.info] call reads
    both ends of [_valid_range] before any test is made. *)
Definition checkTime (now : Z) (time : Z) : M unit :=
  m <~ get_self ;;
  lo <~ lift (index (_valid_range m) 0) ;;
  hi <~ lift (index (_valid_range m) 1) ;;
  _ <~ match lo with
       | Date l => if (time <? l)%Z then raise RuntimeError else ret tt
       | _ => raise TypeError
       end ;;
  _ <~ match hi with
       | NoBound => ret tt
       | Present => ret tt
       | Date h => if (h <? time)%Z then raise RuntimeError else ret tt
       end ;;
  if (time >? now - _lag_time m)%Z then raise RuntimeError else ret tt.

Definition clip (lo hi : R) (x : R) : R :=
  let x := if Rltb x lo then lo else x in
  if Rltb hi x then hi else x.

Definition checkLL (lats lons : list R) (Nextra : R) : M (list R * list R) :=
  m <~ get_self ;;
  let ex_buffer_lon_max :=
    if String.eqb (_Name m) "GMAO"%string || String.eqb (_Name m) "MERRA2"%string
    then _lon_res m else 0 in
  let ex_buffer_lat_min := 0 in
  let ex_buffer_lat_max := 0 in
  let ex_buffer_lon_min := 0 in
  ret (map (clip (-90 + Nextra * _lat_res m + ex_buffer_lat_min)
                 (90 - Nextra * _lat_res m - ex_buffer_lat_max)) lats,
       map (clip (-180 + Nextra * _lon_res m + ex_buffer_lon_min)
                 (180 - Nextra * _lon_res m - ex_buffer_lon_max)) lons).

Section Methods.

(** The abstract methods [_fetch] and [load_weather], and the helpers of
    other modules ([interpolate_along_axis] in [_uniform_in_z], [fillna3D]
    in [_checkForNans], [util.padLower] and the extent trimming in
    [_adjust_grid]) are taken as given; [strftime] is the formatting of a
    time with ["%Y_%m_%d_T%H_%M_%S"]. *)
Variable _fetch_body :
  list R -> list R -> Z -> string -> weather_model -> list string ->
  result (weather_model * list string).
Variable load_weather_body : weather_model -> list string -> result weather_model.
Variable _uniform_in_z_body : option (list R) -> grid -> result grid.
Variable _checkForNans_body : grid -> result grid.
Variable _adjust_grid_body :
  option (list R) -> option (list R) -> grid -> result grid.
Variable strftime : Z -> string.

Definition _fetch (lats lons : list R) (time : Z) (out : string) : M unit :=
  _ <~ record CallFetch ;;
  fun w => match _fetch_body lats lons time out (self w) (disk w) with
           | Ok (m, d) => (Ok tt, World m d (calls w))
           | Raise e => (Raise e, w)
           end.

Definition fetch (now : Z) (out : string) (lats lons : list R) (time : Z)
  : M unit :=
  _ <~ checkTime now time ;;
  ll <~ checkLL lats lons 2 ;;
  m <~ get_self ;;
  _ <~ put_self (set_time time m) ;;
  _fetch (fst ll) (snd ll) time out.

(** *** The preparation stages *)


Definition _find_e_from_q (m : weather_model) (g : grid) : grid :=
  let svp := find_svp (_t g) in
  let w := zip3 (fun q one_minus_q => q / one_minus_q) (_q g)
                (map3 (fun q => 1 - q) (_q g)) in
  let e := zip3 (fun w ps => w * _R_v m * ps / _R_d m) w
                (zip3 Rminus (_p g) svp) in
  Grid (_zs g) (_lats g) (_lons g) (_p g) (_t g) e (_q g) (_rh g)
       (_wet_refractivity g) (_hydrostatic_refractivity g)
       (_wet_ztd g) (_hydrostatic_ztd g).

Definition _find_e_from_rh (g : grid) : grid :=
  let svp := find_svp (_t g) in
  let e := zip3 (fun rh svp => rh / 100 * svp) (_rh g) svp in
  Grid (_zs g) (_lats g) (_lons g) (_p g) (_t g) e (_q g) (_rh g)
       (_wet_refractivity g) (_hydrostatic_refractivity g)
       (_wet_ztd g) (_hydrostatic_ztd g).

Definition clear_humidity (g : grid) : grid :=
  Grid (_zs g) (_lats g) (_lons g) (_p g) (_t g) (_e g) [] []
       (_wet_refractivity g) (_hydrostatic_refractivity g)
       (_wet_ztd g) (_hydrostatic_ztd g).

Definition _find_e : M unit :=
  _ <~ record CallFindE ;;
  m <~ get_self ;;
  _ <~ (if String.eqb (_humidityType m) "rh"%string then
          modify_data (fun g => Ok (_find_e_from_rh g))
        else if String.eqb (_humidityType m) "q"%string then
          modify_data (fun g => Ok (_find_e_from_q m g))
        else raise RuntimeError) ;;
  modify_data (fun g => Ok (clear_humidity g)).



Definition _get_wet_refractivity : M unit :=
  _ <~ record CallGetWetRefractivity ;;
  m <~ get_self ;;
  modify_data (fun g =>
    Ok (Grid (_zs g) (_lats g) (_lons g) (_p g) (_t g) (_e g) (_q g) (_rh g)
             (zip3 (fun e t => _k2 m * e / t + _k3 m * e / t ^ 2) (_e g) (_t g))
             (_hydrostatic_refractivity g) (_wet_ztd g) (_hydrostatic_ztd g))).

Definition _get_hydro_refractivity : M unit :=
  _ <~ record CallGetHydroRefractivity ;;
  m <~ get_self ;;
  modify_data (fun g =>
    Ok (Grid (_zs g) (_lats g) (_lons g) (_p g) (_t g) (_e g) (_q g) (_rh g)
             (_wet_refractivity g)
             (zip3 (fun p t => _k1 m * p / t) (_p g) (_t g))
             (_wet_ztd g) (_hydrostatic_ztd g))).


(** *** [_getZTD] *)

(** [a.shape[2]] of a rectangular array. *)
Definition shape2 (a : array3) : nat :=
  match a with
  | (col :: _) :: _ => List.length col
  | _ => O
  end.

Definition zeros (a : array3) : array3 := map3 (fun _ => 0) a.

(** [1e-6 * np.trapz(a[..., level:], x=zs[level:], axis=2)] *)
Definition trapz_from (level : nat) (a : array3) (zs : list R)
  : list (list R) :=
  map (map (fun col => 1e-6 * Np.trapz (skipn level col) (skipn level zs))) a.

(** [total[..., level] = v] *)
Definition set_level (level : nat) (v : list (list R)) (total : array3)
  : array3 :=
  Np.map2 (Np.map2 (fun col x => Np.set_nth level x col)) total v.

(** One iteration of the loop over [level]. *)
Definition ztd_level (wet hydro : array3) (zs : list R)
    (totals : array3 * array3) (level : nat) : array3 * array3 :=
  (set_level level (trapz_from level wet zs) (fst totals),
   set_level level (trapz_from level hydro zs) (snd totals)).

Definition ztd_totals (wet hydro : array3) (zs : list R) : array3 * array3 :=
  fold_left (ztd_level wet hydro zs) (seq 0 (shape2 wet))
            (zeros wet, zeros hydro).

Definition _getZTD (zref : option R) : M unit :=
  _ <~ record CallGetZTD ;;
  m <~ get_self ;;
  let zref := match zref with None => _zmax m | Some z => z end in
  modify_data (fun g =>
    match _lats g with
    | None => Raise AttributeError
    | Some _ =>
        let wet := _wet_refractivity g in
        let hydro := _hydrostatic_refractivity g in
        let totals := ztd_totals wet hydro (_zs g) in
        Ok (Grid (_zs g) (_lats g) (_lons g) (_p g) (_t g) (_e g) (_q g)
                 (_rh g) wet hydro (fst totals) (snd totals))
    end).

(** *** [out_file] and [load] *)

Definition nanmin (l : list R) : result R :=
  match l with
  | [] => Raise ValueError
  | x :: t => Ok (fold_left Rmin t x)
  end.

Definition nanmax (l : list R) : result R :=
  match l with
  | [] => Raise ValueError
  | x :: t => Ok (fold_left Rmax t x)
  end.

Definition flatten (a : array3) : list R := concat (concat a).

(** The value of [self.bbox]: the cached [_bbox], or else the bounds
    read from [self.files[0]]. *)
Definition bbox (m : weather_model) : result extent :=
  match _bbox m with
  | Some b => Ok b
  | None =>
      match files m with
      | None => Raise ValueError
      | Some [] => Raise IndexError
      | Some ((_, bounds) :: _) => bounds
      end
  end.

(** The object after [self.bbox]: bounds that were read are kept in
    [_bbox]. *)
Definition bbox_cached (m : weather_model) : weather_model :=
  match _bbox m, bbox m with
  | None, Ok b => set_bbox b m
  | _, _ => m
  end.

Definition ll_of (lats lons : list R) (Nextra : R) (m : weather_model)
  : result extent :=
  a <- nanmin lats ;;
  b <- nanmax lats ;;
  c <- nanmin lons ;;
  d <- nanmax lons ;;
  Ok (a - Nextra * _lat_res m, b + Nextra * _lat_res m,
      c - Nextra * _lon_res m, d + Nextra * _lon_res m).

(** With [lons] left at [None], the two extremes of [lats] are taken
    before [np.nanmin(lons)] fails. *)
Definition _get_ll_bounds (lats lons : option (list R)) (Nextra : R)
    (m : weather_model) : result extent :=
  match lats with
  | None =>
      match _lats (data m) with
      | None =>
          b <- bbox m ;;
          let '(lon_min, lat_min, lon_max, lat_max) := b in
          Ok (lat_min, lat_max, lon_min, lon_max)
      | Some l =>
          match _lons (data m) with
          | Some l' => ll_of (flatten l) (flatten l') Nextra m
          | None =>
              _ <- nanmin (flatten l) ;;
              _ <- nanmax (flatten l) ;;
              Raise TypeError
          end
      end
  | Some l =>
      match lons with
      | Some l' => ll_of l l' Nextra m
      | None =>
          _ <- nanmin l ;;
          _ <- nanmax l ;;
          Raise TypeError
      end
  end.

(** The object after [_get_ll_bounds(lats, ...)]: [self.bbox] is read
    only when neither [lats] nor [self._lats] is there. *)
Definition ll_bounds_cached (lats : option (list R)) (m : weather_model)
  : weather_model :=
  match lats, _lats (data m) with
  | None, None => bbox_cached m
  | _, _ => m
  end.

(** ['{:.0f}'] of [np.ceil(np.abs(x))] *)
Definition fmt_ceil_abs (x : R) : string :=
  DecimalString.NilZero.string_of_uint (N.to_uint (Z.to_N (Np.ceil (Rabs x)))).

Definition make_weather_model_filename (name : string) (time : Z)
    (ll_bounds : extent) : string :=
  let '(b0, b1, b2, b3) := ll_bounds in
  let S := (if Rltb b0 0 then "S" else "N")%string in
  let N := (if Rltb b1 0 then "S" else "N")%string in
  let W := (if Rltb b2 0 then "W" else "E")%string in
  let E := (if Rltb b3 0 then "W" else "E")%string in
  (name ++ "_" ++ strftime time ++ "_"
     ++ fmt_ceil_abs b0 ++ S ++ "_" ++ fmt_ceil_abs b1 ++ N ++ "_"
     ++ fmt_ceil_abs b2 ++ W ++ "_" ++ fmt_ceil_abs b3 ++ E ++ ".nc")%string.





End Methods.

(** *** A model object for concrete runs

    One column with two levels; times are seconds since the epoch. *)
Definition sample_grid : grid :=
  Grid [0; 1000] (Some [[[10; 10]]]) (Some [[[20; 20]]])
       [[[100000; 90000]]] [[[280; 270]]] [] [[[0.01; 0.005]]] []
       [] [] [] [].

Definition sample_model : weather_model :=
  WM "ERA-5" "q" 0.776 0.233 3750 461.524 287.06 15000 0.25 0.25
     [Date 0; Present] 2592000%Z (Some 1577836800%Z) None None None None
     sample_grid.

Definition sample_world : world := World sample_model [] [].

Definition sample_strftime (_ : Z) : string := "2020_01_01_T00_00_00".

(** The same object once the refractivities of its column are known. *)
Definition refractive_grid : grid :=
  Grid [0; 1000] (Some [[[10; 10]]]) (Some [[[20; 20]]])
       [[[100000; 90000]]] [[[280; 270]]] [[[900; 400]]] [] []
       [[[50; 20]]] [[[277; 258]]] [] [].

Definition refractive_world : world :=
  World (set_data refractive_grid sample_model) [] [].

End WeatherModel.

(** ** dem.py *)

Module Dem.

(** An extent is [[lower_lat, upper_lat, left_lon, right_lon]]. *)
Definition extent : Type := (Q * Q * Q * Q)%type.

Definition Qltb (x y : Q) : bool := negb (Qle_bool y x).

(** [np.any] and [np.all] of a list of four tests. *)
Definition np_any (l : list bool) : bool := existsb (fun b => b) l.

Definition np_all (l : list bool) : bool := forallb (fun b => b) l.

Definition isOutside (extent1 extent2 : extent) : bool :=
  let '(a0, a1, a2, a3) := extent1 in
  let '(b0, b1, b2, b3) := extent2 in
  let t1 := Qltb a0 b0 in
  let t2 := Qltb b1 a1 in
  let t3 := Qltb a2 b2 in
  let t4 := Qltb b3 a3 in
  if np_any [t1; t2; t3; t4] then true else false.

Definition isInside (extent1 extent2 : extent) : bool :=
  let '(a0, a1, a2, a3) := extent1 in
  let '(b0, b1, b2, b3) := extent2 in
  let t1 := Qle_bool a0 b0 in
  let t2 := Qle_bool b1 a1 in
  let t3 := Qle_bool a2 b2 in
  let t4 := Qle_bool b3 a3 in
  if np_all [t1; t2; t3; t4] then true else false.

End Dem.

(** ** Further embeddings *)

Module DelayMore.

Local Open Scope R_scope.

(** The samples of one ray of length [L], as line 66 builds them:
    [np.linspace(0, lengths[i], steps[i])] with
    [steps[i] = ceil(lengths[i] / _step)]. *)
Definition ray_ts (L : R) : list R :=
  Np.linspace_nat 0 L (Z.to_nat (Np.ceil (L / Delay._step))).

(** What holds of a pool at every moment of a run, whatever the jobs do
    to the shared store: there is one slot per job, a filled slot holds
    what the job with that index returned from some state of the store,
    the queue is what is left of the job list, and a thread holds a job
    it popped. *)
Record slots_inv {J A S : Type} (f : J -> S -> result (A * S))
    (jobs : list J) (p : @Delay.pool J A S) : Prop := SlotsInv {
  sl_answers : length (Delay.answers p) = length jobs;
  sl_slot : forall i a,
      nth_error (Delay.answers p) i = Some (Some a) ->
      exists x s s', nth_error jobs i = Some x /\ f x s = Ok (a, s');
  sl_queue : (length (Delay.q p) <= length jobs)%nat /\
             Delay.q p = skipn (Delay.taken jobs p) (Delay.enumerated jobs);
  sl_holding : forall w i x,
      nth_error (Delay.threads p) w = Some (Delay.Holding i x) ->
      (i < Delay.taken jobs p)%nat /\ nth_error jobs i = Some x
}.

End DelayMore.

Module WeatherModelMore.

Import WeatherModel.

Local Open Scope R_scope.

(** [WeatherModel._getExtent(lats, lons)] on flat arrays: the tests are
    on the sizes, in the order of the source; [lats - self._lat_res] of
    an array of size one is its only element minus the resolution. *)
Definition _getExtent (lats lons : list R) (m : weather_model)
  : result extent :=
  let size1 := List.length lats in
  let size2 := List.length lons in
  if Nat.eqb size1 1 && Nat.eqb size2 1 then
    Ok (hd 0 lats - _lat_res m, hd 0 lats + _lat_res m,
        hd 0 lons - _lon_res m, hd 0 lons + _lon_res m)
  else if Nat.ltb 1 size1 && Nat.ltb 1 size2 then
    a <- nanmin lats ;;
    b <- nanmax lats ;;
    c <- nanmin lons ;;
    d <- nanmax lons ;;
    Ok (a, b, c, d)
  else if Nat.eqb size1 1 then
    c <- nanmin lons ;;
    d <- nanmax lons ;;
    Ok (hd 0 lats - _lat_res m, hd 0 lats + _lat_res m, c, d)
  else if Nat.eqb size2 1 then
    a <- nanmin lats ;;
    b <- nanmax lats ;;
    Ok (a, b, hd 0 lons - _lon_res m, hd 0 lons + _lon_res m)
  else Raise RuntimeError.

(** The two fields [_getZTD] reads and the two it writes, by kind. *)
Definition refractivity_of (wet : bool) (g : grid) : array3 :=
  if wet then _wet_refractivity g else _hydrostatic_refractivity g.

Definition ztd_of (wet : bool) (g : grid) : array3 :=
  if wet then _wet_ztd g else _hydrostatic_ztd g.

(** A model object whose humidity is given in a form the class does not
    know. *)
Definition unknown_humidity_world : world :=
  World (WM "ERA-5" "sh" 0.776 0.233 3750 461.524 287.06 15000 0.25 0.25
            [Date 0; Present] 2592000%Z (Some 1577836800%Z) None None None
            None sample_grid) [] [].

(** Two bounds that the file name cannot tell apart: the same sign and
    absolute values in the same whole degree. *)
Definition same_cell (x y : R) : Prop :=
  (x < 0 <-> y < 0) /\
  exists n : Z, IZR n - 1 < Rabs x <= IZR n /\ IZR n - 1 < Rabs y <= IZR n.

(** The refractivities and the zenith delays as [load] computes them,
    one after the other. *)
Definition refract_and_integrate (zref : option R) (w : world) : world :=
  snd (_getZTD zref
         (snd (_get_hydro_refractivity (snd (_get_wet_refractivity w))))).

(** A column of three levels whose refractivities do not change with
    height. *)
Definition uniform_grid : grid :=
  Grid [0; 1000; 3000] (Some [[[10; 10; 10]]]) (Some [[[20; 20; 20]]])
       [[[100000; 90000; 70000]]] [[[280; 270; 260]]] [] [] []
       [[[30; 30; 30]]] [[[250; 250; 250]]] [] [].

Definition uniform_world : world :=
  World (set_data uniform_grid sample_model) [] [].

(** An object on which no weather data has been loaded yet. *)
Definition unloaded_grid : grid :=
  Grid [] None None [] [] [] [] [] [] [] [] [].

Definition unloaded_world : world :=
  World (set_data unloaded_grid sample_model) [] [].

End WeatherModelMore.

Module DemMore.

Local Open Scope Q_scope.

(** The errors of this module: those of [exn]; the [UnboundLocalError]
    of a statement that finds a local name unassigned; [OSError] and
    [KeyError], which [download_dem] handles. *)
Inductive error : Type :=
| Py (e : exn)
| UnboundLocalError
| OSError
| KeyError.

(** The [lats] and [lons] arguments: a one-dimensional array, a tuple or
    a list. *)
Inductive coords : Type :=
| Arr (l : list Q)
| Tup (l : list Q)
| Lst (l : list Q).

Definition values (c : coords) : list Q :=
  match c with Arr l => l | Tup l => l | Lst l => l end.

(** [min] and [max] of a sequence; [np.nanmin] and [np.nanmax] of an
    array. An empty sequence raises [ValueError]. *)
Definition minimum (l : list Q) : option Q :=
  match l with
  | [] => None
  | x :: t => Some (fold_left Qmin t x)
  end.

Definition maximum (l : list Q) : option Q :=
  match l with
  | [] => None
  | x :: t => Some (fold_left Qmax t x)
  end.

Definition box (a b c d : option Q) (fail : error) : Dem.extent + error :=
  match a, b, c, d with
  | Some a, Some b, Some c, Some d => inl (a, b, c, d)
  | _, _, _, _ => inr fail
  end.

(** [getBufferedExtent(lats, lons=None, buf=0.)]. The first statement
    subscripts [lats] with [(..., 0)] (an [IndexError] on an empty array,
    a [TypeError] on a tuple or a list) and then [lons] while it is
    [None] (a [TypeError]). Inside the [try], [.size] of a tuple or a
    list raises [AttributeError], handled by the tuple branch; any other
    exception becomes [RuntimeError]; when no branch assigns [out], the
    [return] raises [UnboundLocalError]. *)
Definition getBufferedExtent (lats : coords) (lons : option coords) (buf : Q)
  : Dem.extent + error :=
  match lons with
  | None =>
      match lats with
      | Arr [] => inr (Py IndexError)
      | _ => inr (Py TypeError)
      end
  | Some lons =>
      match lats with
      | Tup l =>
          if Nat.eqb (List.length l) 2 then
            box (option_map (fun x => x - buf) (minimum l))
                (option_map (fun x => x + buf) (maximum l))
                (option_map (fun x => x - buf) (minimum (values lons)))
                (option_map (fun x => x + buf) (maximum (values lons)))
                (Py ValueError)
          else inr UnboundLocalError
      | Lst _ => inr UnboundLocalError
      | Arr l =>
          match lons with
          | Tup _ | Lst _ => inr UnboundLocalError
          | Arr l' =>
              let size1 := List.length l in
              let size2 := List.length l' in
              if Nat.eqb size1 1 && Nat.eqb size2 1 then
                inl (hd 0 l - buf, hd 0 l + buf, hd 0 l' - buf, hd 0 l' + buf)
              else if Nat.ltb 1 size1 && Nat.ltb 1 size2 then
                box (minimum l) (maximum l) (minimum l') (maximum l')
                    (Py RuntimeError)
              else if Nat.eqb size1 1 then
                box (Some (hd 0 l - buf)) (Some (hd 0 l + buf))
                    (minimum l') (maximum l') (Py RuntimeError)
              else if Nat.eqb size2 1 then
                box (minimum l) (maximum l)
                    (Some (hd 0 l' - buf)) (Some (hd 0 l' + buf))
                    (Py RuntimeError)
              else inr UnboundLocalError
          end
      end
  end.

(** *** [getDEM] and [download_dem]

    The file system and the network are a state of type [W]; what the
    module imports are the variables of the section. Of the tuple that
    [readRaster] returns only [noDataVal] is used; [interpolateDEM] is
    taken together with the [np.stack] of its second argument. *)

Section DownloadDem.

Variables W ndarray nodata : Type.

Definition St (A : Type) : Type := W -> (A + error) * W.

Definition retS {A} (a : A) : St A := fun w => (inl a, w).

Definition failS {A} (e : error) : St A := fun w => (inr e, w).

Definition bindS {A B} (m : St A) (k : A -> St B) : St B :=
  fun w =>
    match m w with
    | (inl a, w') => k a w'
    | (inr e, w') => (inr e, w')
    end.

(** A call that reads the state without changing it. *)
Definition readS {A} (f : W -> A + error) : St A := fun w => (f w, w).

Definition liftS {A} (r : A + error) : St A := fun w => (r, w).

(** [try: m except ...: h e]; the handler re-raises what it does not
    handle. *)
Definition catchS {A} (m : St A) (h : error -> St A) : St A :=
  fun w =>
    match m w with
    | (inr e, w') => h e w'
    | r => r
    end.

Variable path_exists : string -> W -> bool.
Variable gdal_extents : string -> W -> coords + error.
Variable readRaster : string -> W -> nodata + error.
Variable gdal_open : string -> W -> ndarray + error.
Variable read_hgt_file : string -> W -> ndarray + error.
Variable download_stitched_dem :
  Q * Q * Q * Q -> string -> string -> nat -> St string.
Variable folder_of : string -> string.
Variable flip : ndarray -> ndarray.
Variable interpolateDEM :
  ndarray -> coords -> option coords -> Dem.extent -> ndarray + error.
Variable ndim : ndarray -> nat.
Variable makedirs : string -> St unit.
Variable writeArrayToRaster : ndarray -> string -> nodata -> St unit.
Variable writeArrayToFile :
  option coords -> coords -> ndarray -> string -> nodata -> St unit.
Variable merge_csv : string -> ndarray -> St unit.

(** [getDEM(extent, out_dir, dem_name='glo_30', num_threads=5)] *)
Definition getDEM (extent : Dem.extent) (out_dir : string) : St string :=
  let '(e0, e1, e2, e3) := extent in
  let bounds := (e2, e0, e3, e1) in
  download_stitched_dem bounds "glo_30"%string out_dir 5%nat.

(** What the first half of [download_dem] leaves: the raster of the
    existing file, the need to download, or the heights of a station
    file, which are returned at once. *)
Inductive found : Type :=
| Existing (out : ndarray) (noDataVal : nodata)
| Download
| Station (hgts : ndarray).

Definition use_existing (inExtent : Dem.extent) (outName : string) (buf : Q)
  : St found :=
  bindS (readS (gdal_extents outName)) (fun ext =>
  bindS (liftS (getBufferedExtent ext None buf)) (fun demExtent =>
  if Dem.isOutside inExtent demExtent then failS (Py ValueError)
  else
    bindS (readS (readRaster outName)) (fun noDataVal =>
    bindS (readS (gdal_open outName)) (fun out =>
    retS (Existing out noDataVal))))).

Definition check_existing (inExtent : Dem.extent) (outName : string)
    (buf : Q) : St found :=
  catchS (use_existing inExtent outName buf) (fun e =>
    match e with
    | Py AttributeError => retS Download
    | OSError =>
        catchS (bindS (readS (read_hgt_file outName)) (fun hgts =>
                retS (Station hgts)))
               (fun e' =>
                  match e' with
                  | KeyError => retS Download
                  | _ => failS e'
                  end)
    | _ => failS e
    end).

(** The statements from [out = out[::-1]] on; [folder] is assigned only
    when a download took place. *)
Definition finish (lats : coords) (lons : option coords)
    (save_flag outName : string) (inExtent : Dem.extent)
    (out : ndarray) (noDataVal : nodata) (folder : option string)
  : St ndarray :=
  let out := flip out in
  bindS (liftS (interpolateDEM out lats lons inExtent)) (fun outInterp =>
  bindS
    (if String.eqb save_flag "new" then
       match folder with
       | None => failS UnboundLocalError
       | Some folder =>
           bindS (makedirs folder) (fun _ =>
           if Nat.eqb (ndim outInterp) 2 then
             writeArrayToRaster outInterp outName noDataVal
           else if Nat.eqb (ndim outInterp) 1 then
             writeArrayToFile lons lats outInterp outName noDataVal
           else failS (Py RuntimeError))
       end
     else if String.eqb save_flag "merge" then merge_csv outName outInterp
     else retS tt)
    (fun _ => retS outInterp)).

(** [download_dem(lats, lons, save_flag, checkDEM, outName, buf)];
    [checkDEM] is not read. *)
Definition download_dem (lats : coords) (lons : option coords)
    (save_flag : string) (outName : string) (buf : Q) : St ndarray :=
  bindS (liftS (getBufferedExtent lats lons buf)) (fun inExtent =>
  bindS (fun w =>
           if path_exists outName w then
             check_existing inExtent outName buf w
           else retS Download w) (fun f =>
  match f with
  | Station hgts => retS hgts
  | Existing out noDataVal =>
      finish lats lons save_flag outName inExtent out noDataVal None
  | Download =>
      let folder := folder_of outName in
      bindS (getDEM inExtent folder) (fun full_res_dem =>
      bindS (readS (readRaster full_res_dem)) (fun noDataVal =>
      bindS (readS (gdal_open full_res_dem)) (fun out =>
      finish lats lons save_flag outName inExtent out noDataVal
             (Some folder))))
  end)).

End DownloadDem.

End DemMore.

(** * Properties *)

(** ** Rounding and sampling *)

Section NumpyFacts.

Local Open Scope R_scope.

Lemma ceil_spec (x : R) : IZR (Np.ceil x) - 1 < x <= IZR (Np.ceil x).
Proof.
  unfold Np.ceil.
  destruct (archimed (- x)) as [Hgt Hle].
  rewrite minus_IZR. lra.
Qed.

Lemma ceil_unique (x : R) (n : Z) : IZR n - 1 < x <= IZR n -> Np.ceil x = n.
Proof.
  intros [Hlo Hhi].
  destruct (ceil_spec x) as [Clo Chi].
  assert (H1 : (Np.ceil x < n + 1)%Z).
  { apply lt_IZR. rewrite plus_IZR. lra. }
  assert (H2 : (n < Np.ceil x + 1)%Z).
  { apply lt_IZR. rewrite plus_IZR. lra. }
  lia.
Qed.

Lemma ceil_0 : Np.ceil 0 = 0%Z.
Proof. apply ceil_unique. simpl. lra. Qed.

Lemma ceil_nonneg (x : R) : 0 <= x -> (0 <= Np.ceil x)%Z.
Proof.
  intros Hx. destruct (ceil_spec x) as [_ Chi].
  assert (H : (-1 < Np.ceil x)%Z) by (apply lt_IZR; lra).
  lia.
Qed.

Lemma ceil_gt_1 (x : R) : 1 < x -> (2 <= Np.ceil x)%Z.
Proof.
  intros Hx. destruct (ceil_spec x) as [_ Chi].
  assert (H : (1 < Np.ceil x)%Z) by (apply lt_IZR; lra).
  lia.
Qed.

Lemma linspace_nat_length (a b : R) (n : nat) :
  length (Np.linspace_nat a b n) = n.
Proof.
  destruct n as [|[|k]]; simpl; try reflexivity.
  rewrite length_app, length_map, length_seq. simpl. lia.
Qed.

End NumpyFacts.

Section SamplingFacts.

Local Open Scope R_scope.

Lemma linspace_nat_nth (a b : R) (k i : nat) :
  (i <= S k)%nat ->
  nth i (Np.linspace_nat a b (S (S k))) 0 = INR i * ((b - a) / INR (S k)) + a.
Proof.
  intros Hi. unfold Np.linspace_nat.
  destruct (Nat.eq_dec i (S k)) as [->|Hne].
  - rewrite app_nth2; rewrite length_map, length_seq; [|lia].
    rewrite Nat.sub_diag. cbn [nth].
    assert (INR (S k) <> 0) by (apply not_0_INR; lia).
    field. assumption.
  - rewrite app_nth1 by (rewrite length_map, length_seq; lia).
    set (g := fun i : nat => INR i * ((b - a) / INR (S k)) + a).
    rewrite nth_indep with (d' := g O)
      by (rewrite length_map, length_seq; lia).
    rewrite map_nth, seq_nth by lia. reflexivity.
Qed.

Lemma linspace_nat_last (a b : R) (k : nat) :
  last (Np.linspace_nat a b (S (S k))) 0 = b.
Proof. unfold Np.linspace_nat. apply last_last. Qed.

Lemma norm_nonneg (v : Delay.vec3) : 0 <= Delay.norm v.
Proof. apply sqrt_pos. Qed.

Lemma lengths_nonneg (lv : list Delay.vec3) :
  Forall (fun l => 0 <= l) (Delay.lengths_of lv).
Proof.
  unfold Delay.lengths_of. apply Forall_forall. intros l Hl.
  apply in_map_iff in Hl. destruct Hl as [v [<- _]]. apply norm_nonneg.
Qed.

(** The samples of one ray of length [L]. *)
Lemma thisspace_ok (L : R) :
  0 <= L ->
  Delay.thisspace L (Np.ceil (L / Delay._step))
  = Ok (Np.linspace_nat 0 L (Z.to_nat (Np.ceil (L / Delay._step)))).
Proof.
  intros HL. unfold Delay.thisspace, Np.linspace.
  assert (H : (0 <= Np.ceil (L / Delay._step))%Z).
  { apply ceil_nonneg. unfold Delay._step. lra. }
  destruct (Z.ltb_spec (Np.ceil (L / Delay._step)) 0); [lia | reflexivity].
Qed.

Lemma t_points_l_ok (lengths : list R) :
  Forall (fun l => 0 <= l) lengths ->
  Delay.t_points_l lengths (Delay.steps_of lengths)
  = Ok (map (fun L => Np.linspace_nat 0 L (Z.to_nat (Np.ceil (L / Delay._step))))
            lengths).
Proof.
  induction 1 as [|L ls HL _ IH]; [reflexivity|].
  cbn [Delay.steps_of map Delay.t_points_l].
  rewrite thisspace_ok by assumption. cbn [bind].
  unfold Delay.steps_of in IH. rewrite IH. reflexivity.
Qed.

Lemma samples_ok (zref : R) (cosd sind : R -> R) (pts : list Delay.point)
    (los : Delay.los_t) (raytrace : bool) (lv : list Delay.vec3) :
  Delay.look_vecs_of zref cosd sind pts los raytrace = Ok lv ->
  Delay.samples zref cosd sind pts los raytrace
  = Ok (map (fun L => Np.linspace_nat 0 L (Z.to_nat (Np.ceil (L / Delay._step))))
            (Delay.lengths_of lv)).
Proof.
  intros Hlv. unfold Delay.samples. rewrite Hlv. cbn [bind].
  apply t_points_l_ok, lengths_nonneg.
Qed.

End SamplingFacts.

(** ** Ray sampling in [_common_delay] *)

Section RayFacts.

Local Open Scope R_scope.

Variable zref : R.
Variables cosd sind : R -> R.
Variable lla2ecef : R -> R -> R -> Delay.vec3.

Lemma ceil_pos_of_pos (L : R) : 0 < L -> (1 <= Np.ceil (L / Delay._step))%Z.
Proof.
  intros HL. destruct (ceil_spec (L / Delay._step)) as [_ Chi].
  unfold Delay._step in *.
  assert (H : (0 < Np.ceil (L / 1))%Z) by (apply lt_IZR; lra).
  lia.
Qed.

Lemma ceil_one_of_short (L : R) :
  0 < L -> L <= Delay._step -> Np.ceil (L / Delay._step) = 1%Z.
Proof.
  unfold Delay._step. intros H0 H1. apply ceil_unique. simpl. lra.
Qed.

(** The sample at path coordinate 0 is the ray origin. *)
Lemma position_at_zero (start scaled : Delay.vec3) (t : R) (ts : list R) :
  t = 0 ->
  hd_error (Delay.position start scaled (t :: ts)) = Some start.
Proof.
  intros ->. cbn [Delay.position map hd_error]. f_equal.
  destruct start as [a b c]. unfold Delay.vadd, Delay.vscale.
  cbn [Delay.c0 Delay.c1 Delay.c2]. f_equal; ring.
Qed.

(** C3 (amended): a ray of positive length L gets ceil(L/step) samples,
    the first at path coordinate 0, consecutive samples L/(count-1)
    apart; when L exceeds the step the last sample is at L exactly, and
    when L is at most the step the single sample is the origin. The rays
    are those of a call whose look vectors exist: an explicit array with
    a row of third component 0 raises and has none. *)
Theorem samples_count_and_endpoints (pts : list Delay.point)
    (los : Delay.los_t) (raytrace : bool) (lv : list Delay.vec3)
    (i : nat) (L : R) :
  Delay.look_vecs_of zref cosd sind pts los raytrace = Ok lv ->
  nth_error (Delay.lengths_of lv) i = Some L ->
  0 < L ->
  exists tps ts,
    Delay.samples zref cosd sind pts los raytrace = Ok tps /\
    nth_error tps i = Some ts /\
    Z.of_nat (length ts) = Np.ceil (L / Delay._step) /\
    nth 0 ts 0 = 0 /\
    (forall k, (S k < length ts)%nat ->
               nth (S k) ts 0 - nth k ts 0 = L / INR (length ts - 1)) /\
    (Delay._step < L -> last ts 0 = L) /\
    (L <= Delay._step -> ts = [0]).
Proof.
  intros Hlv Hi HL.
  eexists. eexists. split; [apply (samples_ok _ _ _ _ _ _ _ Hlv)|].
  split; [apply map_nth_error, Hi|].
  pose proof (ceil_pos_of_pos L HL) as Hc.
  remember (Z.to_nat (Np.ceil (L / Delay._step))) as n eqn:En.
  assert (Hn : Z.of_nat n = Np.ceil (L / Delay._step)) by lia.
  split; [rewrite linspace_nat_length; exact Hn|].
  destruct n as [|[|k]]; [lia| |].
  - (* one sample *)
    split; [cbn; ring|].
    split; [cbn; intros k Hk; lia|].
    split.
    + intros Hs. exfalso.
      assert (2 <= Np.ceil (L / Delay._step))%Z.
      { apply ceil_gt_1. unfold Delay._step in *. lra. }
      lia.
    + intros _. cbn. f_equal. ring.
  - (* at least two samples *)
    split; [rewrite linspace_nat_nth by lia; cbn; lra|].
    split.
    + intros j Hj. rewrite linspace_nat_length in Hj |- *.
      rewrite !linspace_nat_nth by lia.
      replace (S (S k) - 1)%nat with (S k) by lia.
      rewrite (S_INR j). lra.
    + split; [intros _; apply linspace_nat_last|].
      intros Hs. exfalso.
      rewrite (ceil_one_of_short L HL Hs) in Hn. lia.
Qed.

End RayFacts.

(** ** Integration in [_common_delay] *)

Section IntegrationFacts.

Local Open Scope R_scope.

Lemma cumsum_from_length (acc : Z) (l : list Z) :
  length (Np.cumsum_from acc l) = length l.
Proof.
  revert acc. induction l as [|x t IH]; intros acc; [reflexivity|].
  cbn. now rewrite IH.
Qed.

Lemma roll1_length {A : Type} (l : list A) : length (Np.roll1 l) = length l.
Proof.
  unfold Np.roll1. rewrite <- (length_rev l).
  destruct (rev l) as [|x r]; [reflexivity|].
  cbn. now rewrite length_rev.
Qed.

Lemma indices_of_ok (steps : list Z) :
  steps <> [] ->
  exists indices,
    Delay.indices_of steps = Ok indices /\ length indices = length steps.
Proof.
  intros Hne. unfold Delay.indices_of.
  pose proof (roll1_length (Np.cumsum steps)) as Hlen.
  unfold Np.cumsum in *. rewrite cumsum_from_length in Hlen.
  destruct (Np.roll1 (Np.cumsum_from 0 steps)) as [|x t].
  - destruct steps; [congruence | discriminate].
  - eexists. split; [reflexivity | exact Hlen].
Qed.

Lemma indices_of_empty : Delay.indices_of [] = Raise IndexError.
Proof. reflexivity. Qed.

Lemma integrate_nth_error (wet : list R) (indices steps : list Z)
    (tps : list (list R)) (i : nat) (s n : Z) (ts : list R) :
  nth_error indices i = Some s ->
  nth_error steps i = Some n ->
  nth_error tps i = Some ts ->
  nth_error (Delay.integrate wet indices steps tps) i
  = Some (1e-6 * Np.trapz (Np.slice s n wet) ts).
Proof.
  revert indices steps tps.
  induction i as [|i IH]; intros [|a indices] [|b steps] [|c tps];
    cbn; try discriminate.
  - intros [= ->] [= ->] [= ->]. reflexivity.
  - apply IH.
Qed.

Lemma integrate_length (wet : list R) (indices steps : list Z)
    (tps : list (list R)) :
  length indices = length steps ->
  length tps = length steps ->
  length (Delay.integrate wet indices steps tps) = length steps.
Proof.
  revert indices tps.
  induction steps as [|b steps IH]; intros [|a indices] [|c tps];
    cbn; try discriminate; try reflexivity.
  intros [= H1] [= H2]. now rewrite IH.
Qed.

Lemma trapz_no_sample (y : list R) : Np.trapz y [] = 0.
Proof. reflexivity. Qed.

Lemma map2_nth_error {A B C : Type} (f : A -> B -> C) (a : list A)
    (b : list B) (i : nat) (x : A) (y : B) :
  nth_error a i = Some x ->
  nth_error b i = Some y ->
  nth_error (Np.map2 f a b) i = Some (f x y).
Proof.
  revert a b. induction i as [|i IH]; intros [|a0 a] [|b0 b];
    cbn; try discriminate.
  - intros [= ->] [= ->]. reflexivity.
  - apply IH.
Qed.

Lemma nth_error_in_range {A : Type} (l : list A) (i : nat) :
  (i < length l)%nat -> exists x, nth_error l i = Some x.
Proof.
  intros H. destruct (nth_error l i) eqn:E; [eauto|].
  apply nth_error_None in E. lia.
Qed.

(** A slot whose integral is 0 stays 0 under the cosine correction. *)
Lemma apply_correction_zero (c : Delay.correction_t) (delays r : list R)
    (i : nat) :
  Delay.apply_correction c delays = Ok r ->
  nth_error delays i = Some 0 ->
  nth_error r i = Some 0.
Proof.
  intros Hc Hi. destruct c as [|c|c]; cbn in Hc.
  - now inversion Hc; subst.
  - destruct (Nat.eqb (length c) (length delays) || Nat.eqb (length c) 1)
      eqn:E; [|discriminate].
    inversion Hc; subst; clear Hc.
    assert (Hmap : forall k,
              nth_error (map (fun d => d * k) delays) i = Some 0).
    { intros k. rewrite nth_error_map, Hi. cbn. f_equal. ring. }
    assert (Hzip : length c = length delays ->
              nth_error (Np.map2 Rmult delays c) i = Some 0).
    { intros Hl.
      destruct (nth_error_in_range c i) as [y Hy].
      { rewrite Hl. apply nth_error_Some. congruence. }
      rewrite (map2_nth_error _ _ _ _ _ _ Hi Hy). f_equal. ring. }
    destruct c as [|k [|k' c']]; [| apply Hmap |].
    + apply Hzip. apply orb_true_iff in E. destruct E as [E|E].
      * now apply Nat.eqb_eq in E.
      * discriminate.
    + apply Hzip. apply orb_true_iff in E. destruct E as [E|E].
      * now apply Nat.eqb_eq in E.
      * discriminate.
  - discriminate.
Qed.

End IntegrationFacts.

Section ZeroLengthRay.

Local Open Scope R_scope.

Variable zref : R.
Variables cosd sind : R -> R.
Variable lla2ecef : R -> R -> R -> Delay.vec3.

Lemma steps_of_nth_error (lengths : list R) (i : nat) (L : R) :
  nth_error lengths i = Some L ->
  nth_error (Delay.steps_of lengths) i = Some (Np.ceil (L / Delay._step)).
Proof.
  intros H. unfold Delay.steps_of.
  exact (map_nth_error (fun l => Np.ceil (l / Delay._step)) _ _ H).
Qed.

Lemma zero_ray_steps : Np.ceil (0 / Delay._step) = 0%Z.
Proof. unfold Delay._step. replace (0 / 1) with 0 by field. apply ceil_0. Qed.

(** The uncorrected delays of [_common_delay], slot by slot. *)
Lemma integrate_zero_ray (wet : list R) (lv : list Delay.vec3)
    (indices : list Z) (i : nat) :
  length indices = length (Delay.steps_of (Delay.lengths_of lv)) ->
  nth_error (Delay.lengths_of lv) i = Some 0 ->
  nth_error
    (Delay.integrate wet indices (Delay.steps_of (Delay.lengths_of lv))
       (map (fun L => Np.linspace_nat 0 L (Z.to_nat (Np.ceil (L / Delay._step))))
            (Delay.lengths_of lv))) i
  = Some 0.
Proof.
  intros Hlen Hi.
  destruct (nth_error_in_range indices i) as [s Hs].
  { rewrite Hlen. unfold Delay.steps_of. rewrite length_map.
    apply nth_error_Some. congruence. }
  rewrite (integrate_nth_error wet _ _ _ i s _ _ Hs
             (steps_of_nth_error _ _ _ Hi)
             (map_nth_error _ _ _ Hi)).
  rewrite zero_ray_steps. cbn [Z.to_nat Np.linspace_nat].
  rewrite trapz_no_sample. f_equal. ring.
Qed.

(** C6 (amended): a ray whose look vector has length 0 gets no sample at
    all (ceil(0/step) = 0), and the delay returned for it is 0; with
    [raytrace] the call does return whenever such a ray is present. The
    rays are those of a call whose look vectors exist: an explicit row
    with third component 0 is not a ray of length 0, it makes the call
    raise. *)
Theorem zero_length_ray_no_sample (pts : list Delay.point)
    (los : Delay.los_t) (raytrace : bool) (lv : list Delay.vec3) (i : nat) :
  Delay.look_vecs_of zref cosd sind pts los raytrace = Ok lv ->
  nth_error (Delay.lengths_of lv) i = Some 0 ->
  (exists tps,
     Delay.samples zref cosd sind pts los raytrace = Ok tps /\
     nth_error tps i = Some []) /\
  (forall delay r,
     Delay._common_delay zref cosd sind lla2ecef delay pts los raytrace = Ok r ->
     nth_error (fst r) i = Some 0) /\
  (raytrace = true ->
   forall delay, exists r,
     Delay._common_delay zref cosd sind lla2ecef delay pts los raytrace = Ok r).
Proof.
  intros Hlv Hi.
  assert (Hne : Delay.steps_of (Delay.lengths_of lv) <> []).
  { intros E. apply steps_of_nth_error in Hi. rewrite E in Hi.
    destruct i; discriminate. }
  destruct (indices_of_ok _ Hne) as [indices [Hind Hlen]].
  split; [|split].
  - eexists. split; [apply (samples_ok _ _ _ _ _ _ _ Hlv)|].
    rewrite (map_nth_error _ _ _ Hi). rewrite zero_ray_steps. reflexivity.
  - intros delay r. unfold Delay._common_delay.
    destruct (Delay.correction_of cosd los raytrace) as [c|e]; [|discriminate].
    cbn [bind]. rewrite Hlv. cbn [bind]. rewrite Hind. cbn [bind].
    rewrite (t_points_l_ok _ (lengths_nonneg lv)). cbn [bind].
    match goal with
    | |- context [Delay.apply_correction c ?d] =>
        destruct (Delay.apply_correction c d) as [d'|e] eqn:Hc
    end; [|discriminate].
    cbn [bind]. intros [= <-]. cbn [fst].
    apply (apply_correction_zero _ _ _ _ Hc).
    now apply integrate_zero_ray.
  - intros -> delay. unfold Delay._common_delay.
    cbn [Delay.correction_of bind]. rewrite Hlv. cbn [bind].
    rewrite Hind. cbn [bind].
    rewrite (t_points_l_ok _ (lengths_nonneg lv)). cbn [bind].
    cbn [Delay.apply_correction bind]. eexists. reflexivity.
Qed.

End ZeroLengthRay.

(** ** Concrete rays *)

Section ConcreteRays.

Local Open Scope R_scope.

Lemma cosd_0 : Util.cosd 0 = 1.
Proof.
  unfold Util.cosd. replace (0 * PI / 180) with 0 by field. apply cos_0.
Qed.

Lemma sind_0 : Util.sind 0 = 0.
Proof.
  unfold Util.sind. replace (0 * PI / 180) with 0 by field. apply sin_0.
Qed.

(** A zenith ray from the point (0, 0, h), h below the reference height,
    has length zref - h. *)
Lemma zenith_length_equator (h : R) :
  h <= Util.zref ->
  Delay.norm (Delay.zenith_look_vec Util.zref Util.cosd Util.sind (0, 0, h))
  = Util.zref - h.
Proof.
  intros Hh. unfold Delay.norm, Delay.zenith_look_vec, Delay.vscale.
  cbn [Delay.c0 Delay.c1 Delay.c2]. rewrite cosd_0, sind_0.
  replace ((Util.zref - h) * (1 * 1) * ((Util.zref - h) * (1 * 1))
           + (Util.zref - h) * (1 * 0) * ((Util.zref - h) * (1 * 0))
           + (Util.zref - h) * 0 * ((Util.zref - h) * 0))
    with ((Util.zref - h) * (Util.zref - h)) by ring.
  apply sqrt_square. lra.
Qed.

(** C3, witness: the zenith ray from height 14997 m has length 3 m. *)
Lemma samples_count_and_endpoints_witness :
  exists tps ts,
    Delay.samples Util.zref Util.cosd Util.sind [(0, 0, 14997)] Delay.Zenith true
    = Ok tps /\
    nth_error tps 0 = Some ts /\
    Z.of_nat (length ts) = Np.ceil (3 / Delay._step) /\
    nth 0 ts 0 = 0 /\
    (forall k, (S k < length ts)%nat ->
               nth (S k) ts 0 - nth k ts 0 = 3 / INR (length ts - 1)) /\
    (Delay._step < 3 -> last ts 0 = 3) /\
    (3 <= Delay._step -> ts = [0]).
Proof.
  apply (samples_count_and_endpoints Util.zref Util.cosd Util.sind
           [(0, 0, 14997)] Delay.Zenith true
           [Delay.zenith_look_vec Util.zref Util.cosd Util.sind (0, 0, 14997)]
           0 3).
  - reflexivity.
  - cbn [Delay.lengths_of map nth_error].
    rewrite zenith_length_equator by (unfold Util.zref; lra).
    f_equal. unfold Util.zref. lra.
  - lra.
Defined.

(** C3, counterexample: the zenith ray from height 14999.5 m has length
    0.5 m, its only sample is the origin, so the last sample is not at
    path coordinate 0.5. *)
Lemma short_ray_last_sample_at_origin :
  exists L ts,
    nth_error
      (Delay.lengths_of
         [Delay.zenith_look_vec Util.zref Util.cosd Util.sind (0, 0, 14999.5)])
      0 = Some L /\
    0 < L /\
    Delay.samples Util.zref Util.cosd Util.sind [(0, 0, 14999.5)]
      Delay.Zenith true = Ok [ts] /\
    last ts 0 <> L.
Proof.
  assert (HL : Delay.norm
                 (Delay.zenith_look_vec Util.zref Util.cosd Util.sind
                    (0, 0, 14999.5)) = 0.5).
  { rewrite zenith_length_equator by (unfold Util.zref; lra).
    unfold Util.zref. lra. }
  exists 0.5, [0 * (0.5 - 0) + 0].
  split; [cbn [Delay.lengths_of map nth_error]; now rewrite HL|].
  split; [lra|].
  split.
  - rewrite (samples_ok Util.zref Util.cosd Util.sind [(0, 0, 14999.5)]
               Delay.Zenith true _ eq_refl).
    cbn [Delay.lengths_of map]. rewrite HL.
    rewrite (ceil_one_of_short 0.5) by (unfold Delay._step; lra).
    reflexivity.
  - cbn [last]. lra.
Qed.

(** C6, witness: the zenith ray from a point at the reference height. *)
Lemma zero_length_ray_no_sample_witness :
  (exists tps,
     Delay.samples Util.zref Util.cosd Util.sind [(0, 0, 15000)] Delay.Zenith true
     = Ok tps /\
     nth_error tps 0 = Some []) /\
  (forall delay r,
     Delay._common_delay Util.zref Util.cosd Util.sind
       (fun _ _ _ => Delay.V3 0 0 0) delay [(0, 0, 15000)] Delay.Zenith true
     = Ok r ->
     nth_error (fst r) 0 = Some 0) /\
  (true = true ->
   forall delay, exists r,
     Delay._common_delay Util.zref Util.cosd Util.sind
       (fun _ _ _ => Delay.V3 0 0 0) delay [(0, 0, 15000)] Delay.Zenith true
     = Ok r).
Proof.
  apply (zero_length_ray_no_sample Util.zref Util.cosd Util.sind
           (fun _ _ _ => Delay.V3 0 0 0) [(0, 0, 15000)] Delay.Zenith true
           [Delay.zenith_look_vec Util.zref Util.cosd Util.sind (0, 0, 15000)]
           0).
  - reflexivity.
  - cbn [Delay.lengths_of map nth_error].
    rewrite zenith_length_equator by (unfold Util.zref; lra).
    f_equal. unfold Util.zref. lra.
Defined.

(** C6, counterexample: that ray has zero samples, not one. *)
Lemma zero_length_ray_has_zero_samples :
  Delay.lengths_of
    [Delay.zenith_look_vec Util.zref Util.cosd Util.sind (0, 0, 15000)] = [0] /\
  Delay.samples Util.zref Util.cosd Util.sind [(0, 0, 15000)] Delay.Zenith true
  = Ok [[]] /\
  length (@nil R) <> 1%nat.
Proof.
  assert (HL : Delay.norm
                 (Delay.zenith_look_vec Util.zref Util.cosd Util.sind
                    (0, 0, 15000)) = 0).
  { rewrite zenith_length_equator by (unfold Util.zref; lra).
    unfold Util.zref. lra. }
  split; [cbn [Delay.lengths_of map]; now rewrite HL|].
  split; [|discriminate].
  rewrite (samples_ok Util.zref Util.cosd Util.sind [(0, 0, 15000)]
             Delay.Zenith true _ eq_refl).
  cbn [Delay.lengths_of map]. rewrite HL, zero_ray_steps. reflexivity.
Qed.

End ConcreteRays.

(** ** Rescaling of explicit look vectors *)

Section Rescaling.

Local Open Scope R_scope.

Lemma rescale_defined (zref : R) (v : Delay.vec3) :
  Delay.c2 v <> 0 ->
  Delay.rescale_look_vec zref v
  = Some (Delay.vdiv v (Delay.c2 v / zref)).
Proof.
  intros Hv. unfold Delay.rescale_look_vec.
  destruct (Req_dec_T (Delay.c2 v) 0); [contradiction | reflexivity].
Qed.

(** A row with third component 0 has no finite rescaling, and an array
    holding one makes the ray-traced call raise. *)
Lemma rescale_undefined (zref : R) (v : Delay.vec3) :
  Delay.c2 v = 0 -> Delay.rescale_look_vec zref v = None.
Proof.
  intros Hv. unfold Delay.rescale_look_vec.
  destruct (Req_dec_T (Delay.c2 v) 0); [reflexivity | contradiction].
Qed.

Lemma rescale_rows_none (zref : R) (vs : list Delay.vec3) :
  Exists (fun v => Delay.c2 v = 0) vs -> Delay.rescale_rows zref vs = None.
Proof.
  induction 1 as [v t Hv | v t _ IH]; cbn [Delay.rescale_rows].
  - now rewrite rescale_undefined.
  - rewrite IH. now destruct (Delay.rescale_look_vec zref v).
Qed.

Lemma rescale_rows_some (zref : R) (vs : list Delay.vec3) :
  Forall (fun v => Delay.c2 v <> 0) vs ->
  Delay.rescale_rows zref vs
  = Some (map (fun v => Delay.vdiv v (Delay.c2 v / zref)) vs).
Proof.
  induction 1 as [|v t Hv _ IH]; [reflexivity|].
  cbn [Delay.rescale_rows map]. now rewrite rescale_defined, IH.
Qed.

Lemma rescale_rows_inv (zref : R) (vs lv : list Delay.vec3) :
  Delay.rescale_rows zref vs = Some lv ->
  Forall (fun v => Delay.c2 v <> 0) vs /\
  lv = map (fun v => Delay.vdiv v (Delay.c2 v / zref)) vs.
Proof.
  revert lv. induction vs as [|v t IH]; intros lv H; cbn in H.
  - injection H as <-. split; [constructor | reflexivity].
  - unfold Delay.rescale_look_vec in H.
    destruct (Req_dec_T (Delay.c2 v) 0) as [E|E]; [discriminate|].
    destruct (Delay.rescale_rows zref t) as [t'|]; [|discriminate].
    injection H as <-. destruct (IH t' eq_refl) as [Ht ->].
    split; [now constructor | reflexivity].
Qed.

Lemma zero_component_raises (zref : R) (cosd sind : R -> R)
    (lla2ecef : R -> R -> R -> Delay.vec3)
    (delay : list Delay.vec3 -> list R) (pts : list Delay.point)
    (vs : list Delay.vec3) :
  Exists (fun v => Delay.c2 v = 0) vs ->
  Delay._common_delay zref cosd sind lla2ecef delay pts (Delay.LosVecs vs)
    true = Raise ValueError.
Proof.
  intros H. unfold Delay._common_delay.
  cbn [Delay.correction_of Delay.look_vecs_of bind].
  now rewrite (rescale_rows_none zref vs H).
Qed.

(** The rescaling is uniform: every component is multiplied by the same
    factor zref / v_z. *)
Lemma rescale_uniform (zref : R) (v : Delay.vec3) :
  Delay.c2 v <> 0 -> zref <> 0 ->
  Delay.rescale_look_vec zref v = Some (Delay.vscale (zref / Delay.c2 v) v).
Proof.
  intros Hv Hz. rewrite rescale_defined by assumption.
  unfold Delay.vdiv, Delay.vscale.
  f_equal. f_equal; field; split; assumption.
Qed.

(** Its third component is the reference height, whatever the height of
    the point the ray starts from. *)
Lemma rescale_third_component (zref : R) (v : Delay.vec3) :
  Delay.c2 v <> 0 -> zref <> 0 ->
  exists v', Delay.rescale_look_vec zref v = Some v' /\ Delay.c2 v' = zref.
Proof.
  intros Hv Hz. eexists. split; [now apply rescale_defined|].
  unfold Delay.vdiv. cbn [Delay.c2]. field. split; assumption.
Qed.

(** C2 (the code at the failing input): for the point at height 1000 m
    and the look vector (0, 0, 1), with the reference height at 15000 m,
    the rescaled vector has third component 15000, not 15000 - 1000. *)
Theorem rescale_ignores_point_height (cosd sind : R -> R) :
  exists v',
    Delay.look_vecs_of Util.zref cosd sind [(0, 0, 1000)]
      (Delay.LosVecs [Delay.V3 0 0 1]) true = Ok [v'] /\
    Delay.c2 v' = 15000 /\
    Delay.c2 v' <> Util.zref - 1000.
Proof.
  destruct (rescale_third_component Util.zref (Delay.V3 0 0 1))
    as [v' [Hv' H]]; [cbn [Delay.c2]; lra | unfold Util.zref; lra |].
  exists v'. split.
  - cbn [Delay.look_vecs_of Delay.rescale_rows]. now rewrite Hv'.
  - rewrite H. unfold Util.zref. split; lra.
Qed.

End Rescaling.

(** ** Extents in dem.py *)

Section Extents.

Lemma Qltb_irrefl (x : Q) : Dem.Qltb x x = false.
Proof.
  unfold Dem.Qltb. apply negb_false_iff. apply Qle_bool_iff. apply Qle_refl.
Qed.

Lemma Qle_bool_refl (x : Q) : Qle_bool x x = true.
Proof. apply Qle_bool_iff. apply Qle_refl. Qed.

(** C10: an extent compared with itself is not outside and is inside. *)
Theorem equal_extents_are_inside (e : Dem.extent) :
  Dem.isOutside e e = false /\ Dem.isInside e e = true.
Proof.
  destruct e as [[[a0 a1] a2] a3].
  unfold Dem.isOutside, Dem.isInside, Dem.np_any, Dem.np_all.
  cbn [existsb forallb].
  rewrite !Qltb_irrefl, !Qle_bool_refl. split; reflexivity.
Qed.

End Extents.

(** ** [WeatherModel.fetch] *)

Section FetchFacts.

Import WeatherModel.

Variable _fetch_body :
  list R -> list R -> Z -> string -> weather_model -> list string ->
  result (weather_model * list string).

Lemma checkTime_state (now time : Z) (w : world) :
  snd (checkTime now time w) = w.
Proof.
  unfold checkTime, bindM, get_self, lift, ret, raise, index.
  destruct (nth_error (_valid_range (self w)) 0) as [lo|]; [|reflexivity].
  destruct (nth_error (_valid_range (self w)) 1) as [hi|]; [|reflexivity].
  destruct lo as [l| |]; try reflexivity.
  destruct (time <? l)%Z; [reflexivity|].
  destruct hi as [h| |];
    try destruct (h <? time)%Z;
    try destruct (time >? now - _lag_time (self w))%Z; reflexivity.
Qed.

Lemma checkTime_rejects (now time : Z) (w : world) :
  (exists l, nth_error (_valid_range (self w)) 0 = Some (Date l)
             /\ (time < l)%Z)
  \/ (exists h, nth_error (_valid_range (self w)) 1 = Some (Date h)
                /\ (h < time)%Z)
  \/ (now - _lag_time (self w) < time)%Z ->
  exists e,
    fst (checkTime now time w) = Raise e /\
    (forall l hi rest,
        _valid_range (self w) = Date l :: hi :: rest -> e = RuntimeError).
Proof.
  intros H.
  unfold checkTime, bindM, get_self, lift, ret, raise, index.
  destruct (_valid_range (self w)) as [|lo [|hi rest]] eqn:Evr.
  - exists IndexError. split; [reflexivity | discriminate].
  - exists IndexError. split; [reflexivity | discriminate].
  - cbn [nth_error] in *.
    destruct lo as [l| |].
    + destruct (Z.ltb_spec time l) as [Hlt|Hge].
      { exists RuntimeError. split; [reflexivity | reflexivity]. }
      destruct hi as [h| |].
      * destruct (Z.ltb_spec h time) as [Hlt2|Hge2].
        { exists RuntimeError. split; reflexivity. }
        destruct (Z.gtb_spec time (now - _lag_time (self w))) as [Hgt|Hle].
        { exists RuntimeError. split; reflexivity. }
        exfalso. destruct H as [[l' [[= <-] Hl]]|[[h' [[= <-] Hh]]|Hn]]; lia.
      * destruct (Z.gtb_spec time (now - _lag_time (self w))) as [Hgt|Hle].
        { exists RuntimeError. split; reflexivity. }
        exfalso. destruct H as [[l' [[= <-] Hl]]|[[h' [[=] Hh]]|Hn]]; lia.
      * destruct (Z.gtb_spec time (now - _lag_time (self w))) as [Hgt|Hle].
        { exists RuntimeError. split; reflexivity. }
        exfalso. destruct H as [[l' [[= <-] Hl]]|[[h' [[=] Hh]]|Hn]]; lia.
    + exists TypeError. split; [reflexivity | discriminate].
    + exists TypeError. split; [reflexivity | discriminate].
Qed.

(** C9: a query time before the valid range, after a dated upper end of
    it, or inside the lag window makes [fetch] raise, and the world is as
    it was: [_fetch] has not been called (and [_time] not even set). With
    a well-formed range the error is the [RuntimeError] of [checkTime]. *)
Theorem fetch_rejects_before_fetching (now : Z) (out : string)
    (lats lons : list R) (time : Z) (w : world) :
  (exists l, nth_error (_valid_range (self w)) 0 = Some (Date l)
             /\ (time < l)%Z)
  \/ (exists h, nth_error (_valid_range (self w)) 1 = Some (Date h)
                /\ (h < time)%Z)
  \/ (now - _lag_time (self w) < time)%Z ->
  exists e,
    fetch _fetch_body now out lats lons time w = (Raise e, w) /\
    ~ In CallFetch (skipn (length (calls w))
                          (calls (snd (fetch _fetch_body now out lats lons time w)))) /\
    (forall l hi rest,
        _valid_range (self w) = Date l :: hi :: rest -> e = RuntimeError).
Proof.
  intros H. destruct (checkTime_rejects now time w H) as [e [He Hrt]].
  exists e.
  assert (Hf : fetch _fetch_body now out lats lons time w = (Raise e, w)).
  { unfold fetch. unfold bindM at 1.
    pose proof (checkTime_state now time w) as Hs.
    destruct (checkTime now time w) as [r w']. cbn [fst snd] in *.
    subst. reflexivity. }
  split; [exact Hf|]. split; [|exact Hrt].
  rewrite Hf. cbn [snd]. rewrite skipn_all. intros [].
Qed.

(** For contrast: a time inside the range and outside the lag window
    reaches [_fetch]. *)
Lemma fetch_in_range_calls_fetch (now : Z) (out : string)
    (lats lons : list R) (time : Z) (w : world) (l : Z) (rest : list bound) :
  _valid_range (self w) = Date l :: Present :: rest ->
  (l <= time)%Z ->
  (time <= now - _lag_time (self w))%Z ->
  calls (snd (fetch _fetch_body now out lats lons time w))
  = calls w ++ [CallFetch].
Proof.
  intros Hvr Hl Hn.
  unfold fetch, checkTime, bindM, get_self, lift, ret, raise, index.
  rewrite Hvr. cbn [nth_error].
  destruct (Z.ltb_spec time l); [lia|].
  destruct (Z.gtb_spec time (now - _lag_time (self w))); [lia|].
  unfold checkLL, bindM, get_self, ret, put_self, _fetch, record, bindM.
  cbn [fst snd self disk calls].
  match goal with
  | |- context [_fetch_body ?a ?b ?c ?d ?e ?f] =>
      destruct (_fetch_body a b c d e f) as [[m d']|err]
  end; reflexivity.
Qed.

End FetchFacts.

(** C9, witness: a query at time -1 against a range that starts at 0. *)
Lemma fetch_rejects_before_fetching_witness :
  exists e,
    WeatherModel.fetch (fun _ _ _ _ m d => Ok (m, d)) 1600000000 "out"
      [10%R] [20%R] (-1) WeatherModel.sample_world
    = (Raise e, WeatherModel.sample_world) /\
    ~ In WeatherModel.CallFetch
         (skipn (length (WeatherModel.calls WeatherModel.sample_world))
            (WeatherModel.calls
               (snd (WeatherModel.fetch (fun _ _ _ _ m d => Ok (m, d))
                       1600000000 "out" [10%R] [20%R] (-1)
                       WeatherModel.sample_world)))) /\
    (forall l hi rest,
        WeatherModel._valid_range
          (WeatherModel.self WeatherModel.sample_world)
        = WeatherModel.Date l :: hi :: rest ->
        e = RuntimeError).
Proof.
  apply (fetch_rejects_before_fetching (fun _ _ _ _ m d => Ok (m, d))
           1600000000 "out" [10%R] [20%R] (-1) WeatherModel.sample_world).
  left. exists 0%Z. split; [reflexivity | lia].
Defined.

(** ** [WeatherModel.load] *)

Section LoadFacts.

Import WeatherModel.

Variable load_weather_body : weather_model -> list string -> result weather_model.
Variable _uniform_in_z_body : option (list R) -> grid -> result grid.
Variable _checkForNans_body : grid -> result grid.
Variable _adjust_grid_body :
  option (list R) -> option (list R) -> grid -> result grid.
Variable strftime : Z -> string.

Lemma frames_bind {A B : Type} (m : M A) (k : A -> M B) :
  frames m -> (forall a, frames (k a)) -> frames (bindM m k).
Proof.
  intros Hm Hk w. unfold bindM. specialize (Hm w).
  destruct (m w) as [[a|e] w']; cbn [snd] in *.
  - destruct (Hk a w') as [H1 H2]. destruct Hm as [H3 H4].
    rewrite H1, H2, H3, H4. split; reflexivity.
  - exact Hm.
Qed.

Lemma frames_ret {A : Type} (a : A) : frames (ret a).
Proof. intros w. split; reflexivity. Qed.

Lemma frames_raise {A : Type} (e : exn) : frames (@raise A e).
Proof. intros w. split; reflexivity. Qed.

Lemma frames_lift {A : Type} (r : result A) : frames (lift r).
Proof. intros w. split; reflexivity. Qed.

Lemma frames_get_self : frames get_self.
Proof. intros w. split; reflexivity. Qed.

Lemma frames_put_self (m : weather_model) : frames (put_self m).
Proof. intros w. split; reflexivity. Qed.

Lemma frames_modify_data (f : grid -> result grid) : frames (modify_data f).
Proof.
  unfold modify_data.
  apply frames_bind; [apply frames_get_self|]. intros m.
  apply frames_bind; [apply frames_lift|]. intros g.
  apply frames_put_self.
Qed.


Create HintDb frames.

#[local] Hint Resolve frames_ret frames_raise frames_lift frames_get_self
  frames_put_self frames_modify_data : frames.










(** The cache key: the file name depends on the bounds only through
    their signs and the ceilings of their absolute values. *)
Lemma filename_of_rounded_bounds (name : string) (time : Z)
    (b0 b1 b2 b3 b0' b1' b2' b3' : R) :
  Np.ceil (Rabs b0) = Np.ceil (Rabs b0') -> Rltb b0 0 = Rltb b0' 0 ->
  Np.ceil (Rabs b1) = Np.ceil (Rabs b1') -> Rltb b1 0 = Rltb b1' 0 ->
  Np.ceil (Rabs b2) = Np.ceil (Rabs b2') -> Rltb b2 0 = Rltb b2' 0 ->
  Np.ceil (Rabs b3) = Np.ceil (Rabs b3') -> Rltb b3 0 = Rltb b3' 0 ->
  make_weather_model_filename strftime name time (b0, b1, b2, b3)
  = make_weather_model_filename strftime name time (b0', b1', b2', b3').
Proof.
  intros C0 S0 C1 S1 C2 S2 C3 S3.
  unfold make_weather_model_filename, fmt_ceil_abs.
  now rewrite C0, S0, C1, S1, C2, S2, C3, S3.
Qed.













End LoadFacts.

Section LoadRun.

Import WeatherModel.

Local Open Scope R_scope.



End LoadRun.

(** ** Saturation vapour pressure *)

Section SvpFacts.

Import WeatherModel.

Local Open Scope R_scope.

Lemma Rltb_true (x y : R) : x < y -> Rltb x y = true.
Proof. intros H. unfold Rltb. destruct (Rlt_dec x y); [reflexivity | lra]. Qed.

Lemma Rltb_false (x y : R) : y <= x -> Rltb x y = false.
Proof. intros H. unfold Rltb. destruct (Rlt_dec x y); [lra | reflexivity]. Qed.

Lemma find_svp_above (T : R) : 273.15 < T -> find_svp_at T = svp_water T.
Proof.
  intros H. unfold find_svp_at, svp_water.
  rewrite (Rltb_true 273.15 T) by lra.
  rewrite (Rltb_false T 250.15) by lra. ring.
Qed.

Lemma find_svp_below (T : R) : T < 250.15 -> find_svp_at T = svp_ice T.
Proof.
  intros H. unfold find_svp_at, svp_ice.
  rewrite (Rltb_true T 250.15) by lra. ring.
Qed.

(** In the band, ends included, the weight enters squared. *)
Lemma find_svp_band (T : R) :
  250.15 <= T <= 273.15 ->
  find_svp_at T
  = svp_ice T + (svp_water T - svp_ice T) * svp_weight T ^ 2.
Proof.
  intros H. unfold find_svp_at, svp_water, svp_ice, svp_weight.
  rewrite (Rltb_false 273.15 T) by lra.
  rewrite (Rltb_false T 250.15) by lra. ring.
Qed.

Lemma svp_phases_meet : svp_water 273.15 = svp_ice 273.15.
Proof.
  unfold svp_water, svp_ice.
  replace (17.502 * (273.15 - 273.15) / (240.97 + (273.15 - 273.15)))
    with 0 by lra.
  replace (22.587 * (273.15 - 273.15) / (273.86 + (273.15 - 273.15)))
    with 0 by lra.
  reflexivity.
Qed.

Lemma find_svp_at_t1 : find_svp_at 273.15 = svp_water 273.15.
Proof.
  rewrite find_svp_band by lra. unfold svp_weight.
  replace ((273.15 - 250.15) / (273.15 - 250.15)) with 1 by lra. ring.
Qed.

Lemma find_svp_at_t2 : find_svp_at 250.15 = svp_ice 250.15.
Proof.
  rewrite find_svp_band by lra. unfold svp_weight.
  replace ((250.15 - 250.15) / (273.15 - 250.15)) with 0 by lra. ring.
Qed.

(** C5 (amended): strictly between 250.15 K and 273.15 K the result is
    svpi + (svpw - svpi) * w^2 with w = (T - 250.15)/(273.15 - 250.15):
    the weight enters squared, not to the first power. *)
Theorem find_svp_quadratic_blend (T : R) :
  250.15 < T -> T < 273.15 ->
  find_svp_at T
  = svp_ice T + (svp_water T - svp_ice T) * svp_weight T ^ 2.
Proof. intros H1 H2. apply find_svp_band. lra. Qed.

(** C5, witness: T = 260 K. *)
Lemma find_svp_quadratic_blend_witness :
  find_svp_at 260
  = svp_ice 260 + (svp_water 260 - svp_ice 260) * svp_weight 260 ^ 2.
Proof. apply (find_svp_quadratic_blend 260); lra. Defined.

Lemma svp_phases_differ_mid : svp_ice 261.65 < svp_water 261.65.
Proof.
  unfold svp_ice, svp_water.
  apply Rmult_lt_compat_l; [lra|].
  apply exp_increasing. lra.
Qed.

(** C5, counterexample: at the middle of the band, T = 261.65 K, the
    weight is 1/2 and the result is not the linear blend. *)
Lemma find_svp_not_linear_blend :
  250.15 < 261.65 < 273.15 /\
  find_svp_at 261.65
  <> svp_ice 261.65
     + (svp_water 261.65 - svp_ice 261.65) * svp_weight 261.65.
Proof.
  split; [lra|].
  rewrite find_svp_band by lra.
  pose proof svp_phases_differ_mid as Hd.
  unfold svp_weight.
  replace ((261.65 - 250.15) / (273.15 - 250.15)) with (1 / 2) by lra.
  lra.
Qed.

End SvpFacts.

Section SvpContinuity.

Import WeatherModel.

Local Open Scope R_scope.

(** A function that agrees, near [x], with one or the other of two
    functions continuous at [x] and equal there, is continuous at [x]. *)
Lemma glue_continuity (f g h : R -> R) (x d : R) :
  0 < d ->
  (forall y, Rabs (y - x) < d -> f y = g y \/ f y = h y) ->
  g x = f x -> h x = f x ->
  continuity_pt g x -> continuity_pt h x -> continuity_pt f x.
Proof.
  intros Hd Hloc Hg Hh Cg Ch eps Heps.
  destruct (Cg eps Heps) as [a1 [Ha1 H1]].
  destruct (Ch eps Heps) as [a2 [Ha2 H2]].
  exists (Rmin d (Rmin a1 a2)). split.
  { apply Rmin_pos; [exact Hd | apply Rmin_pos; assumption]. }
  intros y [HD Hdist]. cbn in Hdist, H1, H2 |- *. unfold R_dist in *.
  assert (Hyd : Rabs (y - x) < d).
  { eapply Rlt_le_trans; [exact Hdist | apply Rmin_l]. }
  assert (Hy1 : Rabs (y - x) < a1).
  { eapply Rlt_le_trans; [exact Hdist|].
    eapply Rle_trans; [apply Rmin_r | apply Rmin_l]. }
  assert (Hy2 : Rabs (y - x) < a2).
  { eapply Rlt_le_trans; [exact Hdist|].
    eapply Rle_trans; [apply Rmin_r | apply Rmin_r]. }
  destruct (Hloc y Hyd) as [E|E]; rewrite E.
  - rewrite <- Hg. apply H1. split; assumption.
  - rewrite <- Hh. apply H2. split; assumption.
Qed.

Lemma svp_water_continuous (T : R) : 32.18 < T -> continuity_pt svp_water T.
Proof. intros H. unfold svp_water. reg. lra. Qed.

Lemma svp_ice_continuous (T : R) : 0 < T -> continuity_pt svp_ice T.
Proof. intros H. unfold svp_ice. reg. lra. Qed.

Lemma svp_blend_continuous (T : R) :
  32.18 < T ->
  continuity_pt
    (fun T => svp_ice T + (svp_water T - svp_ice T) * svp_weight T ^ 2) T.
Proof.
  intros H. unfold svp_ice, svp_water, svp_weight. reg; lra.
Qed.

Lemma find_svp_continuous_t1 : continuity_pt find_svp_at 273.15.
Proof.
  apply (glue_continuity find_svp_at
           (fun T => svp_ice T + (svp_water T - svp_ice T) * svp_weight T ^ 2)
           svp_water 273.15 23).
  - lra.
  - intros y Hy. apply Rabs_def2 in Hy.
    destruct (Rle_or_lt y 273.15).
    + left. apply find_svp_band. lra.
    + right. now apply find_svp_above.
  - symmetry. apply find_svp_band. lra.
  - symmetry. apply find_svp_at_t1.
  - apply svp_blend_continuous. lra.
  - apply svp_water_continuous. lra.
Qed.

Lemma find_svp_continuous_t2 : continuity_pt find_svp_at 250.15.
Proof.
  apply (glue_continuity find_svp_at
           (fun T => svp_ice T + (svp_water T - svp_ice T) * svp_weight T ^ 2)
           svp_ice 250.15 23).
  - lra.
  - intros y Hy. apply Rabs_def2 in Hy.
    destruct (Rle_or_lt 250.15 y).
    + left. apply find_svp_band. lra.
    + right. now apply find_svp_below.
  - symmetry. apply find_svp_band. lra.
  - symmetry. apply find_svp_at_t2.
  - apply svp_blend_continuous. lra.
  - apply svp_ice_continuous. lra.
Qed.

Lemma at3_map3 (f : R -> R) (a : array3) (i j k : nat) :
  at3 (map3 f a) i j k = option_map f (at3 a i j k).
Proof.
  unfold at3, map3. rewrite nth_error_map.
  destruct (nth_error a i) as [row|]; [|reflexivity]. cbn [option_map].
  rewrite nth_error_map.
  destruct (nth_error row j) as [col|]; [|reflexivity]. cbn [option_map].
  apply nth_error_map.
Qed.

(** C4: [find_svp] is continuous at 250.15 K and at 273.15 K; every
    element of a temperature array at or above 273.15 K is mapped to the
    water-phase value and every element at or below 250.15 K to the
    ice-phase value. *)
Theorem find_svp_phases :
  continuity_pt find_svp_at 250.15 /\
  continuity_pt find_svp_at 273.15 /\
  (forall (t : array3) (i j k : nat) (T : R),
      at3 t i j k = Some T ->
      (273.15 <= T -> at3 (find_svp t) i j k = Some (svp_water T)) /\
      (T <= 250.15 -> at3 (find_svp t) i j k = Some (svp_ice T))).
Proof.
  split; [exact find_svp_continuous_t2|].
  split; [exact find_svp_continuous_t1|].
  intros t i j k T Ht. unfold find_svp. rewrite at3_map3, Ht.
  cbn [option_map]. split; intros H; f_equal.
  - destruct (Rle_lt_or_eq_dec _ _ H) as [Hlt|Heq].
    + now apply find_svp_above.
    + rewrite <- Heq. apply find_svp_at_t1.
  - destruct (Rle_lt_or_eq_dec _ _ H) as [Hlt|Heq].
    + now apply find_svp_below.
    + rewrite Heq. apply find_svp_at_t2.
Qed.

(** C4, witness: a column holding 300 K and 200 K. *)
Lemma find_svp_phases_witness :
  at3 (find_svp [[[300; 200]]]) 0 0 0 = Some (svp_water 300) /\
  at3 (find_svp [[[300; 200]]]) 0 0 1 = Some (svp_ice 200).
Proof.
  destruct find_svp_phases as [_ [_ H]]. split.
  - apply (H [[[300; 200]]] 0%nat 0%nat 0%nat 300 eq_refl). lra.
  - apply (H [[[300; 200]]] 0%nat 0%nat 1%nat 200 eq_refl). lra.
Defined.

End SvpContinuity.

(** ** Zenith integration *)

Section ZenithFacts.

Import WeatherModel.

Local Open Scope R_scope.

Lemma trapz_step (y0 y1 x0 x1 : R) (ys xs : list R) :
  Np.trapz (y0 :: y1 :: ys) (x0 :: x1 :: xs)
  = (x1 - x0) * (y0 + y1) / 2 + Np.trapz (y1 :: ys) (x1 :: xs).
Proof.
  unfold Np.trapz.
  change (Np.diff (x0 :: x1 :: xs)) with ((x1 - x0) :: Np.diff (x1 :: xs)).
  change (tl (y0 :: y1 :: ys)) with (y1 :: ys).
  change (removelast (y0 :: y1 :: ys)) with (y0 :: removelast (y1 :: ys)).
  destruct ys as [|y2 ys].
  - cbn. destruct xs; cbn; lra.
  - change (tl (y1 :: y2 :: ys)) with (y2 :: ys).
    cbn [Np.map2 Np.sum]. lra.
Qed.

Lemma trapz_short (y x : list R) :
  (length x <= 1)%nat -> Np.trapz y x = 0.
Proof.
  intros H. unfold Np.trapz.
  destruct x as [|x0 [|x1 xs]]; cbn in H; try lia; reflexivity.
Qed.

Lemma trapezoid_sum_cons (a b : R) (f z : list R) (k n : nat) :
  trapezoid_sum (a :: f) (b :: z) (S k) n = trapezoid_sum f z k n.
Proof.
  revert k. induction n as [|n IH]; intros k; [reflexivity|].
  cbn [trapezoid_sum nth]. now rewrite IH.
Qed.

(** numpy's formula and the sum of trapezoids agree on a whole column. *)
Lemma trapz_is_trapezoid_sum (y x : list R) :
  length y = length x ->
  Np.trapz y x = trapezoid_sum y x 0 (length x - 1).
Proof.
  revert y. induction x as [|x0 xs IH]; intros y Hlen.
  - reflexivity.
  - destruct y as [|y0 ys]; [discriminate|].
    destruct xs as [|x1 xs].
    + reflexivity.
    + destruct ys as [|y1 ys]; [discriminate|].
      rewrite trapz_step.
      rewrite (IH (y1 :: ys)) by (cbn in *; lia).
      cbn [length]. replace (S (S (length xs)) - 1)%nat with (S (length xs)) by lia.
      replace (S (length xs) - 1)%nat with (length xs) by lia.
      cbn [trapezoid_sum nth]. rewrite trapezoid_sum_cons. reflexivity.
Qed.

Lemma nth_skipn (l : list R) (k m : nat) :
  nth m (skipn k l) 0 = nth (k + m) l 0.
Proof.
  revert l. induction k as [|k IH]; intros l; [reflexivity|].
  destruct l as [|x l]; [destruct m; reflexivity|]. cbn. apply IH.
Qed.

Lemma trapezoid_sum_skipn (f z : list R) (k m n : nat) :
  trapezoid_sum (skipn k f) (skipn k z) m n = trapezoid_sum f z (k + m) n.
Proof.
  revert m. induction n as [|n IH]; intros m; [reflexivity|].
  cbn [trapezoid_sum]. rewrite !nth_skipn, IH.
  replace (k + S m)%nat with (S (k + m)) by lia. reflexivity.
Qed.

(** What [np.trapz] computes on the levels from [k] upward. *)
Lemma trapz_from_level (col zs : list R) (k : nat) :
  length col = length zs ->
  Np.trapz (skipn k col) (skipn k zs) = integral_from col zs k.
Proof.
  intros Hlen. rewrite trapz_is_trapezoid_sum by (rewrite !length_skipn; lia).
  rewrite trapezoid_sum_skipn, length_skipn. unfold integral_from.
  f_equal; lia.
Qed.

End ZenithFacts.

Section ZenithLoop.

Import WeatherModel.

Local Open Scope R_scope.

Lemma set_nth_same {X : Type} (l : list X) (k : nat) (x : X) :
  (k < length l)%nat -> nth_error (Np.set_nth k x l) k = Some x.
Proof.
  revert k. induction l as [|y l IH]; intros [|k] H; cbn in *; try lia.
  - reflexivity.
  - apply IH. lia.
Qed.

Lemma set_nth_other {X : Type} (l : list X) (k n : nat) (x : X) :
  k <> n -> nth_error (Np.set_nth n x l) k = nth_error l k.
Proof.
  revert k n. induction l as [|y l IH]; intros [|k] [|n] H; cbn;
    try reflexivity; try congruence.
  apply IH. congruence.
Qed.

Lemma set_nth_length {X : Type} (l : list X) (n : nat) (x : X) :
  length (Np.set_nth n x l) = length l.
Proof.
  revert n. induction l as [|y l IH]; intros [|n]; cbn; try reflexivity.
  now rewrite IH.
Qed.

(** Writing [F l] at every level [l] of [ls], in any order and any number
    of times, leaves [F k] at each level [k] that was visited. *)
Lemma fold_set_nth (F : nat -> R) (ls : list nat) (col0 : list R) (k : nat) :
  (k < length col0)%nat ->
  In k ls ->
  nth_error (fold_left (fun col l => Np.set_nth l (F l) col) ls col0) k
  = Some (F k).
Proof.
  intros Hk Hin.
  assert (G : forall ls col0, (k < length col0)%nat ->
            nth_error (fold_left (fun col l => Np.set_nth l (F l) col) ls col0) k
            = if in_dec Nat.eq_dec k ls then Some (F k) else nth_error col0 k).
  { clear. intros ls. induction ls as [|l ls IH]; intros col0 Hk.
    - reflexivity.
    - cbn [fold_left]. rewrite IH by (now rewrite set_nth_length).
      destruct (in_dec Nat.eq_dec k ls) as [Hi|Hn];
        destruct (in_dec Nat.eq_dec k (l :: ls)) as [Hi'|Hn']; try reflexivity.
      + exfalso. apply Hn'. now right.
      + destruct Hi' as [->|Hi']; [|contradiction].
        now apply set_nth_same.
      + apply set_nth_other. intros ->. apply Hn'. now left. }
  rewrite G by assumption.
  destruct (in_dec Nat.eq_dec k ls); [reflexivity | contradiction].
Qed.

Lemma col_at_trapz_from (level : nat) (a : array3) (zs : list R)
    (i j : nat) (c : list R) :
  col_at a i j = Some c ->
  exists row,
    nth_error (trapz_from level a zs) i = Some row /\
    nth_error row j
    = Some (1e-6 * Np.trapz (skipn level c) (skipn level zs)).
Proof.
  unfold col_at, trapz_from. intros H.
  destruct (nth_error a i) as [r|] eqn:Er; [|discriminate].
  eexists. split.
  - rewrite nth_error_map, Er. reflexivity.
  - rewrite nth_error_map, H. reflexivity.
Qed.

Lemma col_at_set_level (level : nat) (v : list (list R)) (total : array3)
    (i j : nat) (col row : list R) (x : R) :
  col_at total i j = Some col ->
  nth_error v i = Some row ->
  nth_error row j = Some x ->
  col_at (set_level level v total) i j = Some (Np.set_nth level x col).
Proof.
  unfold col_at, set_level. intros Hc Hr Hx.
  destruct (nth_error total i) as [trow|] eqn:Et; [|discriminate].
  rewrite (map2_nth_error _ _ _ _ _ _ Et Hr).
  exact (map2_nth_error (fun col x => Np.set_nth level x col) _ _ _ _ _ Hc Hx).
Qed.

Lemma col_at_zeros (a : array3) (i j : nat) (c : list R) :
  col_at a i j = Some c ->
  col_at (zeros a) i j = Some (map (fun _ => 0) c).
Proof.
  unfold col_at, zeros, map3. intros H.
  destruct (nth_error a i) as [r|] eqn:Er; [|discriminate].
  rewrite nth_error_map, Er. cbn [option_map].
  rewrite nth_error_map, H. reflexivity.
Qed.

(** The loop over [level], seen from one column. *)
Lemma fold_levels_column (refr : array3) (zs : list R) (ls : list nat)
    (i j : nat) (c : list R) :
  col_at refr i j = Some c ->
  forall (total : array3) (col0 : list R),
    col_at total i j = Some col0 ->
    col_at (fold_left (fun tot l => set_level l (trapz_from l refr zs) tot)
                      ls total) i j
    = Some (fold_left
              (fun col l =>
                 Np.set_nth l (1e-6 * Np.trapz (skipn l c) (skipn l zs)) col)
              ls col0).
Proof.
  intros Hc. induction ls as [|l ls IH]; intros total col0 H0.
  - exact H0.
  - cbn [fold_left]. apply IH.
    destruct (col_at_trapz_from l refr zs i j c Hc) as [row [Hr Hx]].
    apply (col_at_set_level l _ total i j col0 row _ H0 Hr Hx).
Qed.

Lemma ztd_totals_fst (wet hydro : array3) (zs : list R) (ls : list nat)
    (p : array3 * array3) :
  fst (fold_left (ztd_level wet hydro zs) ls p)
  = fold_left (fun tot l => set_level l (trapz_from l wet zs) tot) ls (fst p).
Proof.
  revert p. induction ls as [|l ls IH]; intros p; [reflexivity|].
  cbn [fold_left]. now rewrite IH.
Qed.

Lemma ztd_totals_snd (wet hydro : array3) (zs : list R) (ls : list nat)
    (p : array3 * array3) :
  snd (fold_left (ztd_level wet hydro zs) ls p)
  = fold_left (fun tot l => set_level l (trapz_from l hydro zs) tot) ls (snd p).
Proof.
  revert p. induction ls as [|l ls IH]; intros p; [reflexivity|].
  cbn [fold_left]. now rewrite IH.
Qed.

Lemma at3_col_at (a : array3) (i j k : nat) (c : list R) :
  col_at a i j = Some c -> at3 a i j k = nth_error c k.
Proof.
  unfold at3, col_at. intros H.
  destruct (nth_error a i); [|discriminate]. now rewrite H.
Qed.

(** One entry of a field integrated by the loop. *)
Lemma integrated_entry (refr : array3) (zs : list R) (n : nat)
    (i j k : nat) (c : list R) :
  col_at refr i j = Some c ->
  length c = length zs ->
  (k < length zs)%nat ->
  (k < n)%nat ->
  at3 (fold_left (fun tot l => set_level l (trapz_from l refr zs) tot)
                 (seq 0 n) (zeros refr)) i j k
  = Some (1e-6 * integral_from c zs k).
Proof.
  intros Hc Hlen Hk Hn.
  rewrite (at3_col_at _ i j k _
             (fold_levels_column refr zs (seq 0 n) i j c Hc _ _
                (col_at_zeros refr i j c Hc))).
  rewrite (fold_set_nth
             (fun l => 1e-6 * Np.trapz (skipn l c) (skipn l zs))).
  - now rewrite trapz_from_level.
  - rewrite length_map. lia.
  - apply in_seq. lia.
Qed.

(** C7: after [_getZTD], the entry (i, j, k) of the wet (hydrostatic)
    zenith delay is 1e-6 times the trapezoidal integral of the wet
    (hydrostatic) refractivity of column (i, j) over the stored levels,
    from level k up to the last stored level. *)
Theorem getZTD_integrates_upward (zref : option R) (w : world)
    (lats : array3) (i j k : nat) (cw ch : list R) :
  let g := data (self w) in
  let run := _getZTD zref w in
  _lats g = Some lats ->
  col_at (_wet_refractivity g) i j = Some cw ->
  col_at (_hydrostatic_refractivity g) i j = Some ch ->
  length cw = length (_zs g) ->
  length ch = length (_zs g) ->
  shape2 (_wet_refractivity g) = length (_zs g) ->
  (k < length (_zs g))%nat ->
  fst run = Ok tt /\
  at3 (_wet_ztd (data (self (snd run)))) i j k
  = Some (1e-6 * integral_from cw (_zs g) k) /\
  at3 (_hydrostatic_ztd (data (self (snd run)))) i j k
  = Some (1e-6 * integral_from ch (_zs g) k).
Proof.
  intros g run Hlats Hw Hh Hlw Hlh Hshape Hk. subst run.
  unfold _getZTD, bindM, record, get_self, modify_data, bindM, get_self,
    lift, put_self.
  cbn [self disk calls data]. fold g. rewrite Hlats.
  cbn [fst snd self data set_data _wet_ztd _hydrostatic_ztd].
  split; [reflexivity|].
  unfold ztd_totals. rewrite ztd_totals_fst, ztd_totals_snd.
  cbn [fst snd]. rewrite Hshape.
  split; apply integrated_entry; assumption.
Qed.

(** C7, witness: the column of [refractive_world], at its lower level. *)
Lemma getZTD_integrates_upward_witness :
  let run := _getZTD None refractive_world in
  fst run = Ok tt /\
  at3 (_wet_ztd (data (self (snd run)))) 0 0 0
  = Some (1e-6 * integral_from [50; 20] [0; 1000] 0) /\
  at3 (_hydrostatic_ztd (data (self (snd run)))) 0 0 0
  = Some (1e-6 * integral_from [277; 258] [0; 1000] 0).
Proof.
  apply (getZTD_integrates_upward None refractive_world [[[10; 10]]]
           0 0 0 [50; 20] [277; 258]);
    try reflexivity.
  cbn. lia.
Defined.

End ZenithLoop.

(** ** Dispatch in [delay_from_grid] *)

Section DispatchFacts.

Local Open Scope R_scope.

Variable zref : R.
Variables cosd sind : R -> R.
Variable lla2ecef : R -> R -> R -> Delay.vec3.

Lemma linspace_int_length (stop num : nat) :
  length (Delay.linspace_int stop num) = num.
Proof.
  unfold Delay.linspace_int. now rewrite length_map, linspace_nat_length.
Qed.

Lemma index_in_range (l : list Z) (i : nat) :
  (i < length l)%nat -> exists x, Delay.index l i = Ok x.
Proof.
  intros H. unfold Delay.index.
  destruct (nth_error l i) eqn:E; [eauto|].
  apply nth_error_None in E. lia.
Qed.

Lemma index_out_of_range (l : list Z) (i : nat) :
  (length l <= i)%nat -> Delay.index l i = Raise IndexError.
Proof.
  intros H. unfold Delay.index.
  now rewrite (proj2 (nth_error_None l i) H).
Qed.

(** A generator whose jobs are built from indices inside [hindices]
    yields them all. *)
Lemma jobs_in_range (kind : string) (hindices : list Z) (n : nat) :
  (n < length hindices)%nat ->
  Forall (fun r => is_ok r = true)
    (map (fun i => a <- Delay.index hindices i ;;
                   b <- Delay.index hindices (i + 1) ;;
                   Ok (kind, a, b))
         (seq 0 n)).
Proof.
  intros Hn. apply Forall_forall. intros r Hr.
  apply in_map_iff in Hr. destruct Hr as [i [<- Hi]].
  apply in_seq in Hi.
  destruct (index_in_range hindices i) as [a ->]; [lia|].
  destruct (index_in_range hindices (i + 1)) as [b ->]; [lia|].
  reflexivity.
Qed.

(** [enumerate] stops at the first job whose construction raises. *)
Lemma enumerate_from_raises {J : Type} (oks rest : list (result J))
    (e : exn) (idx : nat) :
  Forall (fun r => is_ok r = true) oks ->
  Delay.enumerate_from idx (oks ++ Raise e :: rest) = Raise e.
Proof.
  intros H. revert idx. induction H as [|r oks Hr _ IH]; intros idx.
  - reflexivity.
  - destruct r as [j|e']; [|discriminate].
    cbn [app Delay.enumerate_from bind]. now rewrite IH.
Qed.

Lemma odd_half (m : nat) : Nat.div (2 * m + 1) 2 = m.
Proof.
  rewrite (Nat.mul_comm 2 m), Nat.div_add_l by discriminate.
  cbn. lia.
Qed.

(** With an odd number of cores the last wet job reads past the end of
    [hindices]. *)
Lemma jobs_raise_on_odd (n m : nat) :
  exists oks,
    Forall (fun r : result Delay.job => is_ok r = true) oks /\
    Delay.hjobs (Delay.linspace_int n (m + 1)) m
      ++ Delay.wjobs (Delay.linspace_int n (m + 1)) (m + 1)
    = oks ++ [Raise IndexError].
Proof.
  set (hi := Delay.linspace_int n (m + 1)).
  assert (Hlen : length hi = (m + 1)%nat) by apply linspace_int_length.
  exists (Delay.hjobs hi m ++ Delay.wjobs hi m). split.
  - apply Forall_app. split; apply jobs_in_range; lia.
  - rewrite <- app_assoc. f_equal.
    unfold Delay.wjobs. rewrite Nat.add_1_r, seq_S, map_app.
    f_equal. cbn [map Nat.add].
    destruct (index_in_range hi m) as [a ->]; [lia|].
    rewrite index_out_of_range by lia. reflexivity.
Qed.

Lemma parallel_raises_on_odd (m : nat) (sched : list nat)
    (weather : Delay.weather_t) (llas : list Delay.point)
    (los : Delay.los_t) (raytrace : bool) :
  Delay.delay_from_grid zref cosd sind lla2ecef (2 * m + 1) sched weather
    llas los true raytrace
  = Raise IndexError.
Proof.
  unfold Delay.delay_from_grid. rewrite odd_half.
  replace (2 * m + 1 - m)%nat with (m + 1)%nat by lia.
  destruct (jobs_raise_on_odd (length llas) m) as [oks [Hoks ->]].
  unfold Delay._parmap.
  rewrite (enumerate_from_raises oks [] IndexError 0 Hoks). reflexivity.
Qed.

(** The sequential path on a zenith query returns. *)
Lemma common_delay_zenith_ok (delay : list Delay.vec3 -> list R)
    (p : Delay.point) (pts : list Delay.point) :
  exists d,
    Delay._common_delay zref cosd sind lla2ecef delay (p :: pts)
      Delay.Zenith true = Ok (d, Delay.Zenith) /\
    length d = length (p :: pts).
Proof.
  unfold Delay._common_delay.
  cbn [Delay.correction_of Delay.look_vecs_of bind].
  set (lv := map (Delay.zenith_look_vec zref cosd sind) (p :: pts)).
  assert (Hne : Delay.steps_of (Delay.lengths_of lv) <> []) by discriminate.
  destruct (indices_of_ok _ Hne) as [indices [-> Hlen]]. cbn [bind].
  rewrite (t_points_l_ok _ (lengths_nonneg lv)). cbn [bind].
  cbn [Delay.apply_correction bind Delay.look_vecs_after].
  eexists. split; [reflexivity|].
  rewrite integrate_length; [| exact Hlen |].
  - unfold Delay.steps_of, Delay.lengths_of, lv. now rewrite !length_map.
  - unfold Delay.steps_of. now rewrite !length_map.
Qed.

Lemma sequential_zenith_ok (cpu_count : nat) (sched : list nat)
    (weather : Delay.weather_t) (p : Delay.point) (pts : list Delay.point) :
  exists hydro wet,
    Delay.delay_from_grid zref cosd sind lla2ecef cpu_count sched weather
      (p :: pts) Delay.Zenith false true = Ok (hydro, wet) /\
    length hydro = length (p :: pts) /\
    length wet = length (p :: pts).
Proof.
  unfold Delay.delay_from_grid, Delay.hydrostatic_delay, Delay.wet_delay.
  destruct (common_delay_zenith_ok
              (Delay.weather_hydrostatic_delay weather) p pts)
    as [h [-> Hh]].
  cbn [bind fst snd].
  destruct (common_delay_zenith_ok (Delay.weather_wet_delay weather) p pts)
    as [wt [-> Hw]].
  cbn [bind fst snd]. unfold Delay.stack.
  rewrite Hh, Hw, Nat.eqb_refl. cbn [andb]. eauto.
Qed.

(** C1 (the code on machines with an odd number of cores): whatever the
    weather object, the points, the line of sight and the interleaving
    of the threads, the parallel call raises [IndexError] while the job
    list is being built, although the sequential call on the same zenith
    query returns one hydrostatic and one wet delay per point. *)
Theorem parallel_differs_on_odd_cpu_count (m : nat) (sched : list nat)
    (weather : Delay.weather_t) (p : Delay.point) (pts : list Delay.point) :
  Delay.delay_from_grid zref cosd sind lla2ecef (2 * m + 1) sched weather
    (p :: pts) Delay.Zenith true true
  = Raise IndexError /\
  exists hydro wet,
    Delay.delay_from_grid zref cosd sind lla2ecef (2 * m + 1) sched weather
      (p :: pts) Delay.Zenith false true = Ok (hydro, wet) /\
    length hydro = length (p :: pts) /\
    length wet = length (p :: pts).
Proof.
  split; [apply parallel_raises_on_odd | apply sequential_zenith_ok].
Qed.

End DispatchFacts.

(** ** The thread pool of [_parmap] *)

Section PoolFacts.

Import Delay.

Context {J A S : Type}.
Variable f : J -> S -> result (A * S).
Variable jobs : list J.
Variable st : S.
Variable n_threads : nat.

Hypothesis Hkeeps : keeps_store f st jobs.

Lemma nth_error_set_nth {X : Type} (l : list X) (w w' : nat) (v t : X) :
  nth_error (Np.set_nth w v l) w' = Some t ->
  (w' = w /\ t = v) \/ (w' <> w /\ nth_error l w' = Some t).
Proof.
  intros H. destruct (Nat.eq_dec w' w) as [->|Hne].
  - left. split; [reflexivity|].
    assert (Hw : (w < length l)%nat).
    { rewrite <- (set_nth_length l w v). apply nth_error_Some. congruence. }
    rewrite (set_nth_same l w v Hw) in H. congruence.
  - right. split; [exact Hne|]. now rewrite set_nth_other in H.
Qed.

Lemma skipn_cons_inv {X : Type} (l : list X) (k : nat) (a : X)
    (rest : list X) :
  skipn k l = a :: rest ->
  nth_error l k = Some a /\ rest = skipn (Datatypes.S k) l.
Proof.
  revert l. induction k as [|k IH]; intros [|y l] H; cbn in H; try discriminate.
  - inversion H; subst. split; reflexivity.
  - apply IH in H. exact H.
Qed.

Lemma enumerated_nth (k i : nat) (x : J) :
  nth_error (enumerated jobs) k = Some (i, x) ->
  i = k /\ nth_error jobs k = Some x.
Proof.
  unfold enumerated.
  assert (G : forall (l : list J) (s k i : nat) (x : J),
             nth_error (combine (seq s (length l)) l) k = Some (i, x) ->
             i = (s + k)%nat /\ nth_error l k = Some x).
  { clear. induction l as [|y l IH]; intros s k i x H.
    - destruct k; discriminate.
    - destruct k as [|k]; cbn in H.
      + inversion H; subst. split; [lia | reflexivity].
      + apply IH in H. destruct H as [-> H]. split; [lia | exact H]. }
  intros H. apply G in H. exact H.
Qed.

Lemma enumerated_length : length (enumerated jobs) = length jobs.
Proof.
  unfold enumerated. rewrite length_combine, length_seq. lia.
Qed.

(** Popping a job. *)
Lemma pop_job (p : pool) (i : nat) (x : J) (rest : list (nat * J)) :
  pool_inv f jobs st n_threads p ->
  q p = (i, x) :: rest ->
  i = taken jobs p /\ nth_error jobs i = Some x /\
  rest = skipn (Datatypes.S i) (enumerated jobs) /\
  (Datatypes.S i = length jobs - length rest)%nat.
Proof.
  intros Hinv Hq. destruct (inv_queue _ _ _ _ _ Hinv) as [Hle Hsk].
  rewrite Hq in Hsk. symmetry in Hsk.
  apply skipn_cons_inv in Hsk. destruct Hsk as [Hn Hrest].
  apply enumerated_nth in Hn. destruct Hn as [-> Hx].
  split; [reflexivity|]. split; [exact Hx|]. split; [exact Hrest|].
  unfold taken in *. rewrite Hq in *. cbn [length] in *. lia.
Qed.

(** Every step keeps the invariant. *)
Lemma step_inv (w : nat) (p : pool) :
  pool_inv f jobs st n_threads p ->
  pool_inv f jobs st n_threads (step f w p).
Proof.
  intros Hinv. unfold step.
  destruct (nth_error (threads p) w) as [[|i x|]|] eqn:Ew; try exact Hinv.
  - (* idle: pop or finish *)
    destruct (q p) as [|[i x] rest] eqn:Eq.
    + destruct Hinv as [H1 H2 H3 H4 H5 H6].
      constructor; cbn [store answers threads q]; try assumption.
      * now rewrite set_nth_length.
      * unfold taken in *. cbn [q]. rewrite Eq in H5. exact H5.
      * intros w' i x Hw'. apply nth_error_set_nth in Hw'.
        destruct Hw' as [[_ Hw']|[_ Hw']]; [discriminate|].
        apply H6 in Hw'. unfold taken in *. cbn [q]. rewrite Eq in Hw'.
        exact Hw'.
    + destruct (pop_job p i x rest Hinv Eq) as [Hi [Hx [Hrest Hlen]]].
      destruct Hinv as [H1 H2 H3 H4 H5 H6].
      constructor; cbn [store answers threads q]; try assumption.
      * now rewrite set_nth_length.
      * unfold taken. cbn [q]. rewrite <- Hlen. split; [lia | exact Hrest].
      * intros w' i' x' Hw'. unfold taken. cbn [q]. rewrite <- Hlen.
        apply nth_error_set_nth in Hw'.
        destruct Hw' as [[_ Hw']|[_ Hw']].
        -- inversion Hw'; subst. split; [lia | exact Hx].
        -- apply H6 in Hw'. destruct Hw' as [Hlt Hx'].
           split; [lia | exact Hx'].
  - (* holding: run the job *)
    destruct (inv_holding _ _ _ _ _ Hinv w i x Ew) as [Hlt Hx].
    assert (Hin : In x jobs) by (eapply nth_error_In; exact Hx).
    rewrite (inv_store _ _ _ _ _ Hinv).
    destruct (f x st) as [[a st']|e] eqn:Ef.
    + pose proof (Hkeeps x a st' Hin Ef) as ->.
      destruct Hinv as [H1 H2 H3 H4 H5 H6].
      constructor; cbn [store answers threads q]; try assumption;
        try reflexivity.
      * now rewrite set_nth_length.
      * now rewrite set_nth_length.
      * intros i' a' Hi'. apply nth_error_set_nth in Hi'.
        destruct Hi' as [[-> Ha]|[_ Hi']].
        -- inversion Ha; subst. exists x. split; [exact Hx|].
           unfold outcome. now rewrite Ef.
        -- now apply H4.
      * intros w' i' x' Hw'. apply nth_error_set_nth in Hw'.
        destruct Hw' as [[_ Hw']|[_ Hw']]; [discriminate|].
        exact (H6 _ _ _ Hw').
    + destruct Hinv as [H1 H2 H3 H4 H5 H6].
      constructor; cbn [store answers threads q]; try assumption;
        try reflexivity.
      * now rewrite set_nth_length.
      * intros w' i' x' Hw'. apply nth_error_set_nth in Hw'.
        destruct Hw' as [[_ Hw']|[_ Hw']]; [discriminate|].
        exact (H6 _ _ _ Hw').
Qed.

Lemma run_inv (sched : list nat) (p : pool) :
  pool_inv f jobs st n_threads p ->
  pool_inv f jobs st n_threads (run f sched p).
Proof.
  revert p. induction sched as [|w sched IH]; intros p Hinv; [exact Hinv|].
  cbn [run fold_left]. apply IH. now apply step_inv.
Qed.

Lemma run_thread_inv (fuel w : nat) (p : pool) :
  pool_inv f jobs st n_threads p ->
  pool_inv f jobs st n_threads (run_thread f fuel w p).
Proof.
  revert p. induction fuel as [|fuel IH]; intros p Hinv; [exact Hinv|].
  cbn [run_thread]. apply IH. now apply step_inv.
Qed.

Lemma join_all_inv (p : pool) :
  pool_inv f jobs st n_threads p ->
  pool_inv f jobs st n_threads (join_all f p).
Proof.
  unfold join_all. generalize (seq 0 (length (threads p))) as ws.
  intros ws. revert p. induction ws as [|w ws IH]; intros p Hinv;
    [exact Hinv|].
  cbn [fold_left]. apply IH. now apply run_thread_inv.
Qed.

Lemma enumerate_from_oks (idx : nat) (l : list J) :
  enumerate_from idx (map Ok l) = Ok (combine (seq idx (length l)) l).
Proof.
  revert idx. induction l as [|x l IH]; intros idx; [reflexivity|].
  cbn [map enumerate_from bind length seq combine]. now rewrite IH.
Qed.

Lemma init_inv :
  pool_inv f jobs st n_threads
    (Pool (enumerated jobs) (map (fun _ => None) (enumerated jobs)) st
          (repeat Idle n_threads)).
Proof.
  constructor; cbn [store answers threads q].
  - reflexivity.
  - now rewrite length_map, enumerated_length.
  - apply repeat_length.
  - intros i a H. rewrite nth_error_map in H.
    destruct (nth_error (enumerated jobs) i); discriminate.
  - unfold taken. cbn [q]. rewrite enumerated_length, Nat.sub_diag.
    split; [lia | reflexivity].
  - intros w i x H. apply nth_error_In, repeat_spec in H. discriminate.
Qed.

(** Safety, for every interleaving: the store comes back as it was, and
    a slot that was filled holds the outcome of the job with its index. *)
Lemma parmap_slots_safe (sched : list nat) :
  exists ans,
    _parmap f n_threads sched (map Ok jobs) st = Ok (ans, st) /\
    length ans = length jobs /\
    forall i a,
      nth_error ans i = Some (Some a) ->
      exists x, nth_error jobs i = Some x /\ outcome f st x = Some a.
Proof.
  unfold _parmap. rewrite enumerate_from_oks. cbn [bind].
  fold (enumerated jobs).
  pose proof (join_all_inv _ (run_inv sched _ init_inv)) as Hinv.
  eexists. split.
  - rewrite (inv_store _ _ _ _ _ Hinv). reflexivity.
  - split; [apply (inv_answers _ _ _ _ _ Hinv)|].
    apply (inv_slot _ _ _ _ _ Hinv).
Qed.

(** *** When no job raises *)

Hypothesis Htotal : forall x, In x jobs -> outcome f st x <> None.

Lemma step_live (w : nat) (p : pool) :
  pool_inv f jobs st n_threads p ->
  pool_live jobs p ->
  pool_live jobs (step f w p).
Proof.
  intros Hinv Hlive. unfold step.
  destruct (nth_error (threads p) w) as [[|i x|]|] eqn:Ew; try exact Hlive.
  - destruct (q p) as [|[i x] rest] eqn:Eq.
    + destruct Hlive as [L1 L2].
      constructor; cbn [answers threads q]; [|reflexivity].
      intros i Hi Hnone. unfold taken in *. cbn [q]. rewrite Eq in L1.
      destruct (L1 i Hi Hnone) as [Hle|[w' [x Hw']]]; [now left|].
      right. exists w', x. rewrite set_nth_other; [exact Hw'|].
      intros ->. congruence.
    + destruct (pop_job p i x rest Hinv Eq) as [Hi [Hx [Hrest Hlen]]].
      destruct Hlive as [L1 L2].
      assert (Hw : (w < length (threads p))%nat).
      { apply nth_error_Some. congruence. }
      constructor; cbn [answers threads q].
      * intros i' Hi' Hnone. unfold taken. cbn [q]. rewrite <- Hlen.
        destruct (L1 i' Hi' Hnone) as [Hle|[w' [x' Hw']]].
        -- destruct (Nat.eq_dec i' i) as [->|Hne].
           ++ right. exists w, x. now apply set_nth_same.
           ++ left. lia.
        -- right. exists w', x'. rewrite set_nth_other; [exact Hw'|].
           intros ->. congruence.
      * intros w' Hw'. apply nth_error_set_nth in Hw'.
        destruct Hw' as [[_ Hw']|[_ Hw']]; [discriminate|].
        apply L2 in Hw'. congruence.
  - destruct (inv_holding _ _ _ _ _ Hinv w i x Ew) as [Hlt Hx].
    assert (Hin : In x jobs) by (eapply nth_error_In; exact Hx).
    rewrite (inv_store _ _ _ _ _ Hinv).
    pose proof (Htotal x Hin) as Hsome. unfold outcome in Hsome.
    destruct (f x st) as [[a st']|e] eqn:Ef; [|congruence].
    destruct Hlive as [L1 L2].
    constructor; cbn [answers threads q].
    + intros i' Hi' Hnone. apply nth_error_set_nth in Hnone.
      destruct Hnone as [[_ Hnone]|[Hne Hnone]]; [discriminate|].
      unfold taken in *. cbn [q].
      destruct (L1 i' Hi' Hnone) as [Hle|[w' [x' Hw']]]; [now left|].
      right. exists w', x'. rewrite set_nth_other; [exact Hw'|].
      intros ->. congruence.
    + intros w' Hw'. apply nth_error_set_nth in Hw'.
      destruct Hw' as [[_ Hw']|[_ Hw']]; [discriminate|].
      now apply L2 in Hw'.
Qed.

Lemma run_live (sched : list nat) (p : pool) :
  pool_inv f jobs st n_threads p ->
  pool_live jobs p ->
  pool_live jobs (run f sched p).
Proof.
  revert p. induction sched as [|w sched IH]; intros p Hinv Hlive;
    [exact Hlive|].
  cbn [run fold_left]. apply IH; [now apply step_inv | now apply step_live].
Qed.

Lemma run_thread_live (fuel w : nat) (p : pool) :
  pool_inv f jobs st n_threads p ->
  pool_live jobs p ->
  pool_live jobs (run_thread f fuel w p).
Proof.
  revert p. induction fuel as [|fuel IH]; intros p Hinv Hlive;
    [exact Hlive|].
  cbn [run_thread]. apply IH; [now apply step_inv | now apply step_live].
Qed.

Lemma finished_stays (w w' : nat) (p : pool) :
  nth_error (threads p) w' = Some Finished ->
  nth_error (threads (step f w p)) w' = Some Finished.
Proof.
  intros H. unfold step.
  assert (Hne : forall t, nth_error (threads p) w = Some t ->
                          t <> Finished -> w' <> w).
  { intros t Ht Hnf ->. congruence. }
  destruct (nth_error (threads p) w) as [[|i x|]|] eqn:Ew; try exact H.
  - destruct (q p) as [|[i x] rest]; cbn [threads];
      rewrite set_nth_other; try exact H; apply (Hne Idle); congruence.
  - destruct (f x (store p)) as [[a st']|e]; cbn [threads];
      rewrite set_nth_other; try exact H;
      apply (Hne (Holding i x)); congruence.
Qed.

Lemma run_thread_finished_stays (fuel w w' : nat) (p : pool) :
  nth_error (threads p) w' = Some Finished ->
  nth_error (threads (run_thread f fuel w p)) w' = Some Finished.
Proof.
  revert p. induction fuel as [|fuel IH]; intros p H; [exact H|].
  cbn [run_thread]. apply IH. now apply finished_stays.
Qed.

(** Every step of a thread that has not finished brings it one step
    closer to finishing. *)
Lemma step_weight (w : nat) (p : pool) :
  pool_inv f jobs st n_threads p ->
  weight w (step f w p) = Nat.pred (weight w p).
Proof.
  intros Hinv. unfold weight at 2. unfold step.
  destruct (nth_error (threads p) w) as [[|i x|]|] eqn:Ew.
  - assert (Hw : (w < length (threads p))%nat).
    { apply nth_error_Some. congruence. }
    destruct (q p) as [|[i x] rest] eqn:Eq; unfold weight;
      cbn [threads q]; rewrite set_nth_same by exact Hw; cbn [length]; lia.
  - assert (Hw : (w < length (threads p))%nat).
    { apply nth_error_Some. congruence. }
    destruct (inv_holding _ _ _ _ _ Hinv w i x Ew) as [Hlt Hx].
    assert (Hin : In x jobs) by (eapply nth_error_In; exact Hx).
    rewrite (inv_store _ _ _ _ _ Hinv).
    pose proof (Htotal x Hin) as Hsome. unfold outcome in Hsome.
    destruct (f x st) as [[a st']|e] eqn:Ef; [|congruence].
    unfold weight. cbn [threads q]. rewrite set_nth_same by exact Hw. lia.
  - unfold weight. now rewrite Ew.
  - unfold weight. now rewrite Ew.
Qed.

Lemma run_thread_finishes (fuel w : nat) (p : pool) :
  pool_inv f jobs st n_threads p ->
  (w < n_threads)%nat ->
  (weight w p <= fuel)%nat ->
  nth_error (threads (run_thread f fuel w p)) w = Some Finished.
Proof.
  revert p. induction fuel as [|fuel IH]; intros p Hinv Hw Hfuel.
  - cbn [run_thread]. unfold weight in Hfuel.
    destruct (nth_error (threads p) w) as [[|i x|]|] eqn:Ew;
      try lia; try reflexivity.
    apply nth_error_None in Ew. rewrite (inv_threads _ _ _ _ _ Hinv) in Ew.
    lia.
  - cbn [run_thread]. apply IH; [now apply step_inv | exact Hw |].
    rewrite step_weight by exact Hinv. lia.
Qed.

Lemma weight_bound (w : nat) (p : @pool J A S) :
  (weight w p <= 2 * length (q p) + 2)%nat.
Proof.
  unfold weight. destruct (nth_error (threads p) w) as [[|i x|]|]; lia.
Qed.

(** After the joins every thread has finished. *)
Lemma joins_finish (ws : list nat) (p : pool) :
  pool_inv f jobs st n_threads p ->
  pool_live jobs p ->
  (forall w, In w ws -> (w < n_threads)%nat) ->
  let p' := fold_left (fun p w => run_thread f (2 * length (q p) + 2) w p)
                      ws p in
  pool_inv f jobs st n_threads p' /\
  pool_live jobs p' /\
  forall w, In w ws \/ nth_error (threads p) w = Some Finished ->
            nth_error (threads p') w = Some Finished.
Proof.
  revert p. induction ws as [|w ws IH]; intros p Hinv Hlive Hws.
  - cbn. split; [exact Hinv|]. split; [exact Hlive|].
    intros w [[]|H]. exact H.
  - cbn [fold_left].
    set (p1 := run_thread f (2 * length (q p) + 2) w p).
    assert (Hinv1 : pool_inv f jobs st n_threads p1)
      by now apply run_thread_inv.
    assert (Hlive1 : pool_live jobs p1) by now apply run_thread_live.
    destruct (IH p1 Hinv1 Hlive1) as [Hi [Hl Hf]].
    { intros w' Hw'. apply Hws. now right. }
    split; [exact Hi|]. split; [exact Hl|].
    intros w' [[<-|Hin]|Hfin].
    + apply Hf. right. apply run_thread_finishes;
        [exact Hinv | apply Hws; now left | apply weight_bound].
    + apply Hf. now left.
    + apply Hf. right. now apply run_thread_finished_stays.
Qed.

Lemma init_live :
  pool_live jobs
    (Pool (enumerated jobs) (map (fun _ : nat * J => @None A) (enumerated jobs))
          st (repeat Idle n_threads)).
Proof.
  constructor; cbn [answers threads q].
  - intros i Hi _. left. unfold taken. cbn [q].
    rewrite enumerated_length. lia.
  - intros w H. apply nth_error_In, repeat_spec in H. discriminate.
Qed.

(** With at least one thread and jobs that neither raise nor change the
    store, [_parmap] returns the outcomes of the jobs, slot by slot, for
    every interleaving of the threads. *)
Lemma parmap_any_schedule (sched : list nat) :
  (1 <= n_threads)%nat ->
  _parmap f n_threads sched (map Ok jobs) st
  = Ok (map (outcome f st) jobs, st).
Proof.
  intros Hn. unfold _parmap. rewrite enumerate_from_oks. cbn [bind].
  fold (enumerated jobs).
  set (p0 := Pool (enumerated jobs) (map (fun _ => None) (enumerated jobs)) st
                  (repeat Idle n_threads)).
  assert (Hinv0 : pool_inv f jobs st n_threads (run f sched p0))
    by apply run_inv, init_inv.
  assert (Hlive0 : pool_live jobs (run f sched p0))
    by (apply run_live; [apply init_inv | apply init_live]).
  destruct (joins_finish (seq 0 (length (threads (run f sched p0))))
              (run f sched p0) Hinv0 Hlive0) as [Hinv [Hlive Hfin]].
  { intros w Hw. apply in_seq in Hw.
    rewrite (inv_threads _ _ _ _ _ Hinv0) in Hw. lia. }
  fold (join_all f (run f sched p0)) in Hinv, Hlive, Hfin.
  set (p' := join_all f (run f sched p0)) in *.
  assert (Hall : forall w, (w < n_threads)%nat ->
                           nth_error (threads p') w = Some Finished).
  { intros w Hw. apply Hfin. left. apply in_seq.
    rewrite (inv_threads _ _ _ _ _ Hinv0). lia. }
  assert (Hq : q p' = []).
  { apply (live_finished _ _ Hlive 0%nat). apply Hall. lia. }
  rewrite (inv_store _ _ _ _ _ Hinv). f_equal. f_equal.
  apply nth_error_ext. intros i.
  rewrite nth_error_map.
  destruct (nth_error jobs i) as [x|] eqn:Ex.
  - assert (Hi : (i < length jobs)%nat).
    { apply nth_error_Some. congruence. }
    destruct (nth_error (answers p') i) as [[a|]|] eqn:Ea.
    + destruct (inv_slot _ _ _ _ _ Hinv i a Ea) as [x' [Hx' Ho]].
      cbn [option_map]. congruence.
    + exfalso.
      destruct (live_pending _ _ Hlive i Hi Ea) as [Hle|[w [x' Hw]]].
      * unfold taken in Hle. rewrite Hq in Hle. cbn [length] in Hle. lia.
      * assert (Hwn : (w < n_threads)%nat).
        { rewrite <- (inv_threads _ _ _ _ _ Hinv).
          apply nth_error_Some. congruence. }
        rewrite (Hall w Hwn) in Hw. discriminate.
    + exfalso. apply nth_error_None in Ea.
      rewrite (inv_answers _ _ _ _ _ Hinv) in Ea. lia.
  - cbn [option_map]. apply nth_error_None.
    rewrite (inv_answers _ _ _ _ _ Hinv). now apply nth_error_None.
Qed.

End PoolFacts.

(** ** Parallel against sequential *)

Section ParallelFacts.

Local Open Scope R_scope.

Variable zref : R.
Variables cosd sind : R -> R.
Variable lla2ecef : R -> R -> R -> Delay.vec3.
Variable weather : Delay.weather_t.

Lemma astype_int_IZR (z : Z) : (0 <= z)%Z -> Delay.astype_int (IZR z) = z.
Proof.
  intros Hz. unfold Delay.astype_int.
  destruct (Rle_dec 0 (IZR z)) as [_|Hn].
  - rewrite <- (tech_up (IZR z) (z + 1)).
    + lia.
    + rewrite plus_IZR. lra.
    + rewrite plus_IZR. lra.
  - exfalso. apply Hn. now apply IZR_le.
Qed.

Lemma astype_int_half : Delay.astype_int (1 / 2) = 0%Z.
Proof.
  unfold Delay.astype_int.
  destruct (Rle_dec 0 (1 / 2)) as [_|Hn]; [|lra].
  rewrite <- (tech_up (1 / 2) 1); [reflexivity | lra | lra].
Qed.

(** With a zenith line of sight no job writes to the shared array. *)
Lemma go_zenith_keeps_store (llas : list Delay.point) (raytrace : bool)
    (jobs : list Delay.job) :
  Delay.keeps_store
    (Delay.go zref cosd sind lla2ecef weather llas raytrace)
    Delay.Zenith jobs.
Proof.
  intros [[kind start] stop] a st' _. unfold Delay.go.
  cbn [Delay.los_slice].
  destruct (String.eqb kind "hydro").
  - destruct (Delay.hydrostatic_delay _ _ _ _ _ _ _ _) as [[d l]|e];
      cbn [bind]; [|discriminate].
    now intros [= _ <-].
  - destruct (String.eqb kind "wet"); [|discriminate].
    destruct (Delay.wet_delay _ _ _ _ _ _ _ _) as [[d l]|e];
      cbn [bind]; [|discriminate].
    now intros [= _ <-].
Qed.

Lemma slice2_whole {X : Type} (l : list X) :
  Delay.slice2 0 (Z.of_nat (length l)) l = l.
Proof.
  unfold Delay.slice2. cbn [Z.to_nat skipn].
  rewrite Nat2Z.id, Nat.sub_0_r. apply firstn_all.
Qed.

Lemma linspace_int_two (n : nat) :
  Delay.linspace_int n 2 = [0%Z; Z.of_nat n].
Proof.
  unfold Delay.linspace_int. cbn [Np.linspace_nat seq map app].
  replace (INR 0 * ((INR n - 0) / INR 1) + 0) with (IZR 0) by (cbn; lra).
  rewrite astype_int_IZR by lia.
  rewrite INR_IZR_INZ, astype_int_IZR by lia. reflexivity.
Qed.

(** On two cores each kind has one job, the whole range; for a zenith
    query the parallel call then returns what the sequential call
    returns, whatever the interleaving of the two threads. *)
Lemma parallel_equals_sequential_two_cores (sched : list nat)
    (p : Delay.point) (pts : list Delay.point) :
  Delay.delay_from_grid zref cosd sind lla2ecef 2 sched weather
    (p :: pts) Delay.Zenith true true
  = Delay.delay_from_grid zref cosd sind lla2ecef 2 sched weather
      (p :: pts) Delay.Zenith false true.
Proof.
  set (llas := p :: pts).
  destruct (common_delay_zenith_ok zref cosd sind lla2ecef
              (Delay.weather_hydrostatic_delay weather) p pts)
    as [dh [Eh Hh]].
  destruct (common_delay_zenith_ok zref cosd sind lla2ecef
              (Delay.weather_wet_delay weather) p pts)
    as [dw [Ew Hw]].
  fold llas in Eh, Ew, Hh, Hw.
  unfold Delay.delay_from_grid.
  change (Nat.div 2 2) with 1%nat. change (2 - 1)%nat with 1%nat.
  change (1 + 1)%nat with 2%nat. rewrite linspace_int_two.
  change (Delay.hjobs [0%Z; Z.of_nat (length llas)] 1
          ++ Delay.wjobs [0%Z; Z.of_nat (length llas)] 1)
    with (map Ok [("hydro"%string, 0%Z, Z.of_nat (length llas));
                  ("wet"%string, 0%Z, Z.of_nat (length llas))]).
  set (jobs := [("hydro"%string, 0%Z, Z.of_nat (length llas));
                ("wet"%string, 0%Z, Z.of_nat (length llas))]).
  assert (Ogo_h : Delay.go zref cosd sind lla2ecef weather llas true
                    ("hydro"%string, 0%Z, Z.of_nat (length llas)) Delay.Zenith
                  = Ok (dh, Delay.Zenith)).
  { unfold Delay.go. cbn [String.eqb Ascii.eqb Bool.eqb Delay.los_slice].
    rewrite slice2_whole. unfold Delay.hydrostatic_delay. rewrite Eh.
    reflexivity. }
  assert (Ogo_w : Delay.go zref cosd sind lla2ecef weather llas true
                    ("wet"%string, 0%Z, Z.of_nat (length llas)) Delay.Zenith
                  = Ok (dw, Delay.Zenith)).
  { unfold Delay.go. cbn [String.eqb Ascii.eqb Bool.eqb Delay.los_slice].
    rewrite slice2_whole. unfold Delay.wet_delay. rewrite Ew.
    reflexivity. }
  rewrite (parmap_any_schedule
             (Delay.go zref cosd sind lla2ecef weather llas true)
             jobs Delay.Zenith 2
             (go_zenith_keeps_store llas true jobs)).
  - unfold jobs. cbn [map]. unfold Delay.outcome. rewrite Ogo_h, Ogo_w.
    cbn [bind fst snd firstn skipn Delay.np_concatenate Delay.concatenate].
    rewrite !app_nil_r.
    unfold Delay.hydrostatic_delay, Delay.wet_delay. rewrite Eh.
    cbn [bind fst snd]. rewrite Ew. reflexivity.
  - intros x [<-|[<-|[]]]; unfold Delay.outcome.
    + now rewrite Ogo_h.
    + now rewrite Ogo_w.
  - lia.
Qed.

Lemma linspace_int_one_three : Delay.linspace_int 1 3 = [0%Z; 0%Z; 1%Z].
Proof.
  unfold Delay.linspace_int. cbn [Np.linspace_nat seq map app].
  replace (INR 0 * ((INR 1 - 0) / INR 2) + 0) with (IZR 0) by (cbn; lra).
  replace (INR 1 * ((INR 1 - 0) / INR 2) + 0) with (1 / 2) by (cbn; lra).
  replace (INR 1) with (IZR 1) by (cbn; lra).
  rewrite !astype_int_IZR by lia. rewrite astype_int_half. reflexivity.
Qed.

(** A second way in which the worker count shows: on four cores and one
    point the first hydrostatic job is the empty range [0:0];
    [_common_delay] raises on it inside its thread, the slot stays [None]
    and [np.concatenate] raises, whatever the interleaving. The
    sequential call on the same point returns. *)
Lemma parallel_raises_on_empty_chunk (sched : list nat) (p : Delay.point) :
  Delay.delay_from_grid zref cosd sind lla2ecef 4 sched weather [p]
    Delay.Zenith true true
  = Raise ValueError.
Proof.
  unfold Delay.delay_from_grid.
  change (Nat.div 4 2) with 2%nat. change (4 - 2)%nat with 2%nat.
  change (2 + 1)%nat with 3%nat. change (length [p]) with 1%nat.
  rewrite linspace_int_one_three.
  change (Delay.hjobs [0%Z; 0%Z; 1%Z] 2 ++ Delay.wjobs [0%Z; 0%Z; 1%Z] 2)
    with (@map Delay.job _ Ok
            [("hydro"%string, 0%Z, 0%Z); ("hydro"%string, 0%Z, 1%Z);
             ("wet"%string, 0%Z, 0%Z); ("wet"%string, 0%Z, 1%Z)]).
  set (jobs := [("hydro"%string, 0%Z, 0%Z); ("hydro"%string, 0%Z, 1%Z);
                ("wet"%string, 0%Z, 0%Z); ("wet"%string, 0%Z, 1%Z)]).
  destruct (parmap_slots_safe
              (Delay.go zref cosd sind lla2ecef weather [p] true)
              jobs Delay.Zenith 4
              (go_zenith_keeps_store [p] true jobs) sched)
    as [ans [Hpm [Hlen Hslot]]].
  rewrite Hpm.
  cbn [bind fst].
  destruct ans as [|a0 ans]; [discriminate|].
  destruct a0 as [d|].
  - exfalso. destruct (Hslot 0%nat d eq_refl) as [x [Hx Ho]].
    cbn in Hx. inversion Hx; subst x. discriminate Ho.
  - destruct ans as [|a1 ans]; [discriminate|]. reflexivity.
Qed.

End ParallelFacts.

(** * Further properties *)

(** ** The offset table of [_common_delay] *)

Section SlicingFacts.

Local Open Scope R_scope.

Lemma roll1_set0 {A : Type} (l : list A) (v : A) :
  l <> [] -> Np.set0 v (Np.roll1 l) = Ok (v :: removelast l).
Proof.
  intros Hne. destruct (exists_last Hne) as [l' [x ->]].
  unfold Np.roll1. rewrite rev_app_distr. cbn [rev app Np.set0].
  now rewrite rev_involutive, removelast_last.
Qed.

Lemma cumsum_from_nonempty (a : Z) (l : list Z) :
  l <> [] -> Np.cumsum_from a l <> [].
Proof. destruct l; [congruence | discriminate]. Qed.

(** The table is the exclusive running sum of the sample counts. *)
Lemma indices_of_explicit (steps : list Z) :
  steps <> [] ->
  Delay.indices_of steps = Ok (0%Z :: removelast (Np.cumsum steps)).
Proof.
  intros Hne. unfold Delay.indices_of.
  apply roll1_set0. now apply cumsum_from_nonempty.
Qed.

Lemma prefix_nth (steps : list Z) :
  forall (a : Z) (i : nat),
    (i < length steps)%nat ->
    nth_error (a :: removelast (Np.cumsum_from a steps)) i
    = Some (a + fold_right Z.add 0 (firstn i steps))%Z.
Proof.
  induction steps as [|x t IH]; intros a i Hi; [cbn in Hi; lia|].
  destruct i as [|i].
  - cbn. f_equal. lia.
  - cbn [Np.cumsum_from]. destruct t as [|y t'].
    + cbn in Hi. lia.
    + change (removelast ((a + x)%Z :: Np.cumsum_from (a + x) (y :: t')))
        with ((a + x)%Z :: removelast (Np.cumsum_from (a + x) (y :: t'))).
      cbn [nth_error]. rewrite IH by (cbn in *; lia).
      cbn [firstn fold_right]. f_equal. lia.
Qed.

Lemma skipn_concat {A : Type} (blocks : list (list A)) :
  forall (i : nat) (b : list A),
    nth_error blocks i = Some b ->
    skipn (list_sum (map (@length A) (firstn i blocks))) (concat blocks)
    = b ++ concat (skipn (S i) blocks).
Proof.
  induction blocks as [|c rest IH]; intros i b Hi.
  - destruct i; discriminate.
  - destruct i as [|i]; cbn in Hi.
    + inversion Hi; subst. reflexivity.
    + cbn [firstn map concat].
      change (list_sum (length c :: map (@length A) (firstn i rest)))
        with (length c + list_sum (map (@length A) (firstn i rest)))%nat.
      rewrite skipn_app, (skipn_all2 c) by lia.
      replace (length c + list_sum (map (@length A) (firstn i rest)) - length c)%nat
        with (list_sum (map (@length A) (firstn i rest))) by lia.
      cbn [app]. now apply IH.
Qed.

(** Cutting block [i] out of the flat buffer gives block [i] back. *)
Lemma slice_block {A : Type} (blocks : list (list A)) (i : nat)
    (b : list A) (s n : Z) :
  nth_error blocks i = Some b ->
  Z.to_nat s = list_sum (map (@length A) (firstn i blocks)) ->
  Z.to_nat n = length b ->
  Np.slice s n (concat blocks) = b.
Proof.
  intros Hi Hs Hn. unfold Np.slice.
  rewrite Hs, (skipn_concat blocks i b Hi), Hn.
  rewrite firstn_app, firstn_all, Nat.sub_diag. cbn. apply app_nil_r.
Qed.

Lemma to_nat_sum (l : list Z) :
  Forall (fun z => (0 <= z)%Z) l ->
  (0 <= fold_right Z.add 0 l)%Z /\
  Z.to_nat (fold_right Z.add 0%Z l) = list_sum (map Z.to_nat l).
Proof.
  induction 1 as [|z l Hz _ [IH1 IH2]]; [split; [cbn; lia | reflexivity]|].
  cbn [fold_right map]. split; [lia|].
  rewrite Z2Nat.inj_add by lia. rewrite IH2. reflexivity.
Qed.

Lemma steps_nonneg (lv : list Delay.vec3) :
  Forall (fun z => (0 <= z)%Z) (Delay.steps_of (Delay.lengths_of lv)).
Proof.
  unfold Delay.steps_of. apply Forall_forall. intros z Hz.
  apply in_map_iff in Hz. destruct Hz as [L [<- HL]].
  apply ceil_nonneg.
  pose proof (lengths_nonneg lv) as Hn.
  rewrite Forall_forall in Hn. specialize (Hn L HL).
  unfold Delay._step. lra.
Qed.

End SlicingFacts.

(** ** [_common_delay] with a pointwise interpolator *)

Section PointwiseDelay.

Local Open Scope R_scope.

Variable zref : R.
Variables cosd sind : R -> R.
Variable lla2ecef : R -> R -> R -> Delay.vec3.

Lemma removelast_length {A : Type} (l : list A) :
  length (removelast l) = Nat.pred (length l).
Proof.
  rewrite removelast_firstn_len, length_firstn. lia.
Qed.

Lemma Forall_firstn_of {A : Type} (P : A -> Prop) (l : list A) (n : nat) :
  Forall P l -> Forall P (firstn n l).
Proof.
  intros H. revert n. induction H as [|x l Hx _ IH]; intros [|n]; cbn;
    constructor; auto.
Qed.

Lemma positions_l_nth (pts : list Delay.point) (lv : list Delay.vec3)
    (tps : list (list R)) (i : nat) (p : Delay.point) (v : Delay.vec3)
    (ts : list R) :
  nth_error pts i = Some p ->
  nth_error lv i = Some v ->
  nth_error tps i = Some ts ->
  nth_error (Delay.positions_l lla2ecef pts lv tps) i
  = Some (Delay.position (Delay.start_position lla2ecef p)
            (Delay.vdiv v (Delay.norm v)) ts).
Proof.
  revert pts lv tps.
  induction i as [|i IH]; intros [|p' pts] [|v' lv] [|ts' tps];
    cbn; try discriminate.
  - intros [= ->] [= ->] [= ->]. reflexivity.
  - apply IH.
Qed.

Lemma positions_l_lengths (pts : list Delay.point) (lv : list Delay.vec3)
    (tps : list (list R)) :
  length lv = length pts ->
  length tps = length pts ->
  map (@length Delay.vec3) (Delay.positions_l lla2ecef pts lv tps)
  = map (@length R) tps.
Proof.
  revert lv tps. induction pts as [|p pts IH]; intros [|v lv] [|ts tps];
    cbn; try discriminate; try reflexivity.
  intros [= H1] [= H2]. f_equal; [|now apply IH].
  unfold Delay.position. apply length_map.
Qed.

(** When the interpolator works point by point, the delay of ray [i] is
    the trapezoidal integral of its values at the positions of ray [i],
    and of no other ray: the offsets cut the flat buffer where the rays
    begin. *)
Lemma common_delay_pointwise (g : Delay.vec3 -> R) (pts : list Delay.point)
    (los : Delay.los_t) (lv : list Delay.vec3) :
  Delay.look_vecs_of zref cosd sind pts los true = Ok lv ->
  length lv = length pts ->
  pts <> [] ->
  exists d,
    Delay._common_delay zref cosd sind lla2ecef (map g) pts los true
    = Ok (d, Delay.look_vecs_after los true lv) /\
    length d = length pts /\
    forall i p v,
      nth_error pts i = Some p ->
      nth_error lv i = Some v ->
      nth_error d i
      = Some (1e-6 * Np.trapz
                       (map g (Delay.position
                                 (Delay.start_position lla2ecef p)
                                 (Delay.vdiv v (Delay.norm v))
                                 (DelayMore.ray_ts (Delay.norm v))))
                       (DelayMore.ray_ts (Delay.norm v))).
Proof.
  intros Hlv Hlen Hne.
  set (lengths := Delay.lengths_of lv).
  set (steps := Delay.steps_of lengths).
  set (tps := map DelayMore.ray_ts lengths).
  assert (Hsteps_len : length steps = length pts).
  { unfold steps, Delay.steps_of, lengths, Delay.lengths_of.
    now rewrite !length_map. }
  assert (Htps_len : length tps = length pts).
  { unfold tps, lengths, Delay.lengths_of. now rewrite !length_map. }
  assert (Hsteps_ne : steps <> []).
  { intros E. rewrite E in Hsteps_len. destruct pts; [congruence | discriminate]. }
  unfold Delay._common_delay. cbn [Delay.correction_of bind].
  rewrite Hlv. cbn [bind]. fold lengths. fold steps.
  rewrite (indices_of_explicit steps Hsteps_ne). cbn [bind].
  unfold steps at 1. unfold lengths at 1 2.
  rewrite (t_points_l_ok _ (lengths_nonneg lv)). cbn [bind].
  fold lengths. fold steps. change (map _ lengths) with tps.
  cbn [Delay.apply_correction bind].
  eexists. split; [reflexivity|]. split.
  - rewrite integrate_length; [exact Hsteps_len | | congruence].
    cbn [length]. rewrite removelast_length. unfold Np.cumsum.
    rewrite cumsum_from_length. destruct steps; [congruence | reflexivity].
  - intros i p v Hp Hv.
    assert (HL : nth_error lengths i = Some (Delay.norm v)).
    { unfold lengths, Delay.lengths_of. now apply map_nth_error. }
    assert (Hts : nth_error tps i = Some (DelayMore.ray_ts (Delay.norm v))).
    { unfold tps. exact (map_nth_error DelayMore.ray_ts _ _ HL). }
    assert (Hst : nth_error steps i
                  = Some (Np.ceil (Delay.norm v / Delay._step))).
    { unfold steps. now apply steps_of_nth_error. }
    assert (Hi : (i < length steps)%nat).
    { apply nth_error_Some. congruence. }
    rewrite (integrate_nth_error _ _ _ _ i _ _ _
               (prefix_nth steps 0%Z i Hi) Hst Hts).
    f_equal. f_equal. f_equal.
    rewrite concat_map.
    apply (slice_block _ i).
    + apply map_nth_error. now apply positions_l_nth.
    + rewrite Z.add_0_l. subst tps steps lengths.
      rewrite (proj2 (to_nat_sum _ (Forall_firstn_of _ _ i (steps_nonneg lv)))).
      rewrite <- !firstn_map. f_equal.
      rewrite map_map.
      rewrite (map_ext _ (@length Delay.vec3))
        by (intros b; apply length_map).
      rewrite positions_l_lengths by congruence.
      unfold Delay.steps_of. rewrite !map_map. f_equal.
      apply map_ext. intros L. unfold DelayMore.ray_ts.
      now rewrite linspace_nat_length.
    + rewrite length_map. unfold Delay.position. rewrite length_map.
      unfold DelayMore.ray_ts. now rewrite linspace_nat_length.
Qed.

End PointwiseDelay.

Section DelayProperties.

Local Open Scope R_scope.

Variable zref : R.
Variables cosd sind : R -> R.
Variable lla2ecef : R -> R -> R -> Delay.vec3.

(** X1: with an interpolator that works point by point, and look
    vectors that exist (no explicit row with third component 0),
    [_common_delay] returns one delay per point, and the delay of ray i
    is 1e-6 times the trapezoidal integral of the interpolated values at
    the sample positions of ray i only. *)
Theorem delay_integrates_own_samples (g : Delay.vec3 -> R)
    (pts : list Delay.point) (los : Delay.los_t) (lv : list Delay.vec3) :
  Delay.look_vecs_of zref cosd sind pts los true = Ok lv ->
  length lv = length pts ->
  pts <> [] ->
  exists d,
    Delay._common_delay zref cosd sind lla2ecef (map g) pts los true
    = Ok (d, Delay.look_vecs_after los true lv) /\
    length d = length pts /\
    forall i p v,
      nth_error pts i = Some p ->
      nth_error lv i = Some v ->
      nth_error d i
      = Some (1e-6 * Np.trapz
                       (map g (Delay.position
                                 (Delay.start_position lla2ecef p)
                                 (Delay.vdiv v (Delay.norm v))
                                 (DelayMore.ray_ts (Delay.norm v))))
                       (DelayMore.ray_ts (Delay.norm v))).
Proof. apply common_delay_pointwise. Qed.

Lemma trapz_const (N : R) (ts : list R) :
  Np.trapz (map (fun _ => N) ts) ts = N * (last ts 0 - hd 0 ts).
Proof.
  induction ts as [|x0 [|x1 xs] IH].
  - cbn. lra.
  - cbn. lra.
  - cbn [map]. rewrite trapz_step. cbn [map] in IH. rewrite IH.
    change (last (x0 :: x1 :: xs) 0) with (last (x1 :: xs) 0).
    cbn [hd]. lra.
Qed.

Lemma trapz_const_positions (N : R) (start scaled : Delay.vec3)
    (ts : list R) :
  Np.trapz (map (fun _ => N) (Delay.position start scaled ts)) ts
  = N * (last ts 0 - hd 0 ts).
Proof.
  unfold Delay.position. rewrite map_map. apply trapz_const.
Qed.

Lemma ray_ts_span_long (L : R) :
  Delay._step < L ->
  last (DelayMore.ray_ts L) 0 - hd 0 (DelayMore.ray_ts L) = L.
Proof.
  intros HL. unfold DelayMore.ray_ts.
  assert (H2 : (2 <= Np.ceil (L / Delay._step))%Z).
  { apply ceil_gt_1. unfold Delay._step in *. lra. }
  destruct (Z.to_nat (Np.ceil (L / Delay._step))) as [|[|k]] eqn:E; try lia.
  rewrite linspace_nat_last. cbn. lra.
Qed.

Lemma ray_ts_span_short (L : R) :
  0 <= L -> L <= Delay._step ->
  last (DelayMore.ray_ts L) 0 - hd 0 (DelayMore.ray_ts L) = 0.
Proof.
  intros H0 H1. unfold DelayMore.ray_ts.
  destruct (Rle_lt_or_eq_dec _ _ H0) as [Hpos|<-].
  - rewrite (ceil_one_of_short L Hpos H1).
    change (Z.to_nat 1) with 1%nat. cbn [Np.linspace_nat last hd]. lra.
  - rewrite zero_ray_steps.
    change (Z.to_nat 0) with 0%nat. cbn [Np.linspace_nat last hd]. lra.
Qed.

(** X2: where the interpolated refractivity is 0 everywhere, every ray
    of a call whose look vectors exist gets delay 0. *)
Theorem zero_refractivity_zero_delay (pts : list Delay.point)
    (los : Delay.los_t) (lv : list Delay.vec3) :
  Delay.look_vecs_of zref cosd sind pts los true = Ok lv ->
  length lv = length pts ->
  pts <> [] ->
  Delay._common_delay zref cosd sind lla2ecef (map (fun _ => 0)) pts los true
  = Ok (map (fun _ => 0) pts, Delay.look_vecs_after los true lv).
Proof.
  intros Hlv Hlen Hne.
  destruct (common_delay_pointwise zref cosd sind lla2ecef (fun _ => 0)
              pts los lv Hlv Hlen Hne) as [d [-> [Hd Hi]]].
  f_equal. f_equal. apply nth_error_ext. intros i.
  rewrite nth_error_map.
  destruct (nth_error pts i) as [p|] eqn:Ep.
  - destruct (nth_error_in_range lv i) as [v Hv].
    { rewrite Hlen. apply nth_error_Some. congruence. }
    rewrite (Hi i p v Ep Hv), trapz_const_positions. cbn [option_map].
    f_equal. ring.
  - cbn [option_map]. apply nth_error_None. rewrite Hd.
    now apply nth_error_None.
Qed.

(** X3: where the interpolated refractivity is the constant N, in a
    call whose look vectors exist, a ray longer than the step gets delay
    1e-6 * N * L exactly (the trapezoidal rule is exact), while a ray no
    longer than the step gets delay 0. *)
Theorem constant_refractivity_delay (N : R) (pts : list Delay.point)
    (los : Delay.los_t) (lv : list Delay.vec3) (i : nat)
    (p : Delay.point) (v : Delay.vec3) :
  Delay.look_vecs_of zref cosd sind pts los true = Ok lv ->
  length lv = length pts ->
  nth_error pts i = Some p ->
  nth_error lv i = Some v ->
  exists d,
    Delay._common_delay zref cosd sind lla2ecef (map (fun _ => N)) pts los true
    = Ok (d, Delay.look_vecs_after los true lv) /\
    (Delay._step < Delay.norm v ->
     nth_error d i = Some (1e-6 * N * Delay.norm v)) /\
    (Delay.norm v <= Delay._step -> nth_error d i = Some 0).
Proof.
  intros Hlv Hlen Hp Hv.
  assert (Hne : pts <> []) by (intros ->; destruct i; discriminate).
  destruct (common_delay_pointwise zref cosd sind lla2ecef (fun _ => N)
              pts los lv Hlv Hlen Hne) as [d [Hd [_ Hi]]].
  exists d. split; [exact Hd|].
  rewrite (Hi i p v Hp Hv), trapz_const_positions.
  split; intros HL.
  - rewrite ray_ts_span_long by exact HL. f_equal. ring.
  - rewrite ray_ts_span_short by (try apply norm_nonneg; exact HL).
    f_equal. ring.
Qed.

(** X4: a query without points raises [IndexError] in the sequential
    path, whatever the form of the line of sight. *)
Theorem no_points_raise (cpu_count : nat) (sched : list nat)
    (weather : Delay.weather_t) (a : list R) :
  Delay.delay_from_grid zref cosd sind lla2ecef cpu_count sched weather []
    Delay.Zenith false true = Raise IndexError /\
  Delay.delay_from_grid zref cosd sind lla2ecef cpu_count sched weather []
    (Delay.LosVecs []) false true = Raise IndexError /\
  Delay.delay_from_grid zref cosd sind lla2ecef cpu_count sched weather []
    (Delay.LosAngles a) false false = Raise IndexError.
Proof. repeat split; reflexivity. Qed.

(** X5: without ray tracing the result is the zenith delay of each
    point multiplied by 1/cosd of its incidence angle, and the array of
    angles is left as it was. *)
Theorem secant_of_zenith_delay (delay : list Delay.vec3 -> list R)
    (pts : list Delay.point) (a d : list R) :
  length a = length pts ->
  Delay._common_delay zref cosd sind lla2ecef delay pts Delay.Zenith true
  = Ok (d, Delay.Zenith) ->
  Delay._common_delay zref cosd sind lla2ecef delay pts (Delay.LosAngles a)
    false
  = Ok (Np.map2 Rmult d (map (fun x => 1 / cosd x) a), Delay.LosAngles a).
Proof.
  intros Ha. unfold Delay._common_delay.
  cbn [Delay.correction_of Delay.look_vecs_of bind Delay.look_vecs_after].
  set (lv := map (Delay.zenith_look_vec zref cosd sind) pts).
  destruct (Delay.indices_of (Delay.steps_of (Delay.lengths_of lv)))
    as [indices|e] eqn:Ei; [|discriminate].
  cbn [bind]. rewrite (t_points_l_ok _ (lengths_nonneg lv)). cbn [bind].
  cbn [Delay.apply_correction bind]. intros [= <-].
  assert (Hne : Delay.steps_of (Delay.lengths_of lv) <> []).
  { intros E. rewrite E in Ei. discriminate. }
  destruct (indices_of_ok _ Hne) as [ind' [Ei' Hlen]].
  rewrite Ei in Ei'. inversion Ei'; subst ind'. clear Ei'.
  match goal with
  | |- context [Delay.integrate ?w ?i ?s ?t] =>
      set (delays := Delay.integrate w i s t)
  end.
  assert (Hd : length delays = length pts).
  { unfold delays. rewrite integrate_length; [| exact Hlen |].
    - unfold Delay.steps_of, Delay.lengths_of, lv. now rewrite !length_map.
    - unfold Delay.steps_of. now rewrite !length_map. }
  rewrite length_map, Ha, Hd, Nat.eqb_refl. cbn [orb bind].
  f_equal. f_equal.
  destruct a as [|k [|k' a']]; try reflexivity.
  cbn [map]. destruct delays as [|x [|y delays']]; try reflexivity.
  cbn in Hd, Ha. lia.
Qed.

End DelayProperties.

Section DelayRuns.

Local Open Scope R_scope.

(** X1, witness: one zenith ray from height 14997 m, refractivity 300. *)
Lemma delay_integrates_own_samples_witness :
  exists d,
    Delay._common_delay Util.zref Util.cosd Util.sind
      (fun _ _ _ => Delay.V3 0 0 0) (map (fun _ => 300)) [(0, 0, 14997)]
      Delay.Zenith true
    = Ok (d, Delay.Zenith) /\
    length d = length [(0, 0, 14997)] /\
    forall i p v,
      nth_error [(0, 0, 14997)] i = Some p ->
      nth_error
        [Delay.zenith_look_vec Util.zref Util.cosd Util.sind (0, 0, 14997)] i
      = Some v ->
      nth_error d i
      = Some (1e-6 * Np.trapz
                       (map (fun _ => 300)
                            (Delay.position
                               (Delay.start_position
                                  (fun _ _ _ => Delay.V3 0 0 0) p)
                               (Delay.vdiv v (Delay.norm v))
                               (DelayMore.ray_ts (Delay.norm v))))
                       (DelayMore.ray_ts (Delay.norm v))).
Proof.
  apply (delay_integrates_own_samples Util.zref Util.cosd Util.sind
           (fun _ _ _ => Delay.V3 0 0 0) (fun _ => 300) [(0, 0, 14997)]
           Delay.Zenith
           [Delay.zenith_look_vec Util.zref Util.cosd Util.sind (0, 0, 14997)]);
    [reflexivity | reflexivity | discriminate].
Defined.

(** X2, witness: the same ray in a dry atmosphere. *)
Lemma zero_refractivity_zero_delay_witness :
  Delay._common_delay Util.zref Util.cosd Util.sind
    (fun _ _ _ => Delay.V3 0 0 0) (map (fun _ => 0)) [(0, 0, 14997)]
    Delay.Zenith true
  = Ok (map (fun _ => 0) [(0, 0, 14997)],
        Delay.Zenith).
Proof.
  apply (zero_refractivity_zero_delay Util.zref Util.cosd Util.sind
           (fun _ _ _ => Delay.V3 0 0 0) [(0, 0, 14997)] Delay.Zenith
           [Delay.zenith_look_vec Util.zref Util.cosd Util.sind (0, 0, 14997)]);
    [reflexivity | reflexivity | discriminate].
Defined.

(** X3, witness: the same ray, 3 m long, in refractivity 300. *)
Lemma constant_refractivity_delay_witness :
  let v := Delay.zenith_look_vec Util.zref Util.cosd Util.sind (0, 0, 14997) in
  exists d,
    Delay._common_delay Util.zref Util.cosd Util.sind
      (fun _ _ _ => Delay.V3 0 0 0) (map (fun _ => 300)) [(0, 0, 14997)]
      Delay.Zenith true
    = Ok (d, Delay.Zenith) /\
    (Delay._step < Delay.norm v ->
     nth_error d 0 = Some (1e-6 * 300 * Delay.norm v)) /\
    (Delay.norm v <= Delay._step -> nth_error d 0 = Some 0).
Proof.
  apply (constant_refractivity_delay Util.zref Util.cosd Util.sind
           (fun _ _ _ => Delay.V3 0 0 0) 300 [(0, 0, 14997)] Delay.Zenith
           [Delay.zenith_look_vec Util.zref Util.cosd Util.sind (0, 0, 14997)]
           0 (0, 0, 14997));
    reflexivity.
Defined.

(** X5, witness: one point seen at incidence angle 0. *)
Lemma secant_of_zenith_delay_witness :
  exists d,
    Delay._common_delay Util.zref Util.cosd Util.sind
      (fun _ _ _ => Delay.V3 0 0 0) (map (fun _ => 300)) [(0, 0, 14997)]
      (Delay.LosAngles [0]) false
    = Ok (Np.map2 Rmult d (map (fun x => 1 / Util.cosd x) [0]),
          Delay.LosAngles [0]).
Proof.
  destruct (common_delay_zenith_ok Util.zref Util.cosd Util.sind
              (fun _ _ _ => Delay.V3 0 0 0) (map (fun _ => 300))
              (0, 0, 14997) []) as [d [Hd _]].
  exists d.
  apply (secant_of_zenith_delay Util.zref Util.cosd Util.sind
           (fun _ _ _ => Delay.V3 0 0 0) (map (fun _ => 300))
           [(0, 0, 14997)] [0] d);
    [reflexivity | exact Hd].
Defined.

End DelayRuns.

(** ** More on the thread pool *)

Section PoolProperties.

Import Delay.

Context {J A S : Type}.
Variable f : J -> S -> result (A * S).

(** X7: with at least one thread, when no job raises and every job
    hands the shared store back unchanged, [_parmap] returns the results
    of the jobs in the order of the jobs, whatever the interleaving of
    the threads. *)
Theorem parmap_returns_results_in_job_order (jobs : list J) (st : S)
    (n_threads : nat) (sched : list nat) :
  keeps_store f st jobs ->
  (forall x, In x jobs -> outcome f st x <> None) ->
  (1 <= n_threads)%nat ->
  _parmap f n_threads sched (map Ok jobs) st
  = Ok (map (outcome f st) jobs, st).
Proof.
  intros Hk Ht Hn. now apply parmap_any_schedule.
Qed.

End PoolProperties.

Section PoolRuns.

Import Delay.

(** X7, witness: three doubling jobs on two threads. *)
Lemma parmap_returns_results_in_job_order_witness :
  _parmap (fun (j : nat) (s : unit) => Ok ((2 * j)%nat, s)) 2 [1; 0; 1; 1]%nat
    (map Ok [1; 2; 3]%nat) tt
  = Ok ([Some 2; Some 4; Some 6]%nat, tt).
Proof.
  apply (parmap_returns_results_in_job_order
           (fun (j : nat) (s : unit) => Ok ((2 * j)%nat, s))
           [1; 2; 3]%nat tt 2 [1; 0; 1; 1]%nat).
  - intros x a st' _ H. now inversion H.
  - intros x _. discriminate.
  - lia.
Defined.

End PoolRuns.

Section PoolSlots.

Import Delay.

Context {J A S : Type}.
Variable f : J -> S -> result (A * S).
Variable jobs : list J.

Lemma pop_slot (p : pool) (i : nat) (x : J) (rest : list (nat * J)) :
  DelayMore.slots_inv f jobs p ->
  q p = (i, x) :: rest ->
  i = taken jobs p /\ nth_error jobs i = Some x /\
  rest = skipn (Datatypes.S i) (enumerated jobs) /\
  (Datatypes.S i = length jobs - length rest)%nat.
Proof.
  intros Hinv Hq. destruct (DelayMore.sl_queue _ _ _ Hinv) as [Hle Hsk].
  rewrite Hq in Hsk. symmetry in Hsk.
  apply skipn_cons_inv in Hsk. destruct Hsk as [Hn Hrest].
  apply enumerated_nth in Hn. destruct Hn as [-> Hx].
  split; [reflexivity|]. split; [exact Hx|]. split; [exact Hrest|].
  unfold taken in *. rewrite Hq in *. cbn [length] in *. lia.
Qed.

Lemma step_slots (w : nat) (p : pool) :
  DelayMore.slots_inv f jobs p -> DelayMore.slots_inv f jobs (step f w p).
Proof.
  intros Hinv. unfold step.
  destruct (nth_error (threads p) w) as [[|i x|]|] eqn:Ew; try exact Hinv.
  - destruct (q p) as [|[i x] rest] eqn:Eq.
    + destruct Hinv as [H2 H4 H5 H6].
      constructor; cbn [store answers threads q]; try assumption.
      * unfold taken in *. cbn [q]. rewrite Eq in H5. exact H5.
      * intros w' i x Hw'. apply nth_error_set_nth in Hw'.
        destruct Hw' as [[_ Hw']|[_ Hw']]; [discriminate|].
        apply H6 in Hw'. unfold taken in *. cbn [q]. rewrite Eq in Hw'.
        exact Hw'.
    + destruct (pop_slot p i x rest Hinv Eq) as [Hi [Hx [Hrest Hlen]]].
      destruct Hinv as [H2 H4 H5 H6].
      constructor; cbn [store answers threads q]; try assumption.
      * unfold taken. cbn [q]. rewrite <- Hlen. split; [lia | exact Hrest].
      * intros w' i' x' Hw'. unfold taken. cbn [q]. rewrite <- Hlen.
        apply nth_error_set_nth in Hw'.
        destruct Hw' as [[_ Hw']|[_ Hw']].
        -- inversion Hw'; subst. split; [lia | exact Hx].
        -- apply H6 in Hw'. destruct Hw' as [Hlt Hx'].
           split; [lia | exact Hx'].
  - destruct (DelayMore.sl_holding _ _ _ Hinv w i x Ew) as [Hlt Hx].
    destruct (f x (store p)) as [[a st']|e] eqn:Ef.
    + destruct Hinv as [H2 H4 H5 H6].
      constructor; cbn [store answers threads q]; try assumption.
      * now rewrite set_nth_length.
      * intros i' a' Hi'. apply nth_error_set_nth in Hi'.
        destruct Hi' as [[-> Ha]|[_ Hi']].
        -- inversion Ha; subst. exists x, (store p), st'.
           split; [exact Hx | exact Ef].
        -- now apply H4.
      * intros w' i' x' Hw'. apply nth_error_set_nth in Hw'.
        destruct Hw' as [[_ Hw']|[_ Hw']]; [discriminate|].
        exact (H6 _ _ _ Hw').
    + destruct Hinv as [H2 H4 H5 H6].
      constructor; cbn [store answers threads q]; try assumption.
      intros w' i' x' Hw'. apply nth_error_set_nth in Hw'.
      destruct Hw' as [[_ Hw']|[_ Hw']]; [discriminate|].
      exact (H6 _ _ _ Hw').
Qed.

Lemma run_slots (sched : list nat) (p : pool) :
  DelayMore.slots_inv f jobs p -> DelayMore.slots_inv f jobs (run f sched p).
Proof.
  revert p. induction sched as [|w sched IH]; intros p Hinv; [exact Hinv|].
  cbn [run fold_left]. apply IH. now apply step_slots.
Qed.

Lemma run_thread_slots (fuel w : nat) (p : pool) :
  DelayMore.slots_inv f jobs p ->
  DelayMore.slots_inv f jobs (run_thread f fuel w p).
Proof.
  revert p. induction fuel as [|fuel IH]; intros p Hinv; [exact Hinv|].
  cbn [run_thread]. apply IH. now apply step_slots.
Qed.

Lemma join_all_slots (p : pool) :
  DelayMore.slots_inv f jobs p -> DelayMore.slots_inv f jobs (join_all f p).
Proof.
  unfold join_all. generalize (seq 0 (length (threads p))) as ws.
  intros ws. revert p. induction ws as [|w ws IH]; intros p Hinv;
    [exact Hinv|].
  cbn [fold_left]. apply IH. now apply run_thread_slots.
Qed.

Lemma init_slots (st : S) (n_threads : nat) :
  DelayMore.slots_inv f jobs
    (Pool (enumerated jobs) (map (fun _ => None) (enumerated jobs)) st
          (repeat Idle n_threads)).
Proof.
  constructor; cbn [store answers threads q].
  - now rewrite length_map, enumerated_length.
  - intros i a H. rewrite nth_error_map in H.
    destruct (nth_error (enumerated jobs) i); discriminate.
  - unfold taken. cbn [q]. rewrite enumerated_length, Nat.sub_diag.
    split; [lia | reflexivity].
  - intros w i x H. apply nth_error_In, repeat_spec in H. discriminate.
Qed.

(** X8: whatever the jobs do to the shared state, whatever the
    interleaving and whichever jobs raise, [_parmap] returns one slot per
    job, and the slot of a job holds [None] or what that very job
    returned from some state of the shared store: no thread writes into
    the slot of another job. *)
Theorem parmap_slots_are_disjoint (st : S) (n_threads : nat)
    (sched : list nat) :
  exists ans st',
    _parmap f n_threads sched (map Ok jobs) st = Ok (ans, st') /\
    length ans = length jobs /\
    forall i x,
      nth_error jobs i = Some x ->
      nth_error ans i = Some None \/
      exists a s s', nth_error ans i = Some (Some a) /\ f x s = Ok (a, s').
Proof.
  unfold _parmap. rewrite enumerate_from_oks. cbn [bind].
  fold (enumerated jobs).
  pose proof (join_all_slots _ (run_slots sched _ (init_slots st n_threads)))
    as Hinv.
  do 2 eexists. split; [reflexivity|].
  split; [apply (DelayMore.sl_answers _ _ _ Hinv)|].
  intros i x Hx.
  match goal with
  | |- context [nth_error ?ans i] =>
      destruct (nth_error ans i) as [[a|]|] eqn:Ea
  end.
  - right. destruct (DelayMore.sl_slot _ _ _ Hinv i a Ea)
      as (x' & s & s' & Hx' & Hf).
    exists a, s, s'. split; [reflexivity|]. congruence.
  - now left.
  - exfalso. apply nth_error_None in Ea.
    rewrite (DelayMore.sl_answers _ _ _ Hinv) in Ea.
    assert (i < length jobs)%nat by (apply nth_error_Some; congruence).
    lia.
Qed.

End PoolSlots.

Section TwoCores.

Local Open Scope R_scope.

(** X9: on a machine with two cores, a zenith query over any non-empty
    list of points gets from the parallel path exactly what it gets from
    the sequential path, whatever the interleaving of the two threads. *)
Theorem two_cores_parallel_is_sequential (zref : R) (cosd sind : R -> R)
    (lla2ecef : R -> R -> R -> Delay.vec3) (weather : Delay.weather_t)
    (sched : list nat) (p : Delay.point) (pts : list Delay.point) :
  Delay.delay_from_grid zref cosd sind lla2ecef 2 sched weather
    (p :: pts) Delay.Zenith true true
  = Delay.delay_from_grid zref cosd sind lla2ecef 2 sched weather
      (p :: pts) Delay.Zenith false true.
Proof. apply parallel_equals_sequential_two_cores. Qed.

End TwoCores.

(** ** Times and coordinates accepted by the model *)

Section TimeAndCoordinates.

Import WeatherModel.

Local Open Scope R_scope.

(** X10: for a model whose valid range starts at a date, [checkTime]
    returns without raising exactly when the query time is not before
    that date, not after the end of the range when the end is a date, and
    not inside the lag window. *)
Theorem checkTime_accepts_iff (now time : Z) (w : world) (l : Z)
    (hi : bound) (rest : list bound) :
  _valid_range (self w) = Date l :: hi :: rest ->
  fst (checkTime now time w) = Ok tt <->
  ((l <= time)%Z /\
   (forall h, hi = Date h -> (time <= h)%Z) /\
   (time <= now - _lag_time (self w))%Z).
Proof.
  intros Hvr.
  unfold checkTime, bindM, get_self, lift, ret, raise, index.
  rewrite Hvr. cbn [nth_error].
  destruct (Z.ltb_spec time l) as [Hlt|Hge].
  { cbn [fst]. split; [discriminate | intros [H _]; lia]. }
  destruct hi as [h| |].
  - destruct (Z.ltb_spec h time) as [Hlt2|Hge2].
    { cbn [fst]. split; [discriminate|].
      intros [_ [H _]]. specialize (H h eq_refl). lia. }
    destruct (Z.gtb_spec time (now - _lag_time (self w))) as [Hgt|Hle];
      cbn [fst].
    + split; [discriminate | intros [_ [_ H]]; lia].
    + split; [|reflexivity]. intros _.
      split; [exact Hge|]. split; [|exact Hle].
      intros h' [= <-]. exact Hge2.
  - destruct (Z.gtb_spec time (now - _lag_time (self w))) as [Hgt|Hle];
      cbn [fst].
    + split; [discriminate | intros [_ [_ H]]; lia].
    + split; [|reflexivity]. intros _.
      split; [exact Hge|]. split; [discriminate | exact Hle].
  - destruct (Z.gtb_spec time (now - _lag_time (self w))) as [Hgt|Hle];
      cbn [fst].
    + split; [discriminate | intros [_ [_ H]]; lia].
    + split; [|reflexivity]. intros _.
      split; [exact Hge|]. split; [discriminate | exact Hle].
Qed.

Lemma clip_in_range (lo hi x : R) : lo <= hi -> lo <= clip lo hi x <= hi.
Proof.
  intros H. unfold clip, Rltb.
  destruct (Rlt_dec x lo); destruct (Rlt_dec hi lo); try lra;
    destruct (Rlt_dec hi x); lra.
Qed.

Lemma clip_fixed (lo hi x : R) : lo <= x <= hi -> clip lo hi x = x.
Proof.
  intros H. unfold clip, Rltb.
  destruct (Rlt_dec x lo); [lra|]. destruct (Rlt_dec hi x); [lra | reflexivity].
Qed.

(** X11: [checkLL] changes nothing in the object; it returns as many
    latitudes and longitudes as it was given, each latitude moved into
    [-90 + Nextra*lat_res, 90 - Nextra*lat_res] and left as it was when
    already there, and likewise each longitude, with the upper end
    lowered by one more cell for GMAO and MERRA2. *)
Theorem checkLL_clips (lats lons : list R) (Nextra : R) (w : world) :
  let m := self w in
  let extra := if String.eqb (_Name m) "GMAO" || String.eqb (_Name m) "MERRA2"
               then _lon_res m else 0 in
  let lat_lo := -90 + Nextra * _lat_res m in
  let lat_hi := 90 - Nextra * _lat_res m in
  let lon_lo := -180 + Nextra * _lon_res m in
  let lon_hi := 180 - Nextra * _lon_res m - extra in
  lat_lo <= lat_hi ->
  lon_lo <= lon_hi ->
  exists lats' lons',
    checkLL lats lons Nextra w = (Ok (lats', lons'), w) /\
    length lats' = length lats /\
    length lons' = length lons /\
    Forall (fun x => lat_lo <= x <= lat_hi) lats' /\
    Forall (fun x => lon_lo <= x <= lon_hi) lons' /\
    (forall i x, nth_error lats i = Some x -> lat_lo <= x <= lat_hi ->
                 nth_error lats' i = Some x) /\
    (forall i x, nth_error lons i = Some x -> lon_lo <= x <= lon_hi ->
                 nth_error lons' i = Some x).
Proof.
  intros m extra lat_lo lat_hi lon_lo lon_hi Hlat Hlon.
  unfold checkLL, bindM, get_self, ret. fold m.
  eexists. eexists. split; [reflexivity|].
  replace (-90 + Nextra * _lat_res m + 0) with lat_lo by (unfold lat_lo; ring).
  replace (90 - Nextra * _lat_res m - 0) with lat_hi by (unfold lat_hi; ring).
  replace (-180 + Nextra * _lon_res m + 0) with lon_lo by (unfold lon_lo; ring).
  fold extra. fold lon_hi.
  repeat split.
  - apply length_map.
  - apply length_map.
  - apply Forall_forall. intros x Hx. apply in_map_iff in Hx.
    destruct Hx as [y [<- _]]. now apply clip_in_range.
  - apply Forall_forall. intros x Hx. apply in_map_iff in Hx.
    destruct Hx as [y [<- _]]. now apply clip_in_range.
  - intros i x Hi Hx. rewrite nth_error_map, Hi. cbn [option_map].
    f_equal. now apply clip_fixed.
  - intros i x Hi Hx. rewrite nth_error_map, Hi. cbn [option_map].
    f_equal. now apply clip_fixed.
Qed.

(** X12: with a humidity type other than 'rh' and 'q', [_find_e] raises
    [RuntimeError] and leaves the object as it was: no vapour pressure is
    computed and the humidity fields are not cleared. *)
Theorem find_e_rejects_unknown_humidity (w : world) :
  _humidityType (self w) <> "rh"%string ->
  _humidityType (self w) <> "q"%string ->
  _find_e w
  = (Raise RuntimeError, World (self w) (disk w) (calls w ++ [CallFindE])).
Proof.
  intros Hrh Hq. unfold _find_e, bindM, record, get_self, raise.
  cbn [self disk calls].
  apply String.eqb_neq in Hrh. apply String.eqb_neq in Hq.
  now rewrite Hrh, Hq.
Qed.

End TimeAndCoordinates.

Section TimeAndCoordinatesRuns.

Import WeatherModel.

Local Open Scope R_scope.

(** X10, witness: the sample model, whose range is open-ended. *)
Lemma checkTime_accepts_iff_witness :
  fst (checkTime 1600000000 1577836800 sample_world) = Ok tt <->
  ((0 <= 1577836800)%Z /\
   (forall h, Present = Date h -> (1577836800 <= h)%Z) /\
   (1577836800 <= 1600000000 - _lag_time (self sample_world))%Z).
Proof.
  apply (checkTime_accepts_iff 1600000000 1577836800 sample_world 0
           Present []).
  reflexivity.
Defined.

(** X11, witness: a latitude beyond the pole and a longitude in range. *)
Lemma checkLL_clips_witness :
  exists lats' lons',
    checkLL [95; 10] [20] 2 sample_world = (Ok (lats', lons'), sample_world) /\
    length lats' = 2%nat /\
    length lons' = 1%nat.
Proof.
  destruct (checkLL_clips [95; 10] [20] 2 sample_world)
    as [lats' [lons' [H1 [H2 [H3 _]]]]].
  - lazy -[Rplus Rmult Rminus Rdiv Ropp Rinv IZR Rle]. lra.
  - lazy -[Rplus Rmult Rminus Rdiv Ropp Rinv IZR Rle]. lra.
  - exists lats', lons'. repeat split; assumption.
Defined.

(** X12, witness: specific humidity spelled 'sh'. *)
Lemma find_e_rejects_unknown_humidity_witness :
  _find_e WeatherModelMore.unknown_humidity_world
  = (Raise RuntimeError,
     World (self WeatherModelMore.unknown_humidity_world)
           (disk WeatherModelMore.unknown_humidity_world)
           (calls WeatherModelMore.unknown_humidity_world ++ [CallFindE])).
Proof.
  apply (find_e_rejects_unknown_humidity
           WeatherModelMore.unknown_humidity_world);
    discriminate.
Defined.

End TimeAndCoordinatesRuns.

(** ** Bounding boxes of the model *)

Section BoundingBoxes.

Import WeatherModel.

Local Open Scope R_scope.

Lemma fold_min_spec (t : list R) :
  forall x,
    (forall y, In y (x :: t) -> fold_left Rmin t x <= y) /\
    In (fold_left Rmin t x) (x :: t).
Proof.
  induction t as [|z t IH]; intros x.
  - cbn. split; [intros y [<-|[]]; lra | now left].
  - cbn [fold_left]. destruct (IH (Rmin x z)) as [Hle Hin]. split.
    + intros y [<-|[<-|Hy]].
      * eapply Rle_trans; [apply Hle; now left | apply Rmin_l].
      * eapply Rle_trans; [apply Hle; now left | apply Rmin_r].
      * apply Hle. now right.
    + destruct Hin as [E|Hin].
      * rewrite <- E. unfold Rmin. destruct (Rle_dec x z); [now left|].
        right. now left.
      * right. now right.
Qed.

Lemma fold_max_spec (t : list R) :
  forall x,
    (forall y, In y (x :: t) -> y <= fold_left Rmax t x) /\
    In (fold_left Rmax t x) (x :: t).
Proof.
  induction t as [|z t IH]; intros x.
  - cbn. split; [intros y [<-|[]]; lra | now left].
  - cbn [fold_left]. destruct (IH (Rmax x z)) as [Hle Hin]. split.
    + intros y [<-|[<-|Hy]].
      * eapply Rle_trans; [apply Rmax_l | apply Hle; now left].
      * eapply Rle_trans; [apply Rmax_r | apply Hle; now left].
      * apply Hle. now right.
    + destruct Hin as [E|Hin].
      * rewrite <- E. unfold Rmax. destruct (Rle_dec x z);
          [right; now left | now left].
      * right. now right.
Qed.

Lemma nanmin_spec (l : list R) :
  l <> [] ->
  exists a, nanmin l = Ok a /\ (forall y, In y l -> a <= y) /\ In a l.
Proof.
  destruct l as [|x t]; [congruence|]. intros _.
  destruct (fold_min_spec t x) as [H1 H2].
  exists (fold_left Rmin t x). split; [reflexivity|]. split; assumption.
Qed.

Lemma nanmax_spec (l : list R) :
  l <> [] ->
  exists a, nanmax l = Ok a /\ (forall y, In y l -> y <= a) /\ In a l.
Proof.
  destruct l as [|x t]; [congruence|]. intros _.
  destruct (fold_max_spec t x) as [H1 H2].
  exists (fold_left Rmax t x). split; [reflexivity|]. split; assumption.
Qed.

(** X13: for non-empty arrays of query latitudes and longitudes,
    [_get_ll_bounds] returns the bounding box of the points widened by
    Nextra cells on every side: every point is at least Nextra cells
    inside, and on each side some point is exactly Nextra cells inside.
    An empty array raises [ValueError]. *)
Theorem ll_bounds_enclose_points (lats lons : list R) (Nextra : R)
    (m : weather_model) :
  (lats = [] \/ lons = [] ->
   _get_ll_bounds (Some lats) (Some lons) Nextra m = Raise ValueError) /\
  (lats <> [] -> lons <> [] ->
   exists lat_min lat_max lon_min lon_max,
     _get_ll_bounds (Some lats) (Some lons) Nextra m
     = Ok (lat_min, lat_max, lon_min, lon_max) /\
     (forall x, In x lats ->
        lat_min + Nextra * _lat_res m <= x <= lat_max - Nextra * _lat_res m) /\
     (forall y, In y lons ->
        lon_min + Nextra * _lon_res m <= y <= lon_max - Nextra * _lon_res m) /\
     In (lat_min + Nextra * _lat_res m) lats /\
     In (lat_max - Nextra * _lat_res m) lats /\
     In (lon_min + Nextra * _lon_res m) lons /\
     In (lon_max - Nextra * _lon_res m) lons).
Proof.
  split.
  - intros [->| ->]; cbn [_get_ll_bounds]; unfold ll_of.
    + reflexivity.
    + destruct lats as [|x t]; [reflexivity|]. reflexivity.
  - intros Hlat Hlon. cbn [_get_ll_bounds]. unfold ll_of.
    destruct (nanmin_spec lats Hlat) as [a [-> [Ha1 Ha2]]].
    destruct (nanmax_spec lats Hlat) as [b [-> [Hb1 Hb2]]].
    destruct (nanmin_spec lons Hlon) as [c [-> [Hc1 Hc2]]].
    destruct (nanmax_spec lons Hlon) as [d [-> [Hd1 Hd2]]].
    cbn [bind]. do 4 eexists. split; [reflexivity|].
    split; [intros x Hx; specialize (Ha1 x Hx); specialize (Hb1 x Hx); lra|].
    split; [intros y Hy; specialize (Hc1 y Hy); specialize (Hd1 y Hy); lra|].
    replace (a - Nextra * _lat_res m + Nextra * _lat_res m) with a by ring.
    replace (b + Nextra * _lat_res m - Nextra * _lat_res m) with b by ring.
    replace (c - Nextra * _lon_res m + Nextra * _lon_res m) with c by ring.
    replace (d + Nextra * _lon_res m - Nextra * _lon_res m) with d by ring.
    repeat split; assumption.
Qed.

(** X13, witness: two latitudes and one longitude. *)
Lemma ll_bounds_enclose_points_witness :
  exists lat_min lat_max lon_min lon_max,
    _get_ll_bounds (Some [10; 12]) (Some [20]) 2 sample_model
    = Ok (lat_min, lat_max, lon_min, lon_max) /\
    (forall x, In x [10; 12] ->
       lat_min + 2 * _lat_res sample_model <= x
       <= lat_max - 2 * _lat_res sample_model).
Proof.
  destruct (ll_bounds_enclose_points [10; 12] [20] 2 sample_model)
    as [_ H].
  destruct (H ltac:(discriminate) ltac:(discriminate))
    as [a [b [c [d [H1 [H2 _]]]]]].
  exists a, b, c, d. split; assumption.
Defined.

(** X14: [_getExtent] returns an extent exactly when both arrays are
    non-empty, and then (for non-negative resolutions) every latitude and
    every longitude lies within it; with an empty array it raises
    [RuntimeError] or [ValueError]. *)
Theorem getExtent_encloses_points (lats lons : list R) (m : weather_model) :
  0 <= _lat_res m ->
  0 <= _lon_res m ->
  match WeatherModelMore._getExtent lats lons m with
  | Ok (a, b, c, d) =>
      lats <> [] /\ lons <> [] /\
      (forall x, In x lats -> a <= x <= b) /\
      (forall y, In y lons -> c <= y <= d)
  | Raise e =>
      (lats = [] \/ lons = []) /\ (e = RuntimeError \/ e = ValueError)
  end.
Proof.
  intros Hlat Hlon. unfold WeatherModelMore._getExtent.
  destruct lats as [|x [|x' lats]]; destruct lons as [|y [|y' lons]];
    cbn [length Nat.eqb Nat.ltb Nat.leb andb nanmin nanmax bind hd];
    try (split; [auto | auto]; fail).
  - (* one latitude, one longitude *)
    split; [discriminate|]. split; [discriminate|].
    split; intros z [<-|[]]; lra.
  - (* one latitude, several longitudes *)
    destruct (fold_min_spec (y' :: lons) y) as [Hc _].
    destruct (fold_max_spec (y' :: lons) y) as [Hd _].
    split; [discriminate|]. split; [discriminate|].
    split; [intros z [<-|[]]; lra|].
    intros z Hz. split; [now apply Hc | now apply Hd].
  - (* several latitudes, one longitude *)
    destruct (fold_min_spec (x' :: lats) x) as [Ha _].
    destruct (fold_max_spec (x' :: lats) x) as [Hb _].
    split; [discriminate|]. split; [discriminate|].
    split; [|intros z [<-|[]]; lra].
    intros z Hz. split; [now apply Ha | now apply Hb].
  - (* several of each *)
    destruct (fold_min_spec (x' :: lats) x) as [Ha _].
    destruct (fold_max_spec (x' :: lats) x) as [Hb _].
    destruct (fold_min_spec (y' :: lons) y) as [Hc _].
    destruct (fold_max_spec (y' :: lons) y) as [Hd _].
    split; [discriminate|]. split; [discriminate|].
    split; intros z Hz; split; auto.
Qed.

(** X14, witness: the sample model, two latitudes and one longitude. *)
Lemma getExtent_encloses_points_witness :
  match WeatherModelMore._getExtent [10; 12] [20] sample_model with
  | Ok (a, b, c, d) =>
      [10; 12] <> [] /\ [20] <> [] /\
      (forall x, In x [10; 12] -> a <= x <= b) /\
      (forall y, In y [20] -> c <= y <= d)
  | Raise e =>
      ([10; 12] = [] \/ [20] = []) /\ (e = RuntimeError \/ e = ValueError)
  end.
Proof.
  apply (getExtent_encloses_points [10; 12] [20] sample_model);
    cbn [_lat_res _lon_res sample_model]; lra.
Defined.

(** Without query points and without a grid, the bounds are those read
    from the first raw file, reordered, and the object keeps them. *)
Lemma ll_bounds_from_file (m : weather_model) (path : string)
    (xmin ymin xmax ymax : R) (rest : list raw_file)
    (lons : option (list R)) (Nextra : R) :
  _lats (data m) = None ->
  _bbox m = None ->
  files m = Some ((path, Ok (xmin, ymin, xmax, ymax)) :: rest) ->
  _get_ll_bounds None lons Nextra m = Ok (ymin, ymax, xmin, xmax) /\
  _bbox (ll_bounds_cached None m) = Some (xmin, ymin, xmax, ymax).
Proof.
  intros Hl Hb Hf. unfold _get_ll_bounds, ll_bounds_cached, bbox_cached, bbox.
  rewrite Hl, Hb, Hf. split; reflexivity.
Qed.

(** With [lons] left out, an empty [lats] fails first. *)
Lemma ll_bounds_empty_lats_first (Nextra : R) (m : weather_model) :
  _get_ll_bounds (Some []) None Nextra m = Raise ValueError.
Proof. reflexivity. Qed.

End BoundingBoxes.

(** ** More on saturation vapour pressure and zenith delays *)

Section SvpBounds.

Import WeatherModel.

Local Open Scope R_scope.





End SvpBounds.

Section ZenithProperties.

Import WeatherModel.

Local Open Scope R_scope.

Lemma integral_from_top (c zs : list R) :
  integral_from c zs (length zs - 1) = 0.
Proof.
  unfold integral_from. now rewrite Nat.sub_diag.
Qed.

Lemma integral_from_step (c zs : list R) (k : nat) :
  (S k < length zs)%nat ->
  integral_from c zs k
  = (nth (S k) zs 0 - nth k zs 0) * (nth k c 0 + nth (S k) c 0) / 2
    + integral_from c zs (S k).
Proof.
  intros Hk. unfold integral_from.
  replace (length zs - 1 - k)%nat with (S (length zs - 1 - S k)) by lia.
  reflexivity.
Qed.

Lemma trapezoid_sum_const (N : R) (c zs : list R) (n k : nat) :
  (forall m, (m < length zs)%nat -> nth m c 0 = N) ->
  (k + n < length zs)%nat ->
  trapezoid_sum c zs k n = N * (nth (k + n) zs 0 - nth k zs 0).
Proof.
  intros Hc. revert k. induction n as [|n IH]; intros k Hk.
  - cbn. rewrite Nat.add_0_r. ring.
  - cbn [trapezoid_sum]. rewrite IH by lia.
    rewrite !Hc by lia.
    replace (S k + n)%nat with (k + S n)%nat by lia. lra.
Qed.

Lemma trapezoid_sum_nonneg (c zs : list R) (n k : nat) :
  (forall m, (m < length zs)%nat -> 0 <= nth m c 0) ->
  (forall m, (S m < length zs)%nat -> nth m zs 0 <= nth (S m) zs 0) ->
  (k + n < length zs)%nat ->
  0 <= trapezoid_sum c zs k n.
Proof.
  intros Hc Hz. revert k. induction n as [|n IH]; intros k Hk.
  - cbn. lra.
  - cbn [trapezoid_sum].
    pose proof (IH (S k) ltac:(lia)) as H1.
    pose proof (Hc k ltac:(lia)) as H2.
    pose proof (Hc (S k) ltac:(lia)) as H3.
    pose proof (Hz k ltac:(lia)) as H4.
    nra.
Qed.

(** What [_getZTD] leaves in one entry of either field. *)
Lemma getZTD_entry (wet : bool) (zref : option R) (w : world)
    (lats : array3) (i j : nat) (c : list R) :
  let g := data (self w) in
  let run := _getZTD zref w in
  _lats g = Some lats ->
  col_at (WeatherModelMore.refractivity_of wet g) i j = Some c ->
  length c = length (_zs g) ->
  shape2 (_wet_refractivity g) = length (_zs g) ->
  fst run = Ok tt /\
  forall k, (k < length (_zs g))%nat ->
    at3 (WeatherModelMore.ztd_of wet (data (self (snd run)))) i j k
    = Some (1e-6 * integral_from c (_zs g) k).
Proof.
  intros g run Hlats Hc Hlen Hshape. subst run.
  unfold _getZTD, bindM, record, get_self, modify_data, bindM, get_self,
    lift, put_self.
  cbn [self disk calls data]. fold g. rewrite Hlats.
  cbn [fst snd self data set_data].
  split; [reflexivity|]. intros k Hk.
  unfold ztd_totals.
  destruct wet; cbn [WeatherModelMore.ztd_of WeatherModelMore.refractivity_of
                       _wet_ztd _hydrostatic_ztd] in *.
  - rewrite ztd_totals_fst. cbn [fst]. rewrite Hshape.
    now apply integrated_entry.
  - rewrite ztd_totals_snd. cbn [snd]. rewrite Hshape.
    now apply integrated_entry.
Qed.

(** X16: in either zenith-delay field, the entry at the last stored
    level is 0, and the entry at level k is the entry at level k + 1 plus
    1e-6 times the trapezoid between the two levels. *)
Theorem ztd_accumulates_downward (wet : bool) (zref : option R) (w : world)
    (lats : array3) (i j : nat) (c : list R) :
  let g := data (self w) in
  let ztd := WeatherModelMore.ztd_of wet (data (self (snd (_getZTD zref w)))) in
  _lats g = Some lats ->
  col_at (WeatherModelMore.refractivity_of wet g) i j = Some c ->
  length c = length (_zs g) ->
  shape2 (_wet_refractivity g) = length (_zs g) ->
  (0 < length (_zs g))%nat ->
  at3 ztd i j (length (_zs g) - 1) = Some 0 /\
  forall k, (S k < length (_zs g))%nat ->
    exists a b,
      at3 ztd i j k = Some a /\
      at3 ztd i j (S k) = Some b /\
      a = b + 1e-6 * ((nth (S k) (_zs g) 0 - nth k (_zs g) 0)
                      * (nth k c 0 + nth (S k) c 0) / 2).
Proof.
  intros g ztd Hlats Hc Hlen Hshape Hpos. subst ztd.
  destruct (getZTD_entry wet zref w lats i j c Hlats Hc Hlen Hshape)
    as [_ He]. fold g in He.
  split.
  - rewrite He by lia. rewrite integral_from_top. f_equal. ring.
  - intros k Hk. do 2 eexists.
    split; [apply He; lia|]. split; [apply He; lia|].
    rewrite (integral_from_step c (_zs g) k Hk). ring.
Qed.

(** X17: over a column of constant refractivity N the stored zenith
    delay at level k is exactly 1e-6 * N * (z_top - z_k). *)
Theorem ztd_of_constant_column (wet : bool) (zref : option R) (w : world)
    (lats : array3) (i j k : nat) (c : list R) (N : R) :
  let g := data (self w) in
  let ztd := WeatherModelMore.ztd_of wet (data (self (snd (_getZTD zref w)))) in
  _lats g = Some lats ->
  col_at (WeatherModelMore.refractivity_of wet g) i j = Some c ->
  length c = length (_zs g) ->
  shape2 (_wet_refractivity g) = length (_zs g) ->
  (forall m, (m < length (_zs g))%nat -> nth m c 0 = N) ->
  (k < length (_zs g))%nat ->
  at3 ztd i j k
  = Some (1e-6 * N * (nth (length (_zs g) - 1) (_zs g) 0 - nth k (_zs g) 0)).
Proof.
  intros g ztd Hlats Hc Hlen Hshape HN Hk. subst ztd.
  destruct (getZTD_entry wet zref w lats i j c Hlats Hc Hlen Hshape)
    as [_ He]. fold g in He.
  rewrite He by exact Hk. unfold integral_from.
  rewrite (trapezoid_sum_const N) by (try exact HN; lia).
  replace (k + (length (_zs g) - 1 - k))%nat with (length (_zs g) - 1)%nat
    by lia.
  f_equal. ring.
Qed.

Lemma ztd_entries_decrease (wet : bool) (zref : option R) (w : world)
    (lats : array3) (i j : nat) (c : list R) :
  let g := data (self w) in
  let ztd := WeatherModelMore.ztd_of wet (data (self (snd (_getZTD zref w)))) in
  _lats g = Some lats ->
  col_at (WeatherModelMore.refractivity_of wet g) i j = Some c ->
  length c = length (_zs g) ->
  shape2 (_wet_refractivity g) = length (_zs g) ->
  (forall m, (m < length (_zs g))%nat -> 0 <= nth m c 0) ->
  (forall m, (S m < length (_zs g))%nat ->
             nth m (_zs g) 0 <= nth (S m) (_zs g) 0) ->
  forall k, (S k < length (_zs g))%nat ->
    exists a b,
      at3 ztd i j k = Some a /\ at3 ztd i j (S k) = Some b /\
      0 <= b <= a.
Proof.
  intros g ztd Hlats Hc Hlen Hshape Hpos Hasc k Hk. subst ztd.
  destruct (getZTD_entry wet zref w lats i j c Hlats Hc Hlen Hshape)
    as [_ He]. fold g in He.
  do 2 eexists. split; [apply He; lia|]. split; [apply He; lia|].
  rewrite (integral_from_step c (_zs g) k Hk).
  assert (H0 : 0 <= integral_from c (_zs g) (S k)).
  { unfold integral_from. apply trapezoid_sum_nonneg; auto. lia. }
  pose proof (Hpos k ltac:(lia)) as H2.
  pose proof (Hpos (S k) ltac:(lia)) as H3.
  pose proof (Hasc k Hk) as H4.
  split; nra.
Qed.

(** X18: where the refractivity of a column is nowhere negative and the
    stored levels ascend, the stored zenith delay is nowhere negative and
    does not grow with the level. *)
Theorem ztd_decreases_with_height (wet : bool) (zref : option R) (w : world)
    (lats : array3) (i j : nat) (c : list R) :
  let g := data (self w) in
  let ztd := WeatherModelMore.ztd_of wet (data (self (snd (_getZTD zref w)))) in
  _lats g = Some lats ->
  col_at (WeatherModelMore.refractivity_of wet g) i j = Some c ->
  length c = length (_zs g) ->
  shape2 (_wet_refractivity g) = length (_zs g) ->
  (forall m, (m < length (_zs g))%nat -> 0 <= nth m c 0) ->
  (forall m, (S m < length (_zs g))%nat ->
             nth m (_zs g) 0 <= nth (S m) (_zs g) 0) ->
  forall k, (S k < length (_zs g))%nat ->
    exists a b,
      at3 ztd i j k = Some a /\ at3 ztd i j (S k) = Some b /\
      0 <= b <= a.
Proof. exact (ztd_entries_decrease wet zref w lats i j c). Qed.

(** X19: on an object whose [_lats] is still [None], [_getZTD] raises
    [AttributeError] (from the unused [hgts], the first statement that
    reads [_lats.shape]) and writes no zenith delay. *)
Theorem getZTD_needs_lats (zref : option R) (w : world) :
  _lats (data (self w)) = None ->
  _getZTD zref w
  = (Raise AttributeError, World (self w) (disk w) (calls w ++ [CallGetZTD])).
Proof.
  intros H.
  unfold _getZTD, bindM, record, get_self, modify_data, bindM, get_self,
    lift, put_self.
  cbn [self disk calls data]. now rewrite H.
Qed.

End ZenithProperties.

Section ZenithRuns.

Import WeatherModel.

Local Open Scope R_scope.

(** X16, witness: the wet column of [refractive_world]. *)
Lemma ztd_accumulates_downward_witness :
  let ztd := _wet_ztd (data (self (snd (_getZTD None refractive_world)))) in
  at3 ztd 0 0 1 = Some 0 /\
  forall k, (S k < 2)%nat ->
    exists a b,
      at3 ztd 0 0 k = Some a /\
      at3 ztd 0 0 (S k) = Some b /\
      a = b + 1e-6 * ((nth (S k) [0; 1000] 0 - nth k [0; 1000] 0)
                      * (nth k [50; 20] 0 + nth (S k) [50; 20] 0) / 2).
Proof.
  apply (ztd_accumulates_downward true None refractive_world [[[10; 10]]]
           0 0 [50; 20]); try reflexivity.
  cbn. lia.
Defined.

(** X17, witness: the hydrostatic column of [uniform_world], from its
    lowest level. *)
Lemma ztd_of_constant_column_witness :
  at3 (_hydrostatic_ztd
         (data (self (snd (_getZTD None WeatherModelMore.uniform_world)))))
      0 0 0
  = Some (1e-6 * 250 * (3000 - 0)).
Proof.
  apply (ztd_of_constant_column false None WeatherModelMore.uniform_world
           [[[10; 10; 10]]] 0 0 0 [250; 250; 250] 250); try reflexivity.
  - intros [|[|[|m]]] Hm; try reflexivity. cbn in Hm. lia.
  - cbn. lia.
Defined.

(** X18, witness: the wet column of [refractive_world]. *)
Lemma ztd_decreases_with_height_witness :
  let ztd := _wet_ztd (data (self (snd (_getZTD None refractive_world)))) in
  exists a b,
    at3 ztd 0 0 0 = Some a /\ at3 ztd 0 0 1 = Some b /\ 0 <= b <= a.
Proof.
  apply (ztd_decreases_with_height true None refractive_world [[[10; 10]]]
           0 0 [50; 20]); try reflexivity.
  - intros [|[|m]] Hm; cbn in *; try lra. lia.
  - intros [|m] Hm; cbn in *; try lra. lia.
  - cbn. lia.
Defined.

(** X19, witness: an object without loaded data. *)
Lemma getZTD_needs_lats_witness :
  _getZTD None WeatherModelMore.unloaded_world
  = (Raise AttributeError,
     World (self WeatherModelMore.unloaded_world) [] [CallGetZTD]).
Proof.
  apply (getZTD_needs_lats None WeatherModelMore.unloaded_world).
  reflexivity.
Defined.

End ZenithRuns.

(** ** The name of the cache file *)

Section FileNames.

Import WeatherModel.

Local Open Scope R_scope.

Variable strftime : Z -> string.

Lemma same_cell_ceil (x y : R) :
  WeatherModelMore.same_cell x y -> Np.ceil (Rabs x) = Np.ceil (Rabs y).
Proof.
  intros [_ [n [Hx Hy]]].
  now rewrite (ceil_unique _ n Hx), (ceil_unique _ n Hy).
Qed.

Lemma same_cell_sign (x y : R) :
  WeatherModelMore.same_cell x y -> Rltb x 0 = Rltb y 0.
Proof.
  intros [Hs _]. unfold Rltb.
  destruct (Rlt_dec x 0) as [Hx|Hx], (Rlt_dec y 0) as [Hy|Hy];
    try reflexivity; tauto.
Qed.

(** X20: [make_weather_model_filename] gives one name to any two sets of
    bounds that agree, bound by bound, in sign and in the whole degree
    their absolute value rounds up to; the fractions of a degree never
    reach the name. *)
Theorem filename_ignores_fractions (name : string) (time : Z)
    (b0 b1 b2 b3 b0' b1' b2' b3' : R) :
  WeatherModelMore.same_cell b0 b0' ->
  WeatherModelMore.same_cell b1 b1' ->
  WeatherModelMore.same_cell b2 b2' ->
  WeatherModelMore.same_cell b3 b3' ->
  make_weather_model_filename strftime name time (b0, b1, b2, b3)
  = make_weather_model_filename strftime name time (b0', b1', b2', b3').
Proof.
  intros H0 H1 H2 H3.
  apply filename_of_rounded_bounds;
    auto using same_cell_ceil, same_cell_sign.
Qed.

End FileNames.

Section FileNameRuns.

Import WeatherModel.

Local Open Scope R_scope.

Lemma same_cell_intro (x y : R) (n : Z) :
  (x < 0 <-> y < 0) ->
  IZR n - 1 < Rabs x <= IZR n -> IZR n - 1 < Rabs y <= IZR n ->
  WeatherModelMore.same_cell x y.
Proof. intros Hs Hx Hy. split; [exact Hs | now exists n]. Qed.

(** X20, witness: the boxes 9.5..20.5 N, 29.9..41 W and
    9.2..20.1 N, 29.1..40.3 W. *)
Lemma filename_ignores_fractions_witness :
  make_weather_model_filename sample_strftime "ERA-5" 0
    (9.5, 20.5, -41, -29.9)
  = make_weather_model_filename sample_strftime "ERA-5" 0
    (9.2, 20.1, -40.3, -29.1).
Proof.
  apply (filename_ignores_fractions sample_strftime "ERA-5" 0).
  - apply (same_cell_intro _ _ 10); [lra | |];
      rewrite Rabs_right by lra; lra.
  - apply (same_cell_intro _ _ 21); [lra | |];
      rewrite Rabs_right by lra; lra.
  - apply (same_cell_intro _ _ 41); [lra | |];
      rewrite Rabs_left by lra; lra.
  - apply (same_cell_intro _ _ 30); [lra | |];
      rewrite Rabs_left by lra; lra.
Defined.

End FileNameRuns.

(** ** Extents of the elevation model *)

Section ExtentOrder.

Import Dem.

Local Open Scope Q_scope.

Lemma Qltb_false_iff (x y : Q) : Qltb x y = false <-> y <= x.
Proof.
  unfold Qltb. rewrite negb_false_iff. apply Qle_bool_iff.
Qed.

Lemma isOutside_false_iff (a0 a1 a2 a3 b0 b1 b2 b3 : Q) :
  isOutside (a0, a1, a2, a3) (b0, b1, b2, b3) = false
  <-> b0 <= a0 /\ a1 <= b1 /\ b2 <= a2 /\ a3 <= b3.
Proof.
  unfold isOutside, np_any. cbn [existsb].
  rewrite <- !Qltb_false_iff.
  destruct (Qltb a0 b0), (Qltb b1 a1), (Qltb a2 b2), (Qltb b3 a3);
    cbn; intuition congruence.
Qed.

(** X21: [isInside] is [isOutside] with the arguments exchanged and the
    answer negated: [isInside(extent1, extent2)] holds exactly when no
    part of extent2 lies outside extent1. *)
Theorem isInside_is_not_isOutside_swapped (extent1 extent2 : extent) :
  isInside extent1 extent2 = negb (isOutside extent2 extent1).
Proof.
  destruct extent1 as [[[a0 a1] a2] a3], extent2 as [[[b0 b1] b2] b3].
  unfold isInside, isOutside, np_all, np_any, Qltb.
  cbn [forallb existsb].
  destruct (Qle_bool a0 b0), (Qle_bool b1 a1), (Qle_bool a2 b2),
    (Qle_bool b3 a3); reflexivity.
Qed.

(** X22: containment as [isOutside] decides it is transitive: when no
    part of a lies outside b and no part of b lies outside c, no part of
    a lies outside c. *)
Theorem isOutside_false_trans (a b c : extent) :
  isOutside a b = false -> isOutside b c = false -> isOutside a c = false.
Proof.
  destruct a as [[[a0 a1] a2] a3], b as [[[b0 b1] b2] b3],
    c as [[[c0 c1] c2] c3].
  rewrite !isOutside_false_iff.
  intros (H0 & H1 & H2 & H3) (K0 & K1 & K2 & K3).
  repeat split; eapply Qle_trans; eassumption.
Qed.

End ExtentOrder.

Section ExtentOrderRuns.

Import Dem.

Local Open Scope Q_scope.

(** X22, witness: three nested boxes. *)
Lemma isOutside_false_trans_witness :
  isOutside (2, 3, 2, 3) (0, 5, 0, 5) = false.
Proof.
  apply (isOutside_false_trans (2, 3, 2, 3) (1, 4, 1, 4) (0, 5, 0, 5));
    reflexivity.
Defined.

End ExtentOrderRuns.

Section BufferedExtents.

Import Dem DemMore.

Local Open Scope Q_scope.

Lemma Qmin_cases (x y : Q) : Qmin x y = x \/ Qmin x y = y.
Proof.
  unfold Qmin, GenericMinMax.gmin. destruct (x ?= y); auto.
Qed.

Lemma Qmax_cases (x y : Q) : Qmax x y = x \/ Qmax x y = y.
Proof.
  unfold Qmax, GenericMinMax.gmax. destruct (x ?= y); auto.
Qed.

Lemma fold_Qmin_le (t : list Q) (x : Q) :
  fold_left Qmin t x <= x /\ forall y, In y t -> fold_left Qmin t x <= y.
Proof.
  revert x. induction t as [|a t IH]; intros x; cbn [fold_left].
  - split; [apply Qle_refl | intros y []].
  - destruct (IH (Qmin x a)) as [H1 H2]. split.
    + eapply Qle_trans; [exact H1 | apply Q.le_min_l].
    + intros y [<-|Hy]; [|now apply H2].
      eapply Qle_trans; [exact H1 | apply Q.le_min_r].
Qed.

Lemma fold_Qmax_ge (t : list Q) (x : Q) :
  x <= fold_left Qmax t x /\ forall y, In y t -> y <= fold_left Qmax t x.
Proof.
  revert x. induction t as [|a t IH]; intros x; cbn [fold_left].
  - split; [apply Qle_refl | intros y []].
  - destruct (IH (Qmax x a)) as [H1 H2]. split.
    + eapply Qle_trans; [apply Q.le_max_l | exact H1].
    + intros y [<-|Hy]; [|now apply H2].
      eapply Qle_trans; [apply Q.le_max_r | exact H1].
Qed.

Lemma fold_Qmin_in (t : list Q) (x : Q) : In (fold_left Qmin t x) (x :: t).
Proof.
  revert x. induction t as [|a t IH]; intros x; cbn [fold_left].
  - now left.
  - destruct (IH (Qmin x a)) as [H|H].
    + rewrite <- H.
      destruct (Qmin_cases x a) as [E|E]; rewrite E; cbn; auto.
    + right. now right.
Qed.

Lemma fold_Qmax_in (t : list Q) (x : Q) : In (fold_left Qmax t x) (x :: t).
Proof.
  revert x. induction t as [|a t IH]; intros x; cbn [fold_left].
  - now left.
  - destruct (IH (Qmax x a)) as [H|H].
    + rewrite <- H.
      destruct (Qmax_cases x a) as [E|E]; rewrite E; cbn; auto.
    + right. now right.
Qed.

Lemma minimum_spec (l : list Q) (m : Q) :
  minimum l = Some m -> In m l /\ forall y, In y l -> m <= y.
Proof.
  destruct l as [|x t]; [discriminate|]. intros [= <-]. split.
  - apply fold_Qmin_in.
  - destruct (fold_Qmin_le t x) as [H1 H2].
    intros y [<-|Hy]; [exact H1 | now apply H2].
Qed.

Lemma maximum_spec (l : list Q) (m : Q) :
  maximum l = Some m -> In m l /\ forall y, In y l -> y <= m.
Proof.
  destruct l as [|x t]; [discriminate|]. intros [= <-]. split.
  - apply fold_Qmax_in.
  - destruct (fold_Qmax_ge t x) as [H1 H2].
    intros y [<-|Hy]; [exact H1 | now apply H2].
Qed.

Lemma box_inl (a b c d : option Q) (fail : error) (e : extent) :
  box a b c d fail = inl e ->
  exists a' b' c' d',
    a = Some a' /\ b = Some b' /\ c = Some c' /\ d = Some d' /\
    e = (a', b', c', d').
Proof.
  destruct a as [a'|], b as [b'|], c as [c'|], d as [d'|];
    cbn; try discriminate.
  intros [= <-]. now exists a', b', c', d'.
Qed.

Lemma minus_buf_le (x buf : Q) : 0 <= buf -> x - buf <= x.
Proof.
  intros H. rewrite <- (Qplus_0_r x) at 2. unfold Qminus.
  apply Qplus_le_r. apply (Qopp_le_compat 0 buf) in H. exact H.
Qed.

Lemma le_plus_buf (x buf : Q) : 0 <= buf -> x <= x + buf.
Proof.
  intros H. rewrite <- (Qplus_0_r x) at 1. now apply Qplus_le_r.
Qed.

Lemma singleton_of_length (l : list Q) :
  Nat.eqb (length l) 1 = true -> l = [hd 0 l].
Proof.
  destruct l as [|x [|y t]]; cbn; try discriminate. reflexivity.
Qed.

Lemma minimum_minus_buf (l : list Q) (buf a : Q) :
  0 <= buf ->
  option_map (fun x => x - buf) (minimum l) = Some a ->
  forall y, In y l -> a <= y.
Proof.
  intros Hb H y Hy. destruct (minimum l) as [m|] eqn:E; [|discriminate].
  cbn in H. injection H as <-.
  eapply Qle_trans; [apply minus_buf_le, Hb|].
  now apply (minimum_spec l m E).
Qed.

Lemma maximum_plus_buf (l : list Q) (buf a : Q) :
  0 <= buf ->
  option_map (fun x => x + buf) (maximum l) = Some a ->
  forall y, In y l -> y <= a.
Proof.
  intros Hb H y Hy. destruct (maximum l) as [m|] eqn:E; [|discriminate].
  cbn in H. injection H as <-.
  eapply Qle_trans; [|apply le_plus_buf, Hb].
  now apply (maximum_spec l m E).
Qed.

Lemma single_minus_buf (l : list Q) (buf : Q) :
  0 <= buf -> Nat.eqb (length l) 1 = true ->
  forall y, In y l -> hd 0 l - buf <= y <= hd 0 l + buf.
Proof.
  intros Hb Hl y Hy. rewrite (singleton_of_length l Hl) in Hy.
  destruct Hy as [<-|[]]. split; [now apply minus_buf_le | now apply le_plus_buf].
Qed.

(** X23: whenever [getBufferedExtent] returns, with a buffer that is not
    negative, every latitude it was given lies between the first two
    entries of the extent and every longitude between the last two. *)
Theorem buffered_extent_encloses_points (lats lons : coords) (buf : Q)
    (a b c d : Q) :
  0 <= buf ->
  getBufferedExtent lats (Some lons) buf = inl (a, b, c, d) ->
  (forall x, In x (values lats) -> a <= x <= b) /\
  (forall y, In y (values lons) -> c <= y <= d).
Proof.
  intros Hb H. unfold getBufferedExtent in H.
  destruct lats as [l|l|l]; [| |discriminate].
  - destruct lons as [l'|l'|l']; [|discriminate|discriminate].
    cbn [values].
    destruct (Nat.eqb (length l) 1) eqn:E1,
             (Nat.eqb (length l') 1) eqn:E2; cbn [andb] in H.
    + injection H as <- <- <- <-.
      split; intros; now apply single_minus_buf.
    + destruct (Nat.ltb 1 (length l) && Nat.ltb 1 (length l'))%bool.
      * apply box_inl in H as (a' & b' & c' & d' & Ha & Hb' & Hc & Hd & He).
        injection He as -> -> -> ->.
        split; intros; split;
          solve [ now apply (minimum_spec _ _ Ha)
                | now apply (maximum_spec _ _ Hb')
                | now apply (minimum_spec _ _ Hc)
                | now apply (maximum_spec _ _ Hd) ].
      * apply box_inl in H as (a' & b' & c' & d' & Ha & Hb' & Hc & Hd & He).
        injection He as -> -> -> ->.
        injection Ha as <-. injection Hb' as <-.
        split; intros.
        -- now apply single_minus_buf.
        -- split; [now apply (minimum_spec _ _ Hc)
                  | now apply (maximum_spec _ _ Hd)].
    + destruct (Nat.ltb 1 (length l) && Nat.ltb 1 (length l'))%bool.
      * apply box_inl in H as (a' & b' & c' & d' & Ha & Hb' & Hc & Hd & He).
        injection He as -> -> -> ->.
        split; intros; split;
          solve [ now apply (minimum_spec _ _ Ha)
                | now apply (maximum_spec _ _ Hb')
                | now apply (minimum_spec _ _ Hc)
                | now apply (maximum_spec _ _ Hd) ].
      * apply box_inl in H as (a' & b' & c' & d' & Ha & Hb' & Hc & Hd & He).
        injection He as -> -> -> ->.
        injection Hc as <-. injection Hd as <-.
        split; intros.
        -- split; [now apply (minimum_spec _ _ Ha)
                  | now apply (maximum_spec _ _ Hb')].
        -- now apply single_minus_buf.
    + destruct (Nat.ltb 1 (length l) && Nat.ltb 1 (length l'))%bool;
        [|discriminate].
      apply box_inl in H as (a' & b' & c' & d' & Ha & Hb' & Hc & Hd & He).
      injection He as -> -> -> ->.
      split; intros; split;
        solve [ now apply (minimum_spec _ _ Ha)
              | now apply (maximum_spec _ _ Hb')
              | now apply (minimum_spec _ _ Hc)
              | now apply (maximum_spec _ _ Hd) ].
  - destruct (Nat.eqb (length l) 2); [|discriminate].
    apply box_inl in H as (a' & b' & c' & d' & Ha & Hb' & Hc & Hd & He).
    injection He as -> -> -> ->. cbn [values].
    split; intros; split;
      solve [ now apply (minimum_minus_buf _ buf _ Hb Ha)
            | now apply (maximum_plus_buf _ buf _ Hb Hb')
            | now apply (minimum_minus_buf _ buf _ Hb Hc)
            | now apply (maximum_plus_buf _ buf _ Hb Hd) ].
Qed.

(** X24: for two arrays of more than one point each, [getBufferedExtent]
    returns an extent whose four entries are coordinates of the points
    themselves, whatever the buffer: no margin is added. *)
Theorem many_points_get_no_buffer (l l' : list Q) (buf : Q) :
  (1 < length l)%nat -> (1 < length l')%nat ->
  exists a b c d,
    getBufferedExtent (Arr l) (Some (Arr l')) buf = inl (a, b, c, d) /\
    In a l /\ In b l /\ In c l' /\ In d l' /\
    getBufferedExtent (Arr l) (Some (Arr l')) 0 = inl (a, b, c, d).
Proof.
  intros H1 H2. unfold getBufferedExtent.
  destruct l as [|x t]; [cbn in H1; lia|].
  destruct l' as [|x' t']; [cbn in H2; lia|].
  destruct (Nat.eqb_spec (length (x :: t)) 1) as [E|_]; [lia|].
  cbn [andb].
  destruct (Nat.ltb_spec 1 (length (x :: t))) as [_|E]; [|lia].
  destruct (Nat.ltb_spec 1 (length (x' :: t'))) as [_|E]; [|lia].
  cbn [andb minimum maximum box].
  do 4 eexists. split; [reflexivity|].
  repeat split;
    auto using fold_Qmin_in, fold_Qmax_in.
Qed.

Lemma getBufferedExtent_needs_lons (lats : coords) (buf : Q) :
  getBufferedExtent lats None buf = inr (Py TypeError) \/
  getBufferedExtent lats None buf = inr (Py IndexError).
Proof.
  destruct lats as [[|x t]|l|l]; cbn; auto.
Qed.

End BufferedExtents.

Section BufferedExtentRuns.

Import Dem DemMore.

Local Open Scope Q_scope.

(** X23, witness: one latitude and three longitudes, buffer 1/2. *)
Lemma buffered_extent_encloses_points_witness :
  (forall x, In x [10] -> 10 - (1 # 2) <= x <= 10 + (1 # 2)) /\
  (forall y, In y [3; 1; 2] -> 1 <= y <= 3).
Proof.
  apply (buffered_extent_encloses_points (Arr [10]) (Arr [3; 1; 2]) (1 # 2)).
  - discriminate.
  - reflexivity.
Defined.

(** X24, witness: two latitudes and three longitudes, buffer 1/2. *)
Lemma many_points_get_no_buffer_witness :
  exists a b c d,
    getBufferedExtent (Arr [5; 4]) (Some (Arr [3; 1; 2])) (1 # 2)
    = inl (a, b, c, d) /\
    In a [5; 4] /\ In b [5; 4] /\ In c [3; 1; 2] /\ In d [3; 1; 2] /\
    getBufferedExtent (Arr [5; 4]) (Some (Arr [3; 1; 2])) 0
    = inl (a, b, c, d).
Proof.
  apply (many_points_get_no_buffer [5; 4] [3; 1; 2] (1 # 2)); cbn; lia.
Defined.

End BufferedExtentRuns.

(** ** Reusing an elevation model *)

Section ExistingDem.

Import Dem DemMore.

Local Open Scope Q_scope.

Variables W ndarray nodata : Type.
Variable path_exists : string -> W -> bool.
Variable gdal_extents : string -> W -> coords + error.
Variable readRaster : string -> W -> nodata + error.
Variable gdal_open : string -> W -> ndarray + error.
Variable read_hgt_file : string -> W -> ndarray + error.
Variable download_stitched_dem :
  Q * Q * Q * Q -> string -> string -> nat -> St W string.
Variable folder_of : string -> string.
Variable flip : ndarray -> ndarray.
Variable interpolateDEM :
  ndarray -> coords -> option coords -> Dem.extent -> ndarray + error.
Variable ndim : ndarray -> nat.
Variable makedirs : string -> St W unit.
Variable writeArrayToRaster : ndarray -> string -> nodata -> St W unit.
Variable writeArrayToFile :
  option coords -> coords -> ndarray -> string -> nodata -> St W unit.
Variable merge_csv : string -> ndarray -> St W unit.

Let run :=
  download_dem W ndarray nodata path_exists gdal_extents readRaster
    gdal_open read_hgt_file download_stitched_dem folder_of flip
    interpolateDEM ndim makedirs writeArrayToRaster writeArrayToFile
    merge_csv.

(** X25: when the file [outName] exists and its extents can be read,
    [download_dem] raises [TypeError] (or [IndexError]) from the call of
    [getBufferedExtent] without [lons], before it compares the extents:
    it neither reuses the file nor downloads, and changes nothing. *)
Theorem existing_dem_is_never_reused (lats : coords) (lons : option coords)
    (save_flag outName : string) (buf : Q) (w : W)
    (inExtent : extent) (ext : coords) :
  getBufferedExtent lats lons buf = inl inExtent ->
  path_exists outName w = true ->
  gdal_extents outName w = inl ext ->
  run lats lons save_flag outName buf w = (inr (Py TypeError), w) \/
  run lats lons save_flag outName buf w = (inr (Py IndexError), w).
Proof.
  intros Hin Hex Hext. subst run.
  assert (H : forall e, e = TypeError \/ e = IndexError ->
            getBufferedExtent ext None buf = inr (Py e) ->
            download_dem W ndarray nodata path_exists gdal_extents readRaster
              gdal_open read_hgt_file download_stitched_dem folder_of flip
              interpolateDEM ndim makedirs writeArrayToRaster
              writeArrayToFile merge_csv lats lons save_flag outName buf w
            = (inr (Py e), w)).
  { intros e He E.
    unfold download_dem, bindS at 1, liftS at 1. rewrite Hin.
    unfold bindS at 1. rewrite Hex.
    unfold check_existing, catchS at 1, use_existing, bindS at 1, readS at 1.
    rewrite Hext. unfold bindS at 1, liftS at 1. rewrite E.
    destruct He as [-> | ->]; reflexivity. }
  destruct (getBufferedExtent_needs_lons ext buf) as [E|E];
    [left | right]; apply H; auto.
Qed.

End ExistingDem.

Section ExistingDemRuns.

Import Dem DemMore.

Local Open Scope Q_scope.

(** X25, witness: a file system in which every path exists and every
    raster has the extents [0, 1, 0, 1], given as a list. *)
Lemma existing_dem_is_never_reused_witness :
  let run :=
    download_dem unit (list Q) Q
      (fun _ _ => true) (fun _ _ => inl (Lst [0; 1; 0; 1]))
      (fun _ _ => inl 0) (fun _ _ => inl [1; 2]) (fun _ _ => inl [1; 2])
      (fun _ _ out_dir _ => retS unit out_dir) (fun s => s)
      (fun a => rev a) (fun out _ _ _ => inl out) (fun _ => 1%nat)
      (fun _ => retS unit tt) (fun _ _ _ => retS unit tt)
      (fun _ _ _ _ _ => retS unit tt) (fun _ _ => retS unit tt) in
  run (Arr [10]) (Some (Arr [20])) "new"%string "warpedDEM"%string (1 # 50) tt
  = (inr (Py TypeError), tt) \/
  run (Arr [10]) (Some (Arr [20])) "new"%string "warpedDEM"%string (1 # 50) tt
  = (inr (Py IndexError), tt).
Proof.
  apply (existing_dem_is_never_reused unit (list Q) Q
           (fun _ _ => true) (fun _ _ => inl (Lst [0; 1; 0; 1]))
           (fun _ _ => inl 0) (fun _ _ => inl [1; 2]) (fun _ _ => inl [1; 2])
           (fun _ _ out_dir _ => retS unit out_dir) (fun s => s)
           (fun a => rev a) (fun out _ _ _ => inl out) (fun _ => 1%nat)
           (fun _ => retS unit tt) (fun _ _ _ => retS unit tt)
           (fun _ _ _ _ _ => retS unit tt) (fun _ _ => retS unit tt)
           (Arr [10]) (Some (Arr [20])) "new"%string "warpedDEM"%string
           (1 # 50) tt
           (10 - (1 # 50), 10 + (1 # 50), 20 - (1 # 50), 20 + (1 # 50))
           (Lst [0; 1; 0; 1]));
    reflexivity.
Defined.

End ExistingDemRuns.

(** ** From pressure, temperature and vapour pressure to zenith delays *)

Section RefractivityToDelay.

Import WeatherModel.

Local Open Scope R_scope.

Lemma zip3_col (f : R -> R -> R) (a b : array3) (i j : nat)
    (ca cb : list R) :
  col_at a i j = Some ca -> col_at b i j = Some cb ->
  col_at (zip3 f a b) i j = Some (Np.map2 f ca cb).
Proof.
  unfold col_at, zip3. intros Ha Hb.
  destruct (nth_error a i) as [ra|] eqn:Ea; [|discriminate].
  destruct (nth_error b i) as [rb|] eqn:Eb; [|discriminate].
  rewrite (map2_nth_error (Np.map2 (Np.map2 f)) _ _ _ _ _ Ea Eb).
  exact (map2_nth_error (Np.map2 f) _ _ _ _ _ Ha Hb).
Qed.

Lemma map2_length_eq {A B C : Type} (f : A -> B -> C) (a : list A)
    (b : list B) :
  length a = length b -> length (Np.map2 f a b) = length a.
Proof.
  revert b. induction a as [|x a IH]; intros [|y b] H; cbn in *;
    try reflexivity; try discriminate.
  f_equal. apply IH. lia.
Qed.

Lemma map2_nth (f : R -> R -> R) (a b : list R) (m : nat) :
  (m < length a)%nat -> (m < length b)%nat ->
  nth m (Np.map2 f a b) 0 = f (nth m a 0) (nth m b 0).
Proof.
  revert a b. induction m as [|m IH]; intros [|x a] [|y b] Ha Hb;
    cbn in *; try lia; try reflexivity.
  apply IH; lia.
Qed.

Lemma shape2_zip3 (f : R -> R -> R) (a b : array3) (n : nat) :
  shape2 a = n -> shape2 b = n -> shape2 (zip3 f a b) = n.
Proof.
  intros Ha Hb. unfold zip3.
  destruct a as [|[|ca ra] a]; destruct b as [|[|cb rb] b];
    cbn [shape2 Np.map2 length] in *; try congruence.
  rewrite <- Ha. apply map2_length_eq. congruence.
Qed.

Lemma wet_refractivity_run (w : world) :
  let m := self w in
  let g := data m in
  _get_wet_refractivity w
  = (Ok tt,
     World (set_data
              (Grid (_zs g) (_lats g) (_lons g) (_p g) (_t g) (_e g) (_q g)
                    (_rh g)
                    (zip3 (fun e t => _k2 m * e / t + _k3 m * e / t ^ 2)
                          (_e g) (_t g))
                    (_hydrostatic_refractivity g) (_wet_ztd g)
                    (_hydrostatic_ztd g)) m)
           (disk w) (calls w ++ [CallGetWetRefractivity])).
Proof. reflexivity. Qed.

Lemma hydro_refractivity_run (w : world) :
  let m := self w in
  let g := data m in
  _get_hydro_refractivity w
  = (Ok tt,
     World (set_data
              (Grid (_zs g) (_lats g) (_lons g) (_p g) (_t g) (_e g) (_q g)
                    (_rh g) (_wet_refractivity g)
                    (zip3 (fun p t => _k1 m * p / t) (_p g) (_t g))
                    (_wet_ztd g) (_hydrostatic_ztd g)) m)
           (disk w) (calls w ++ [CallGetHydroRefractivity])).
Proof. reflexivity. Qed.

(** X26: for a column with positive temperatures, pressures and vapour
    pressures that are not negative, constants k1, k2, k3 that are not
    negative and ascending levels, computing the two refractivities and
    then the zenith delays leaves, in the wet and in the hydrostatic
    field alike, delays that are nowhere negative and do not grow with
    the level. *)
Theorem physical_column_delays_decrease (wet : bool) (zref : option R)
    (w : world) (lats : array3) (i j : nat) (cp ct ce : list R) :
  let m := self w in
  let g := data m in
  let ztd :=
    WeatherModelMore.ztd_of wet
      (data (self (WeatherModelMore.refract_and_integrate zref w))) in
  _lats g = Some lats ->
  col_at (_p g) i j = Some cp ->
  col_at (_t g) i j = Some ct ->
  col_at (_e g) i j = Some ce ->
  length cp = length (_zs g) ->
  length ct = length (_zs g) ->
  length ce = length (_zs g) ->
  shape2 (_e g) = length (_zs g) ->
  shape2 (_t g) = length (_zs g) ->
  0 <= _k1 m -> 0 <= _k2 m -> 0 <= _k3 m ->
  (forall n, (n < length (_zs g))%nat ->
             0 <= nth n cp 0 /\ 0 < nth n ct 0 /\ 0 <= nth n ce 0) ->
  (forall n, (S n < length (_zs g))%nat ->
             nth n (_zs g) 0 <= nth (S n) (_zs g) 0) ->
  forall k, (S k < length (_zs g))%nat ->
    exists a b,
      at3 ztd i j k = Some a /\ at3 ztd i j (S k) = Some b /\
      0 <= b <= a.
Proof.
  intros m g ztd Hlats Hp Ht He Lp Lt Le Se St K1 K2 K3 Hphys Hasc k Hk.
  subst ztd. unfold WeatherModelMore.refract_and_integrate.
  rewrite wet_refractivity_run. cbn [snd].
  rewrite hydro_refractivity_run. cbn [snd self data set_data].
  fold m. fold g.
  set (fw := fun e t => _k2 m * e / t + _k3 m * e / t ^ 2).
  set (fh := fun p t => _k1 m * p / t).
  cbn [_k1 _k2 _k3 _zs _lats _lons _p _t _e _q _rh _wet_refractivity
       _hydrostatic_refractivity _wet_ztd _hydrostatic_ztd].
  match goal with
  | |- context [_getZTD zref ?w2] =>
      apply (ztd_entries_decrease wet zref w2 lats i j
               (if wet then Np.map2 fw ce ct else Np.map2 fh cp ct))
  end; cbn [self data set_data _zs _lats _wet_refractivity
            _hydrostatic_refractivity]; try assumption.
  - destruct wet; cbn [WeatherModelMore.refractivity_of _wet_refractivity
                         _hydrostatic_refractivity];
      now apply zip3_col.
  - destruct wet; rewrite map2_length_eq; congruence.
  - now apply shape2_zip3.
  - intros n Hn. destruct (Hphys n Hn) as (P & T & E).
    destruct wet; rewrite map2_nth by lia; subst fw fh; cbn beta.
    + assert (0 <= / nth n ct 0) by (left; now apply Rinv_0_lt_compat).
      assert (0 <= _k2 m * nth n ce 0) by now apply Rmult_le_pos.
      assert (0 <= _k3 m * nth n ce 0) by now apply Rmult_le_pos.
      assert (0 <= / nth n ct 0 ^ 2).
      { left. apply Rinv_0_lt_compat. nra. }
      unfold Rdiv. nra.
    + assert (0 <= / nth n ct 0) by (left; now apply Rinv_0_lt_compat).
      assert (0 <= _k1 m * nth n cp 0) by now apply Rmult_le_pos.
      unfold Rdiv. nra.
Qed.

End RefractivityToDelay.

Section RefractivityToDelayRuns.

Import WeatherModel.

Local Open Scope R_scope.

(** X26, witness: the hydrostatic field of [refractive_world]. *)
Lemma physical_column_delays_decrease_witness :
  let ztd :=
    _hydrostatic_ztd
      (data (self (WeatherModelMore.refract_and_integrate None
                     refractive_world))) in
  exists a b,
    at3 ztd 0 0 0 = Some a /\ at3 ztd 0 0 1 = Some b /\ 0 <= b <= a.
Proof.
  apply (physical_column_delays_decrease false None refractive_world
           [[[10; 10]]] 0 0 [100000; 90000] [280; 270] [900; 400]);
    try reflexivity; try (cbn; lra).
  - intros [|[|n]] Hn; cbn in *; try lra. lia.
  - intros [|n] Hn; cbn in *; try lra. lia.
  - cbn. lia.
Defined.

End RefractivityToDelayRuns.
